(** * Crossy Road clone: a shallow embedding of [crossyRoad.py]

    The simulation core of the game (player controller, lanes, lane-field
    manager, collision engine, session and camera state machine, high-score
    persistence) is embedded as executable Rocq functions.

    Conventions of the embedding.
    - Python [int] is [Z].
    - Python [float] is idealised as an exact rational ([Q], kept in lowest
      terms with [Qred]): the code only adds, scales and compares its floats,
      and every property below is about comparisons and integer parts.
    - The [random] module is a cursor into an arbitrary infinite sequence of
      numbers of the unit interval; each library call consumes one element.
    - The file [highscore.txt] is a component of the explicit environment
      that is threaded through the effectful functions; its text is the
      list of Unicode code points that [f.read()] returns.
    - [int] and [str] are those of CPython 3.11, with its limit of 4300
      digits on the conversions between the two. *)

From Stdlib Require Import NArith ZArith QArith Qround Qabs Qreduction Bool List Lia Lqa.
From Stdlib Require Import Ascii String DecimalString DecimalZ DecimalPos.
Import ListNotations.

Open Scope Z_scope.

(** ** Numbers *)

Module Num.

Definition Qltb (a b : Q) : bool := negb (Qle_bool b a).
Definition Qleb (a b : Q) : bool := Qle_bool a b.

Definition add (a b : Q) : Q := Qred (a + b).
Definition sub (a b : Q) : Q := Qred (a - b).
Definition mul (a b : Q) : Q := Qred (a * b).
Definition ofZ (z : Z) : Q := inject_Z z.

(** Python [x // d] on a float followed by [int(...)]. *)
Definition floordiv (a : Q) (d : Z) : Z := Qfloor (a / inject_Z d).

End Num.

Import Num.

(** ** Constants of the game *)

Definition Color : Type := (Z * Z * Z)%type.

Definition WHITE : Color := (255, 255, 255).
Definition GRASS_GREEN : Color := (50, 205, 50).
Definition ROAD_GRAY : Color := (80, 80, 80).
Definition WATER_BLUE : Color := (30, 144, 255).
Definition RED : Color := (255, 0, 0).
Definition YELLOW : Color := (255, 255, 0).
Definition PURPLE : Color := (128, 0, 128).
Definition ORANGE : Color := (255, 165, 0).

Definition SCREEN_WIDTH : Z := 800.
Definition SCREEN_HEIGHT : Z := 600.
Definition GRID_SIZE : Z := 50.
Definition PLAYER_SIZE : Z := 40.
Definition VEHICLE_MIN_SPEED : Z := 2.
Definition VEHICLE_MAX_SPEED : Z := 6.
Definition LOG_MIN_SPEED : Z := 1.
Definition LOG_MAX_SPEED : Z := 3.

(** ** The environment: random source and high-score file *)

(** The text of a file as [f.read()] returns it: the [str] of its Unicode
    code points. *)
Definition Text : Type := list N.

(** [open('highscore.txt', ...)]: [file_text] is the text of the file, [None]
    when it cannot be opened for reading or read as text; [write_ok] tells
    whether opening it for writing succeeds. *)
Record Disk : Type := mkDisk {
  file_text : option Text;
  write_ok : bool
}.

Record Env : Type := mkEnv {
  rsrc : nat -> Q;
  rpos : nat;
  disk : Disk
}.

(** A computation that reads and advances the environment. *)
Definition M (A : Type) : Type := Env -> A * Env.

Definition ret {A} (a : A) : M A := fun e => (a, e).

Definition bind {A B} (m : M A) (k : A -> M B) : M B :=
  fun e => let (a, e') := m e in k a e'.

Notation "x <- m ;; k" := (bind m (fun x => k))
  (at level 61, m at next level, right associativity).

Fixpoint mapM {A B} (f : A -> M B) (l : list A) : M (list B) :=
  match l with
  | [] => ret []
  | a :: l' => b <- f a ;; bs <- mapM f l' ;; ret (b :: bs)
  end.

Fixpoint repeatM {A} (n : nat) (m : M A) : M (list A) :=
  match n with
  | O => ret []
  | S n' => a <- m ;; l <- repeatM n' m ;; ret (a :: l)
  end.

Module Random.

(** The fractional part: every element of the sequence is read as a number
    of [0, 1), as [random.random()] returns. *)
Definition unit_interval (q : Q) : Q := Qred (q - inject_Z (Qfloor q)).

Definition random : M Q :=
  fun e => (unit_interval (rsrc e (rpos e)),
            mkEnv (rsrc e) (S (rpos e)) (disk e)).

(** [random.uniform(a, b)] is [a + (b - a) * random()]. *)
Definition uniform (a b : Z) : M Q :=
  u <- random ;; ret (add (ofZ a) (mul (ofZ (b - a)) u)).

(** [random.randint(a, b)]: an integer of [a, b], both ends included. *)
Definition randint (a b : Z) : M Z :=
  u <- random ;; ret (a + Qfloor (mul (ofZ (b - a + 1)) u)).

(** [random.choice(seq)] for a non-empty [seq] with head [d]. *)
Definition choice {A} (d : A) (l : list A) : M A :=
  u <- random ;;
  ret (nth (Z.to_nat (Qfloor (mul (ofZ (Z.of_nat (List.length l))) u))) l d).

Fixpoint accumulate (acc : Z) (ws : list Z) : list Z :=
  match ws with
  | [] => []
  | w :: ws' => (acc + w) :: accumulate (acc + w) ws'
  end.

(** [bisect.bisect(cum, x, 0, hi)]: the number of entries among the first
    [hi] that are at most [x], for a non-decreasing [cum]. *)
Fixpoint bisect (cum : list Z) (x : Q) (hi : nat) : nat :=
  match hi, cum with
  | S hi', c :: cum' =>
      if Qleb (ofZ c) x then S (bisect cum' x hi') else O
  | _, _ => O
  end.

Definition pick {A} (d : A) (population : list A) (weights : list Z) (u : Q) : A :=
  let cum := accumulate 0 weights in
  let total := last cum 0 in
  nth (bisect cum (mul u (ofZ total)) (List.length population - 1)) population d.

(** [random.choices(population, weights=weights, k=1)[0]]. *)
Definition choices {A} (d : A) (population : list A) (weights : list Z) : M A :=
  u <- random ;; ret (pick d population weights u).

End Random.

(** ** Player controller *)

Module Player.

(** The attributes [size], [color] and [speed] of the class are constants
    that no method assigns after construction; they are left out. *)
Record t : Type := mk {
  x : Q;
  y : Q;
  gridX : Z;
  gridY : Z;
  targetX : Z;
  targetY : Z;
  moving : bool;
  dead : bool;
  moveCooldown : Z
}.

(** [Player.__init__(x, y)], called with integer coordinates. *)
Definition init (x0 y0 : Z) : t :=
  mk (ofZ x0) (ofZ y0) (x0 / GRID_SIZE) (y0 / GRID_SIZE) x0 y0 false false 0.

(** The guard of [move]: the request is dropped when it holds. *)
Definition busy (p : t) : bool :=
  moving p || dead p || (0 <? moveCooldown p).

Definition move (p : t) (dx dy : Z) : t :=
  if busy p then p
  else
    let gx := gridX p + dx in
    let gy := gridY p + dy in
    let tx := gx * GRID_SIZE + GRID_SIZE / 2 in
    let ty := gy * GRID_SIZE + GRID_SIZE / 2 in
    let gx' := Z.max 0 (Z.min (SCREEN_WIDTH / GRID_SIZE - 1) gx) in
    let tx' := Z.max (GRID_SIZE / 2) (Z.min (SCREEN_WIDTH - GRID_SIZE / 2) tx) in
    mk (x p) (y p) gx' gy tx' ty true (dead p) 5.

Definition update (p : t) : t :=
  let cd := if 0 <? moveCooldown p then moveCooldown p - 1 else moveCooldown p in
  if moving p then
    let dx := sub (ofZ (targetX p)) (x p) in
    let dy := sub (ofZ (targetY p)) (y p) in
    if Qltb (Qabs dx) 2 && Qltb (Qabs dy) 2 then
      mk (ofZ (targetX p)) (ofZ (targetY p)) (gridX p) (gridY p)
         (targetX p) (targetY p) false (dead p) cd
    else
      mk (add (x p) (mul dx (3 # 10))) (add (y p) (mul dy (3 # 10)))
         (gridX p) (gridY p) (targetX p) (targetY p) true (dead p) cd
  else
    mk (x p) (y p) (gridX p) (gridY p) (targetX p) (targetY p)
       false (dead p) cd.

Definition die (p : t) : t :=
  mk (x p) (y p) (gridX p) (gridY p) (targetX p) (targetY p)
     (moving p) true (moveCooldown p).

(** The two assignments of [Game.checkCollisions] when a log carries the
    player: [x += speed] and [gridX = int(x // GRID_SIZE)]. *)
Definition carried (p : t) (speed : Q) : t :=
  let x' := add (x p) speed in
  mk x' (y p) (floordiv x' GRID_SIZE) (gridY p) (targetX p) (targetY p)
     (moving p) (dead p) (moveCooldown p).

(** The level-skip hotkey: [gridY -= 10]. *)
Definition skip (p : t) : t :=
  mk (x p) (y p) (gridX p) (gridY p - 10) (targetX p) (targetY p)
     (moving p) (dead p) (moveCooldown p).

(** *** Notions for the properties *)

(** What the player does between two frames: a move request or [update]. *)
Inductive action : Type :=
  | Move (dx dy : Z)
  | Tick.

Definition step (p : t) (a : action) : t :=
  match a with
  | Move dx dy => move p dx dy
  | Tick => update p
  end.

(** The states the player goes through, the first one left out. *)
Fixpoint trace (p : t) (acts : list action) : list t :=
  match acts with
  | [] => []
  | a :: acts' => step p a :: trace (step p a) acts'
  end.

(** The player with the [moving] flag set to [b]. *)
Definition set_moving (p : t) (b : bool) : t :=
  mk (x p) (y p) (gridX p) (gridY p) (targetX p) (targetY p) b (dead p)
     (moveCooldown p).

(** [gridX] is one of the columns of the screen. *)
Definition in_columns (p : t) : Prop :=
  0 <= gridX p <= SCREEN_WIDTH / GRID_SIZE - 1.

End Player.

(** ** Obstacles: vehicles and logs *)

Module Obstacle.

Inductive kind : Type := Vehicle | Log.

Record t : Type := mk {
  cls : kind;
  x : Q;
  y : Z;
  speed : Q;
  width : Z;
  height : Z;
  color : Color
}.

(** [Vehicle.__init__(x, y, speed)]. *)
Definition vehicle (x0 y0 : Z) (s : Q) : M t :=
  w <- Random.randint 60 100 ;;
  c <- Random.choice RED [RED; ORANGE; PURPLE; WHITE; YELLOW] ;;
  ret (mk Vehicle (ofZ x0) y0 s w 30 c).

(** [Log.__init__(x, y, speed)]. *)
Definition log (x0 y0 : Z) (s : Q) : M t :=
  w <- Random.randint 100 180 ;;
  ret (mk Log (ofZ x0) y0 s w 35 (139, 69, 19)).

(** [Vehicle.update] and [Log.update]: [x += speed]. *)
Definition update (o : t) : t :=
  mk (cls o) (add (x o) (speed o)) (y o) (speed o) (width o) (height o) (color o).

End Obstacle.

(** ** Particles *)

Module Particle.

Record t : Type := mk {
  x : Q;
  y : Q;
  vx : Q;
  vy : Q;
  color : Color;
  lifetime : Z;
  size : Z
}.

Definition init (x0 y0 : Q) (c : Color) : M t :=
  vx0 <- Random.uniform (-5) 5 ;;
  vy0 <- Random.uniform (-8) (-2) ;;
  sz <- Random.randint 3 8 ;;
  ret (mk x0 y0 vx0 vy0 c 30 sz).

Definition update (p : t) : t :=
  mk (add (x p) (vx p)) (add (y p) (vy p)) (vx p) (add (vy p) (1 # 2))
     (color p) (lifetime p - 1) (size p).

End Particle.

(** ** Lanes *)

Inductive LaneType : Type := grass | road | water.

Definition LaneType_eqb (a b : LaneType) : bool :=
  match a, b with
  | grass, grass | road, road | water, water => true
  | _, _ => false
  end.

Module Lane.

(** One record for the three classes [GrassLane], [RoadLane], [WaterLane]:
    the class of a lane is its [type] tag.  [flowers] is empty on road and
    water lanes; [direction] and [difficultyMultiplier], which a grass lane
    does not have, are zero there. *)
Record t : Type := mk {
  y : Z;
  type : LaneType;
  obstacles : list Obstacle.t;
  spawnTimer : Z;
  spawnInterval : Z;
  color : Color;
  flowers : list (Z * Color);
  direction : Z;
  difficultyMultiplier : Q
}.

Definition flower : M (Z * Color) :=
  fx <- Random.randint 0 SCREEN_WIDTH ;;
  fc <- Random.choice YELLOW [YELLOW; WHITE; PURPLE] ;;
  ret (fx, fc).

Definition GrassLane (y0 : Z) : M t :=
  n <- Random.randint 0 3 ;;
  fl <- repeatM (Z.to_nat n) flower ;;
  ret (mk y0 grass [] 0 60 GRASS_GREEN fl 0 0).

Definition RoadLane (y0 : Z) (mult : Q) : M t :=
  d <- Random.choice (-1) [-1; 1] ;;
  si <- Random.randint 40 80 ;;
  ret (mk y0 road [] 0 si ROAD_GRAY [] d mult).

Definition WaterLane (y0 : Z) (mult : Q) : M t :=
  d <- Random.choice (-1) [-1; 1] ;;
  si <- Random.randint 60 100 ;;
  ret (mk y0 water [] 0 si WATER_BLUE [] d mult).

Definition with_obstacles (l : t) (timer : Z) (obs : list Obstacle.t) : t :=
  mk (y l) (type l) obs timer (spawnInterval l) (color l) (flowers l)
     (direction l) (difficultyMultiplier l).

(** The second half of [RoadLane.update] and [WaterLane.update]: move every
    obstacle, then drop those beyond [margin] pixels off either side. *)
Definition advance (margin : Z) (obs : list Obstacle.t) : list Obstacle.t :=
  filter
    (fun o => negb (Qltb (Obstacle.x o) (ofZ (- margin))
                    || Qltb (ofZ (SCREEN_WIDTH + margin)) (Obstacle.x o)))
    (map Obstacle.update obs).

Definition update_road (l : t) : M t :=
  let timer := spawnTimer l + 1 in
  if spawnInterval l <=? timer then
    u <- Random.uniform VEHICLE_MIN_SPEED VEHICLE_MAX_SPEED ;;
    let speed := mul u (difficultyMultiplier l) in
    let x0 := if direction l =? 1 then -50 else SCREEN_WIDTH + 50 in
    v <- Obstacle.vehicle x0 (y l) (mul speed (ofZ (direction l))) ;;
    ret (with_obstacles l 0 (advance 100 (obstacles l ++ [v])))
  else
    ret (with_obstacles l timer (advance 100 (obstacles l))).

Definition update_water (l : t) : M t :=
  let timer := spawnTimer l + 1 in
  if spawnInterval l <=? timer then
    u <- Random.uniform LOG_MIN_SPEED LOG_MAX_SPEED ;;
    let speed := mul u (difficultyMultiplier l) in
    let x0 := if direction l =? 1 then -100 else SCREEN_WIDTH + 100 in
    o <- Obstacle.log x0 (y l) (mul speed (ofZ (direction l))) ;;
    ret (with_obstacles l 0 (advance 200 (obstacles l ++ [o])))
  else
    ret (with_obstacles l timer (advance 200 (obstacles l))).

(** [lane.update()], dispatched on the class of the lane; the base-class
    method, which a grass lane inherits, does nothing. *)
Definition update (l : t) : M t :=
  match type l with
  | grass => ret l
  | road => update_road l
  | water => update_water l
  end.

(** The constructor call selected by the drawn lane type. *)
Definition make (ty : LaneType) (y0 : Z) (mult : Q) : M t :=
  match ty with
  | grass => GrassLane y0
  | road => RoadLane y0 mult
  | water => WaterLane y0 mult
  end.

End Lane.

(** ** Text of an integer: Python's [str] and [int] *)

Module PyInt.

Open Scope char_scope.

(** The limit of CPython 3.11 on the number of digits in a conversion
    between [int] and [str] ([sys.get_int_max_str_digits()], 4300 unless
    the program changes it, which this one does not): beyond it both
    [str(n)] and [int(s)] raise [ValueError]. *)
Definition MAX_STR_DIGITS : nat := 4300.

Definition is_digit (c : ascii) : bool :=
  let n := nat_of_ascii c in ((48 <=? n) && (n <=? 57))%nat.

(** The number of digits of a numeral, sign and separators apart. *)
Definition count_digits (s : string) : nat :=
  List.length (filter is_digit (list_ascii_of_string s)).

(** [str(n)]: decimal digits, a leading minus sign when negative; [None]
    stands for the [ValueError] of a numeral beyond the limit. *)
Definition str (n : Z) : option string :=
  let s := NilZero.string_of_int (Z.to_int n) in
  if (MAX_STR_DIGITS <? count_digits s)%nat then None else Some s.

(** The characters that [int] skips around the number: tab, line feed,
    vertical tab, form feed, carriage return and space. *)
Definition is_space (c : ascii) : bool :=
  let n := nat_of_ascii c in ((9 <=? n) && (n <=? 13) || (n =? 32))%nat.

Fixpoint lstrip (s : string) : string :=
  match s with
  | String c s' => if is_space c then lstrip s' else s
  | EmptyString => EmptyString
  end.

Fixpoint rstrip (s : string) : string :=
  match s with
  | String c s' =>
      match rstrip s' with
      | EmptyString => if is_space c then EmptyString else String c EmptyString
      | r => String c r
      end
  | EmptyString => EmptyString
  end.

Definition strip (s : string) : string := rstrip (lstrip s).

(** Removal of the digit separators: an underscore is accepted only
    between two digits; [after_digit] tells whether the previous character
    was a digit. *)
Fixpoint ungroup (after_digit : bool) (s : string) : option string :=
  match s with
  | EmptyString => if after_digit then Some EmptyString else None
  | String c s' =>
      if is_digit c then option_map (String c) (ungroup true s')
      else if Ascii.eqb c "_" then
        if after_digit then ungroup false s' else None
      else None
  end.

(** The value of the digits, refused beyond the limit, leading zeros
    counted. *)
Definition magnitude (s : string) : option Z :=
  match ungroup false s with
  | Some ds =>
      if (MAX_STR_DIGITS <? String.length ds)%nat then None
      else option_map Z.of_uint (NilEmpty.uint_of_string ds)
  | None => None
  end.

(** [int(s)] in base ten on ASCII text; [None] stands for [ValueError]. *)
Definition int (s : string) : option Z :=
  match strip s with
  | EmptyString => None
  | String c s' =>
      if Ascii.eqb c "-" then option_map Z.opp (magnitude s')
      else if Ascii.eqb c "+" then magnitude s'
      else magnitude (String c s')
  end.

(** *** Text beyond ASCII

    [int] of a [str] first rewrites the text over ASCII: a code point
    below 127 stays, a Unicode blank becomes a space, a Unicode decimal
    digit becomes the ASCII digit of its value, and the text is cut with a
    question mark at the first code point that is none of these.  A text
    that is all ASCII is taken as it is. *)

(** The code points from 127 on with [str.isspace()] (Unicode 14). *)
Definition unicode_spaces : list N :=
  [
   133; 160; 5760; 8192; 8193; 8194; 8195; 8196; 8197; 8198; 8199; 8200;
   8201; 8202; 8232; 8233; 8239; 8287; 12288
  ]%N.

(** The code point of the digit zero of each script of decimal digits
    beyond ASCII (Unicode 14); the nine code points after it are the digits
    one to nine. *)
Definition unicode_zeros : list N :=
  [
   1632; 1776; 1984; 2406; 2534; 2662; 2790; 2918; 3046; 3174; 3302; 3430;
   3558; 3664; 3792; 3872; 4160; 4240; 6112; 6160; 6470; 6608; 6784; 6800;
   6992; 7088; 7232; 7248; 42528; 43216; 43264; 43472; 43504; 43600; 44016;
   65296; 66720; 68912; 69734; 69872; 69942; 70096; 70384; 70736; 70864;
   71248; 71360; 71472; 71904; 72016; 72784; 73040; 73120; 92768; 92864;
   93008; 120782; 120792; 120802; 120812; 120822; 123200; 123632; 125264;
   130032
  ]%N.

Definition is_unicode_space (c : N) : bool := existsb (N.eqb c) unicode_spaces.

Definition unicode_decimal (c : N) : option N :=
  option_map (fun z => c - z)%N
             (find (fun z => (z <=? c) && (c <? z + 10))%N unicode_zeros).

Fixpoint transform (t : Text) : string :=
  match t with
  | [] => EmptyString
  | c :: t' =>
      if (c <? 127)%N then String (ascii_of_N c) (transform t')
      else if is_unicode_space c then String " " (transform t')
      else
        match unicode_decimal c with
        | Some d => String (ascii_of_N (48 + d)) (transform t')
        | None => String "?" EmptyString
        end
  end.

Definition to_ascii (t : Text) : string :=
  if forallb (fun c => c <? 128)%N t
  then string_of_list_ascii (map ascii_of_N t)
  else transform t.

(** The text of an ASCII string, as it is read back from a file. *)
Definition text_of (s : string) : Text :=
  map N_of_ascii (list_ascii_of_string s).

(** [int(s)] on the text of a file. *)
Definition int_text (t : Text) : option Z := int (to_ascii t).

(** *** Notions for the properties *)

(** A text made of decimal digits only. *)
Definition digits (s : string) : Prop :=
  Forall (fun c => is_digit c = true) (list_ascii_of_string s).

End PyInt.

(** ** The game *)

Inductive Key : Type :=
  | K_SPACE | K_UP | K_w | K_DOWN | K_s | K_LEFT | K_a | K_RIGHT | K_d
  | K_k | K_l | K_ESCAPE | K_other.

Inductive Event : Type :=
  | QUIT
  | KEYDOWN (key : Key)
  | OTHER.

Module Game.

(** The attributes [screen] and [clock] belong to the display collaborator
    and are left out. *)
Record t : Type := mk {
  startScreen : bool;
  playing : bool;
  gameOver : bool;
  score : Z;
  highScore : Z;
  bestProgress : Z;
  cameraY : Q;
  player : Player.t;
  lanes : list Lane.t;
  particles : list Particle.t;
  difficultyMultiplier : Q;
  deathAnimationTimer : Z;
  flashTimer : Z
}.

Definition set_player (g : t) (p : Player.t) : t :=
  mk (startScreen g) (playing g) (gameOver g) (score g) (highScore g)
     (bestProgress g) (cameraY g) p (lanes g) (particles g)
     (difficultyMultiplier g) (deathAnimationTimer g) (flashTimer g).

Definition set_cameraY (g : t) (c : Q) : t :=
  mk (startScreen g) (playing g) (gameOver g) (score g) (highScore g)
     (bestProgress g) c (player g) (lanes g) (particles g)
     (difficultyMultiplier g) (deathAnimationTimer g) (flashTimer g).

Definition set_lanes (g : t) (ls : list Lane.t) : t :=
  mk (startScreen g) (playing g) (gameOver g) (score g) (highScore g)
     (bestProgress g) (cameraY g) (player g) ls (particles g)
     (difficultyMultiplier g) (deathAnimationTimer g) (flashTimer g).

Definition set_particles (g : t) (ps : list Particle.t) : t :=
  mk (startScreen g) (playing g) (gameOver g) (score g) (highScore g)
     (bestProgress g) (cameraY g) (player g) (lanes g) ps
     (difficultyMultiplier g) (deathAnimationTimer g) (flashTimer g).

Definition set_deathAnimationTimer (g : t) (n : Z) : t :=
  mk (startScreen g) (playing g) (gameOver g) (score g) (highScore g)
     (bestProgress g) (cameraY g) (player g) (lanes g) (particles g)
     (difficultyMultiplier g) n (flashTimer g).

(** *** High-score file *)

Definition loadHighScore : M Z :=
  fun e =>
    match file_text (disk e) with
    | Some s =>
        match PyInt.int_text s with
        | Some n => (n, e)
        | None => (0, e)
        end
    | None => (0, e)
    end.

(** [open(..., 'w')] empties the file before [str(self.highScore)] is
    evaluated: when [str] raises, the file stays empty and the bare
    [except] swallows the error. *)
Definition saveHighScore (g : t) : M unit :=
  fun e =>
    if write_ok (disk e) then
      let text := match PyInt.str (highScore g) with
                  | Some s => PyInt.text_of s
                  | None => []
                  end in
      (tt, mkEnv (rsrc e) (rpos e) (mkDisk (Some text) (write_ok (disk e))))
    else (tt, e).

(** *** Lane field *)

Definition range (n : nat) : list Z := map Z.of_nat (seq 0 n).

Definition lane_types : list LaneType := [grass; road; water].

Definition initializeLanes (mult : Q) : M (list Lane.t) :=
  safe <- mapM (fun i => Lane.GrassLane (SCREEN_HEIGHT - i * GRID_SIZE))
               (range 3) ;;
  more <- mapM (fun i =>
                  ty <- Random.choices grass lane_types [2; 3; 2] ;;
                  Lane.make ty (SCREEN_HEIGHT - (i + 3) * GRID_SIZE) mult)
               (range 20) ;;
  ret (safe ++ more).

(** [Game.__init__]. *)
Definition init : M t :=
  hs <- loadHighScore ;;
  ls <- initializeLanes 1 ;;
  ret (mk true false false 0 hs 0 0
          (Player.init (SCREEN_WIDTH / 2) (SCREEN_HEIGHT - GRID_SIZE * 2))
          ls [] 1 0 0).

Definition restart (g : t) : M t :=
  ls <- initializeLanes 1 ;;
  ret (mk false true false 0 (highScore g) 0 0
          (Player.init (SCREEN_WIDTH / 2) (SCREEN_HEIGHT - GRID_SIZE * 2))
          ls [] 1 0 (flashTimer g)).

(** [self.lanes[-3:]] when there are at least three lanes, else []. *)
Definition recentLanes (ls : list Lane.t) : list LaneType :=
  if (3 <=? List.length ls)%nat
  then map Lane.type (skipn (List.length ls - 3) ls)
  else [].

Definition count (ty : LaneType) (l : list LaneType) : Z :=
  Z.of_nat (List.length (filter (LaneType_eqb ty) l)).

(** The weights of grass, road and water for the next draw. *)
Definition laneWeights (ls : list Lane.t) : list Z :=
  let recent := recentLanes ls in
  [2; if 2 <=? count road recent then 1 else 3;
      if 2 <=? count water recent then 1 else 2].

(** The loop of [generateNewLanes]; it leaves on its own test before
    [fuel] runs out (see [LaneFieldFacts.generate_fuel_enough]). *)
Fixpoint generate_loop (fuel : nat) (cam mult : Q) (highestY : Z)
         (ls : list Lane.t) : M (list Lane.t) :=
  match fuel with
  | O => ret ls
  | S fuel' =>
      if Qltb (sub cam (ofZ (GRID_SIZE * 5))) (ofZ highestY) then
        let newY := highestY - GRID_SIZE in
        ty <- Random.choices grass lane_types (laneWeights ls) ;;
        l <- Lane.make ty newY mult ;;
        generate_loop fuel' cam mult newY (ls ++ [l])
      else ret ls
  end.

Definition highest (ls : list Lane.t) : Z :=
  match ls with
  | [] => 0
  | l :: ls' => fold_left Z.min (map Lane.y ls') (Lane.y l)
  end.

Definition generate_fuel (cam : Q) (highestY : Z) : nat :=
  Z.to_nat (Qceiling ((ofZ highestY - (cam - ofZ (GRID_SIZE * 5)))
                      / ofZ GRID_SIZE)).

Definition generateNewLanes (g : t) : M t :=
  let h := highest (lanes g) in
  ls <- generate_loop (generate_fuel (cameraY g) h) (cameraY g)
                      (difficultyMultiplier g) h (lanes g) ;;
  ret (set_lanes g ls).

Definition cleanupOldLanes (g : t) : t :=
  let cleanupY := add (cameraY g) (ofZ (SCREEN_HEIGHT + GRID_SIZE * 3)) in
  set_lanes g (filter (fun l => Qltb (ofZ (Lane.y l)) cleanupY) (lanes g)).

(** *** Camera *)

Definition updateCamera (g : t) : t :=
  let targetCameraY :=
    sub (Player.y (player g)) (Qred (ofZ (SCREEN_HEIGHT * 2) / 3)) in
  if Qltb targetCameraY (cameraY g) then set_cameraY g targetCameraY else g.

(** *** Collision engine *)

Definition in_lane (y : Q) (l : Lane.t) : bool :=
  let laneTop := ofZ (Lane.y l) in
  let laneBottom := ofZ (Lane.y l + GRID_SIZE) in
  Qleb laneTop y && Qleb y laneBottom.

Definition getLaneAtY (g : t) (y : Q) : option Lane.t :=
  find (in_lane y) (lanes g).

Definition checkVehicleCollision (g : t) (vehicle : Obstacle.t) : bool :=
  let playerCenterX := Player.x (player g) in
  let playerCenterY := Player.y (player g) in
  let hitboxPadding := 5 in
  let vehicleLeft := sub (Obstacle.x vehicle) (ofZ hitboxPadding) in
  let vehicleRight :=
    add (add (Obstacle.x vehicle) (ofZ (Obstacle.width vehicle)))
        (ofZ hitboxPadding) in
  let vehicleTop := ofZ (Obstacle.y vehicle - hitboxPadding) in
  let vehicleBottom :=
    ofZ (Obstacle.y vehicle + Obstacle.height vehicle + hitboxPadding) in
  let playerRadius := PLAYER_SIZE / 2 - 5 in
  let playerLeft := sub playerCenterX (ofZ playerRadius) in
  let playerRight := add playerCenterX (ofZ playerRadius) in
  let playerTop := sub playerCenterY (ofZ playerRadius) in
  let playerBottom := add playerCenterY (ofZ playerRadius) in
  Qltb vehicleLeft playerRight && Qltb playerLeft vehicleRight
  && Qltb vehicleTop playerBottom && Qltb playerTop vehicleBottom.

Definition checkLogCollision (g : t) (log : Obstacle.t) : bool :=
  let playerCenterX := Player.x (player g) in
  let playerCenterY := Player.y (player g) in
  let logLeft := Obstacle.x log in
  let logRight := add (Obstacle.x log) (ofZ (Obstacle.width log)) in
  let logTop := ofZ (Obstacle.y log) in
  let logBottom := ofZ (Obstacle.y log + Obstacle.height log) in
  Qleb logLeft playerCenterX && Qleb playerCenterX logRight
  && Qleb logTop playerCenterY && Qleb playerCenterY logBottom.

Definition createDeathParticles (g : t) : M t :=
  ps <- repeatM 20 (Particle.init (Player.x (player g))
                                  (Player.y (player g)) RED) ;;
  ret (set_particles g (particles g ++ ps)).

(** [self.player.die()] followed by [self.createDeathParticles()]. *)
Definition kill (g : t) : M t :=
  createDeathParticles (set_player g (Player.die (player g))).

Definition off_edge (x : Q) : bool :=
  Qltb x (ofZ (PLAYER_SIZE / 2))
  || Qltb (ofZ (SCREEN_WIDTH - PLAYER_SIZE / 2)) x.

(** The resolution against the lane the player is on. *)
Definition resolve (g : t) (playerLane : Lane.t) : M t :=
  match Lane.type playerLane with
  | road =>
      if existsb (checkVehicleCollision g) (Lane.obstacles playerLane)
      then kill g else ret g
  | water =>
      match find (checkLogCollision g) (Lane.obstacles playerLane) with
      | Some logToRideOn =>
          let g' := set_player g (Player.carried (player g)
                                    (Obstacle.speed logToRideOn)) in
          if off_edge (Player.x (player g')) then kill g' else ret g'
      | None => kill g
      end
  | grass => ret g
  end.

Definition checkCollisions (g : t) : M t :=
  if Player.dead (player g) then ret g
  else
    match getLaneAtY g (Player.y (player g)) with
    | None => ret g
    | Some playerLane => resolve g playerLane
    end.

(** *** Session *)

Definition endGame (g : t) : M t :=
  let g1 := mk (startScreen g) false true (score g) (highScore g)
               (bestProgress g) (cameraY g) (player g) (lanes g)
               (particles g) (difficultyMultiplier g)
               (deathAnimationTimer g) (flashTimer g) in
  if score g1 >? highScore g1 then
    let g2 := mk (startScreen g1) (playing g1) (gameOver g1) (score g1)
                 (score g1) (bestProgress g1) (cameraY g1) (player g1)
                 (lanes g1) (particles g1) (difficultyMultiplier g1)
                 (deathAnimationTimer g1) (flashTimer g1) in
    _ <- saveHighScore g2 ;; ret g2
  else ret g1.

(** The steps of [update] that the source writes in line. *)

Definition updateLanes (g : t) : M t :=
  ls <- mapM Lane.update (lanes g) ;; ret (set_lanes g ls).

Definition updateProgress (g : t) : t :=
  if Player.gridY (player g) <? bestProgress g then
    let bp := Player.gridY (player g) in
    let sc := Z.abs bp * 10 in
    let dm := if Z.abs bp mod 10 =? 0
              then add (difficultyMultiplier g) (1 # 10)
              else difficultyMultiplier g in
    mk (startScreen g) (playing g) (gameOver g) sc (highScore g) bp
       (cameraY g) (player g) (lanes g) (particles g) dm
       (deathAnimationTimer g) (flashTimer g)
  else g.

Definition updateParticles (g : t) : t :=
  set_particles g
    (filter (fun p => negb (Particle.lifetime p <=? 0))
            (map Particle.update (particles g))).

Definition checkDeathZone (g : t) : t :=
  let deathZone := add (add (cameraY g) (ofZ SCREEN_HEIGHT)) (ofZ GRID_SIZE) in
  if Qltb deathZone (Player.y (player g))
  then set_player g (Player.die (player g)) else g.

Definition handleDeath (g : t) : M t :=
  if Player.dead (player g) then
    let g' := set_deathAnimationTimer g (deathAnimationTimer g + 1) in
    if deathAnimationTimer g' >? 60 then endGame g' else ret g'
  else ret g.

Definition update (g : t) : M t :=
  if negb (playing g) || gameOver g then ret g
  else
    let g1 := set_player g (Player.update (player g)) in
    let g2 := updateCamera g1 in
    g3 <- updateLanes g2 ;;
    let g4 := updateProgress g3 in
    g5 <- generateNewLanes g4 ;;
    let g6 := cleanupOldLanes g5 in
    g7 <- checkCollisions g6 ;;
    let g8 := updateParticles g7 in
    let g9 := checkDeathZone g8 in
    handleDeath g9.

(** *** Input *)

Definition on_player (g : t) (f : Player.t -> Player.t) : t :=
  set_player g (f (player g)).

(** The body of [handleEvents] for one [KEYDOWN] event, before the test
    for the escape key. *)
Definition keydown (g : t) (key : Key) : M t :=
  if startScreen g then
    match key with K_SPACE => restart g | _ => ret g end
  else if gameOver g then
    match key with K_SPACE => restart g | _ => ret g end
  else if playing g then
    match key with
    | K_UP | K_w => ret (on_player g (fun p => Player.move p 0 (-1)))
    | K_DOWN | K_s => ret (on_player g (fun p => Player.move p 0 1))
    | K_LEFT | K_a => ret (on_player g (fun p => Player.move p (-1) 0))
    | K_RIGHT | K_d => ret (on_player g (fun p => Player.move p 1 0))
    | K_k => ret (on_player g Player.die)
    | K_l => ret (on_player g Player.skip)
    | _ => ret g
    end
  else ret g.

Definition is_escape (key : Key) : bool :=
  match key with K_ESCAPE => true | _ => false end.

(** [handleEvents] on the queue [evs]; the Boolean is its return value. *)
Fixpoint handleEvents (g : t) (evs : list Event) : M (bool * t) :=
  match evs with
  | [] => ret (true, g)
  | QUIT :: _ => ret (false, g)
  | KEYDOWN key :: evs' =>
      g' <- keydown g key ;;
      if is_escape key then ret (false, g') else handleEvents g' evs'
  | OTHER :: evs' => handleEvents g evs'
  end.

(** One turn of the loop of [run], drawing apart: the events of the frame,
    then [update]. *)
Definition frame (g : t) (evs : list Event) : M (bool * t) :=
  r <- handleEvents g evs ;;
  g' <- update (snd r) ;;
  ret (fst r, g').

(** The loop of [run] over the event queues of successive frames; it stops
    after the frame in which [handleEvents] returned [False]. *)
Fixpoint run (g : t) (frames : list (list Event)) : M t :=
  match frames with
  | [] => ret g
  | evs :: frames' =>
      r <- frame g evs ;;
      if fst r then run (snd r) frames' else ret (snd r)
  end.

(** *** Notions for the properties *)

(** The session fields: all but the player, the lanes and the particles. *)
Definition session (g : t)
  : bool * bool * bool * Z * Z * Z * Q * Q * Z * Z :=
  (startScreen g, playing g, gameOver g, score g, highScore g,
   bestProgress g, cameraY g, difficultyMultiplier g, deathAnimationTimer g,
   flashTimer g).

Definition is_space (key : Key) : bool :=
  match key with K_SPACE => true | _ => false end.

(** The events of a frame do not contain the key that restarts the game. *)
Definition no_restart (evs : list Event) : bool :=
  forallb (fun ev => match ev with KEYDOWN key => negb (is_space key) | _ => true end)
          evs.

(** The game after [frames] turns of the loop, from a launch in [e]. *)
Definition reached (e : Env) (frames : list (list Event)) : t :=
  let (g, e0) := init e in fst (run g frames e0).

(** What holds of the score in every state of a session. *)
Definition progress_inv (g : t) : Prop :=
  score g = 10 * Z.abs (bestProgress g) /\ bestProgress g <= 0.

End Game.

(** ** The words of the specification *)

Module Spec.

(** The row interval [[y, y+CELL)] of a lane contains the coordinate. *)
Definition in_row (y : Q) (l : Lane.t) : bool :=
  Qleb (ofZ (Lane.y l)) y && Qltb y (ofZ (Lane.y l + GRID_SIZE)).

(** The lane-type sequence has three consecutive lanes of type [ty]. *)
Fixpoint three_in_a_row (ty : LaneType) (l : list LaneType) : bool :=
  match l with
  | a :: ((b :: c :: _) as l') =>
      (LaneType_eqb ty a && LaneType_eqb ty b && LaneType_eqb ty c)
      || three_in_a_row ty l'
  | _ => false
  end.

(** Never more than two consecutive road lanes nor water lanes. *)
Definition runs_bounded (l : list LaneType) : bool :=
  negb (three_in_a_row road l) && negb (three_in_a_row water l).

End Spec.

(** ** Concrete inputs *)

Module Scenario.

(** A number of the unit interval for which the weighted draw gives [ty]. *)
Definition draw_for (weights : list Z) (ty : LaneType) : Q :=
  let total := last (Random.accumulate 0 weights) 0 in
  match ty with
  | grass => 0
  | road => Qred (2 # Z.to_pos total)
  | water => Qred ((total - 1) # Z.to_pos total)
  end.

(** Random sources: a constant one, and one that changes value once. *)
Definition constant (u : Q) : Env := mkEnv (fun _ => u) 0 (mkDisk None true).

Definition switching (n : nat) (u v : Q) : Env :=
  mkEnv (fun k => if (k <? n)%nat then u else v) 0 (mkDisk None true).

(** The start key, then [n] hops up, each followed by eleven idle frames,
    which is enough for the hop to end and the cooldown to run out. *)
Definition hop_up : list (list Event) := [KEYDOWN K_UP] :: repeat [] 11.

Definition hops_up (n : nat) : list (list Event) :=
  [KEYDOWN K_SPACE] :: List.concat (repeat hop_up n).

(** The start key, [n] idle frames, then one hop up. *)
Definition wait_then_hop (n : nat) : list (list Event) :=
  ([KEYDOWN K_SPACE] :: repeat [] n) ++ [[KEYDOWN K_UP]].

(** A grass lane on the row 50. *)
Definition grass_below : Lane.t := Lane.mk 50 grass [] 0 60 GRASS_GREEN [] 0 0.

(** A launch with the text [text] in the high-score file. *)
Definition with_file (text : option Text) : Env :=
  mkEnv (fun _ => 0%Q) 0 (mkDisk text true).

End Scenario.

(** ** Further notions for the properties *)

Module Shape.

(** An event on which [handleEvents] returns [False]. *)
Definition is_quit (ev : Event) : bool :=
  match ev with
  | QUIT => true
  | KEYDOWN key => Game.is_escape key
  | OTHER => false
  end.

(** The events of a frame neither restart the game nor quit it. *)
Definition calm (evs : list Event) : bool :=
  Game.no_restart evs && negb (existsb is_quit evs).

(** Exactly one of the three state tags is set. *)
Definition one_state (g : Game.t) : Prop :=
  (Game.startScreen g = true /\ Game.playing g = false /\ Game.gameOver g = false) \/
  (Game.startScreen g = false /\ Game.playing g = true /\ Game.gameOver g = false) \/
  (Game.startScreen g = false /\ Game.playing g = false /\ Game.gameOver g = true).

(** The tags of a game that has left the start screen. *)
Definition in_session (g : Game.t) : Prop :=
  Game.startScreen g = false /\
  (Game.playing g = true /\ Game.gameOver g = false \/
   Game.playing g = false /\ Game.gameOver g = true).

(** [n] frames of the player alone. *)
Fixpoint updates (n : nat) (p : Player.t) : Player.t :=
  match n with
  | O => p
  | S n' => Player.update (updates n' p)
  end.

(** The player is at most [B] away from its target, in both directions. *)
Definition within (B : Q) (p : Player.t) : Prop :=
  (Qabs (inject_Z (Player.targetX p) - Player.x p) <= B)%Q /\
  (Qabs (inject_Z (Player.targetY p) - Player.y p) <= B)%Q.

(** The player is at rest on its target. *)
Definition on_target (p : Player.t) : Prop :=
  Player.moving p = false /\ Player.x p = ofZ (Player.targetX p) /\
  Player.y p = ofZ (Player.targetY p).

(** The player is at rest in the centre of its grid cell. *)
Definition centred (p : Player.t) : Prop :=
  Player.moving p = false /\
  Player.x p = ofZ (Player.gridX p * GRID_SIZE + GRID_SIZE / 2) /\
  Player.y p = ofZ (Player.gridY p * GRID_SIZE + GRID_SIZE / 2).

(** [q] has the cell, the target and the life of [p]. *)
Definition same_cell (p q : Player.t) : Prop :=
  Player.gridX q = Player.gridX p /\ Player.gridY q = Player.gridY p /\
  Player.targetX q = Player.targetX p /\
  Player.targetY q = Player.targetY p /\ Player.dead q = Player.dead p.

(** A bound after [n] frames of a hop: seven tenths of it remain each time. *)
Fixpoint shrink (n : nat) (B : Q) : Q :=
  match n with
  | O => B
  | S n' => shrink n' B * (7 # 10)
  end.

(** What a lane class promises of its traffic: the class of the obstacles,
    their height, the bounds of their width, how far off screen they may
    be, the bounds of the base speed and of the spawn interval. *)
Record traffic : Type := mkTraffic {
  t_kind : Obstacle.kind;
  t_height : Z;
  t_wmin : Z;
  t_wmax : Z;
  t_margin : Z;
  t_vmin : Z;
  t_vmax : Z;
  t_imin : Z;
  t_imax : Z
}.

Definition vehicles : traffic :=
  mkTraffic Obstacle.Vehicle 30 60 100 100
            VEHICLE_MIN_SPEED VEHICLE_MAX_SPEED 40 80.

Definition logs : traffic :=
  mkTraffic Obstacle.Log 35 100 180 200 LOG_MIN_SPEED LOG_MAX_SPEED 60 100.

(** The obstacle is of the lane's class, on the lane's row, of the size the
    class allows. *)
Definition obstacle_shape (l : Lane.t) (k : traffic) (o : Obstacle.t) : Prop :=
  Obstacle.cls o = t_kind k /\ Obstacle.y o = Lane.y l /\
  Obstacle.height o = t_height k /\
  t_wmin k <= Obstacle.width o <= t_wmax k.

(** The obstacle moves in the direction of its lane, at a base speed of the
    class scaled by the difficulty that the lane captured. *)
Definition obstacle_speed (l : Lane.t) (k : traffic) (o : Obstacle.t) : Prop :=
  (inject_Z (t_vmin k) * Lane.difficultyMultiplier l
   <= Obstacle.speed o * inject_Z (Lane.direction l)
   <= inject_Z (t_vmax k) * Lane.difficultyMultiplier l)%Q.

(** The obstacle is not further off screen than the margin of its class. *)
Definition obstacle_in_range (k : traffic) (o : Obstacle.t) : Prop :=
  (inject_Z (- t_margin k) <= Obstacle.x o
   <= inject_Z (SCREEN_WIDTH + t_margin k))%Q.

(** Direction, spawn interval and spawn timer of a lane with traffic. *)
Definition lane_timing (l : Lane.t) (k : traffic) : Prop :=
  (Lane.direction l = 1 \/ Lane.direction l = -1) /\
  t_imin k <= Lane.spawnInterval l <= t_imax k /\
  0 <= Lane.spawnTimer l < Lane.spawnInterval l.

Definition traffic_ok (l : Lane.t) (k : traffic) : Prop :=
  lane_timing l k /\ (1 <= Lane.difficultyMultiplier l)%Q /\
  Forall (fun o => obstacle_shape l k o /\ obstacle_speed l k o /\
                   obstacle_in_range k o)
         (Lane.obstacles l).

Definition lane_ok (l : Lane.t) : Prop :=
  match Lane.type l with
  | grass => Lane.obstacles l = []
  | road => traffic_ok l vehicles
  | water => traffic_ok l logs
  end.

Definition field_ok (g : Game.t) : Prop :=
  (1 <= Game.difficultyMultiplier g)%Q /\ Forall lane_ok (Game.lanes g).

(** The rows of the lane field, in the order of the lane list. *)
Definition rows (g : Game.t) : list Z := map Lane.y (Game.lanes g).

(** Each row of the list is one cell above the row before it. *)
Fixpoint stepping_up (l : list Z) : Prop :=
  match l with
  | a :: ((b :: _) as l') => b = a - GRID_SIZE /\ stepping_up l'
  | _ => True
  end.

(** The lane field spans the screen: its rows step up one cell at a time
    from a first row at, or at most one cell above, the lower cleanup line
    (or the bottom row 600 of the initial field) to a last row 250 pixels
    or more above the camera, which is never below its starting point. *)
Definition field_spans (g : Game.t) : Prop :=
  (Game.cameraY g <= 0)%Q /\
  stepping_up (rows g) /\ rows g <> [] /\
  (inject_Z (last (rows g) 0%Z) <= Game.cameraY g - 250)%Q /\
  (hd 0 (rows g) = SCREEN_HEIGHT \/
   (Game.cameraY g + 700 <= inject_Z (hd 0%Z (rows g)))%Q).

(** The particles are those of at most one death burst. *)
Definition burst_ok (g : Game.t) : Prop :=
  (Player.dead (Game.player g) = false -> Game.particles g = []) /\
  (List.length (Game.particles g) <= 20)%nat /\
  Forall (fun p => 0 < Particle.lifetime p <= 30) (Game.particles g).

(** The value [targetCameraY] of [updateCamera]. *)
Definition camera_target (g : Game.t) : Q :=
  sub (Player.y (Game.player g)) (Qred (ofZ (SCREEN_HEIGHT * 2) / 3)).

(** The value [deathZone] of [update]. *)
Definition death_zone (g : Game.t) : Q :=
  add (add (Game.cameraY g) (ofZ SCREEN_HEIGHT)) (ofZ GRID_SIZE).

(** The camera is not below its target, and a live player is within the
    screen: the tests of [updateCamera], of the death zone and of the
    screen edges are all false. *)
Definition on_screen (g : Game.t) : Prop :=
  (Game.cameraY g <= camera_target g)%Q /\
  (Player.dead (Game.player g) = false ->
   (Player.y (Game.player g) <= death_zone g)%Q /\
   (20 <= Player.x (Game.player g) <= 780)%Q /\
   0 <= Player.gridX (Game.player g) <= 15 /\
   25 <= Player.targetX (Game.player g) <= 775).

End Shape.

(** ** The frame around collision resolution *)

Module Frame.

Import Game.

(** The steps of [update] before the call of [checkCollisions]. *)
Definition beforeCollisions (g : t) : M t :=
  let g1 := set_player g (Player.update (player g)) in
  let g2 := updateCamera g1 in
  g3 <- updateLanes g2 ;;
  let g4 := updateProgress g3 in
  g5 <- generateNewLanes g4 ;;
  ret (cleanupOldLanes g5).

(** The steps of [update] after it. *)
Definition afterCollisions (g : t) : M t :=
  handleDeath (checkDeathZone (updateParticles g)).

(** The state and the environment on which [update] calls
    [checkCollisions] in the frame with the events [evs] that follows the
    frames [frames] of a launch in [e]; [None] when the game is not in play
    in that frame and [update] returns at once. *)
Definition collision_frame (e : Env) (frames : list (list Event))
           (evs : list Event) : option (t * Env) :=
  let (g0, e0) := init e in
  let (g, e1) := run g0 frames e0 in
  let (r, e2) := handleEvents g evs e1 in
  if negb (playing (snd r)) || gameOver (snd r) then None
  else Some (beforeCollisions (snd r) e2).

(** The lanes at or below the bottom of the screen at the start are
    grass. *)
Definition low_grass (l : Lane.t) : Prop :=
  SCREEN_HEIGHT <= Lane.y l -> Lane.type l = grass.

(** The lane field spans the screen and keeps grass at its lower end. *)
Definition grounded (g : t) : Prop :=
  Shape.field_spans g /\ Forall low_grass (lanes g).

(** A player at rest is on its target; the target is not below the centre
    of the player's cell; the target of a live player is at most one cell
    and a half beyond the death zone. *)
Definition poised (g : t) : Prop :=
  let p := player g in
  (Player.moving p = false -> Player.y p = ofZ (Player.targetY p)) /\
  Player.gridY p * GRID_SIZE <= Player.targetY p /\
  (Player.dead p = false ->
   (ofZ (Player.targetY p) <= cameraY g + 725)%Q).

(** What the run keeps of the player and the camera. *)
Definition steady (g : t) : Prop := Shape.on_screen g /\ poised g.

End Frame.

(** * Facts about the embedding *)

(** ** Comparisons and reduced arithmetic *)

Module NumFacts.

Lemma Qltb_lt a b : Qltb a b = true <-> (a < b)%Q.
Proof.
  unfold Qltb. rewrite negb_true_iff. split; intro H.
  - apply Qnot_le_lt. intro L. apply Qle_bool_iff in L. congruence.
  - destruct (Qle_bool b a) eqn:E; trivial.
    apply Qle_bool_iff in E. exfalso. exact (Qlt_not_le _ _ H E).
Qed.

Lemma Qltb_ge a b : Qltb a b = false <-> (b <= a)%Q.
Proof.
  unfold Qltb. rewrite negb_false_iff. apply Qle_bool_iff.
Qed.

Lemma Qleb_le a b : Qleb a b = true <-> (a <= b)%Q.
Proof. apply Qle_bool_iff. Qed.

Lemma add_eq a b : (add a b == a + b)%Q.
Proof. apply Qred_correct. Qed.

Lemma sub_eq a b : (sub a b == a - b)%Q.
Proof. apply Qred_correct. Qed.

Lemma mul_eq a b : (mul a b == a * b)%Q.
Proof. apply Qred_correct. Qed.

End NumFacts.

Import NumFacts.

(** ** Player controller *)

Module PlayerFacts.

Import Player.

Lemma busy_true_iff p :
  busy p = true <->
  moving p = true \/ dead p = true \/ 0 < moveCooldown p.
Proof.
  unfold busy. rewrite !orb_true_iff, Z.ltb_lt. tauto.
Qed.

Lemma move_busy p dx dy : busy p = true -> move p dx dy = p.
Proof. intro H. unfold move. now rewrite H. Qed.

Lemma move_accepted_columns p dx dy :
  busy p = false -> in_columns (move p dx dy).
Proof.
  intro H. unfold move, in_columns. rewrite H. cbn [gridX].
  change (SCREEN_WIDTH / GRID_SIZE - 1) with 15. lia.
Qed.

Lemma update_gridX p : gridX (update p) = gridX p.
Proof.
  unfold update.
  destruct (moving p); [destruct (_ && _)|]; reflexivity.
Qed.

Lemma update_gridY p : gridY (update p) = gridY p.
Proof.
  unfold update.
  destruct (moving p); [destruct (_ && _)|]; reflexivity.
Qed.

Lemma step_columns p a : in_columns p -> in_columns (step p a).
Proof.
  intro H. destruct a as [dx dy|]; cbn [step].
  - destruct (busy p) eqn:B.
    + now rewrite move_busy.
    + now apply move_accepted_columns.
  - unfold in_columns. now rewrite update_gridX.
Qed.

Lemma trace_columns acts :
  forall p, in_columns p -> Forall in_columns (trace p acts).
Proof.
  induction acts as [|a acts IH]; intros p H; cbn [trace].
  - constructor.
  - constructor.
    + now apply step_columns.
    + apply IH. now apply step_columns.
Qed.

Lemma die_dead p : dead (die p) = true.
Proof. reflexivity. Qed.

Lemma update_dead p : dead (update p) = dead p.
Proof.
  unfold update.
  destruct (moving p); [destruct (_ && _)|]; reflexivity.
Qed.

Lemma move_dead p dx dy : dead (move p dx dy) = dead p.
Proof. unfold move. destruct (busy p); reflexivity. Qed.

End PlayerFacts.

(** ** Text of an integer *)

Module PyIntFacts.

Import PyInt.

Lemma digits_of_uint d : digits (NilEmpty.string_of_uint d).
Proof.
  unfold digits. induction d; cbn [NilEmpty.string_of_uint list_ascii_of_string];
    constructor; auto.
Qed.

Lemma digit_not_space c : is_digit c = true -> is_space c = false.
Proof.
  unfold is_digit, is_space. intro H.
  apply andb_true_iff in H as [H1 H2].
  apply Nat.leb_le in H1. apply Nat.leb_le in H2.
  apply orb_false_iff. split.
  - apply andb_false_iff. right. apply Nat.leb_gt. lia.
  - apply Nat.eqb_neq. lia.
Qed.

Lemma rstrip_digits s : digits s -> rstrip s = s.
Proof.
  unfold digits. induction s as [|c s IH]; cbn [list_ascii_of_string rstrip].
  - reflexivity.
  - intro H. inversion H as [|? ? Hc Hs]; subst.
    rewrite (IH Hs). destruct s; [|reflexivity].
    now rewrite (digit_not_space c Hc).
Qed.

Lemma strip_digits c s : digits (String c s) -> strip (String c s) = String c s.
Proof.
  intro H. unfold strip. cbn [lstrip].
  inversion H as [|? ? Hc Hs]; subst.
  rewrite (digit_not_space c Hc). now apply rstrip_digits.
Qed.

Lemma ungroup_digits s :
  digits s -> forall b, b = true \/ s <> EmptyString -> ungroup b s = Some s.
Proof.
  unfold digits. induction s as [|c s IH]; cbn [list_ascii_of_string ungroup];
    intros H b Hb.
  - destruct Hb as [->|Hb]; [reflexivity|congruence].
  - inversion H as [|? ? Hc Hs]; subst. rewrite Hc.
    rewrite (IH Hs true) by auto. reflexivity.
Qed.

(** A text of digits has as many digits as characters. *)
Lemma count_digits_digits s : digits s -> count_digits s = String.length s.
Proof.
  unfold digits, count_digits.
  induction s as [|c s IH]; cbn [list_ascii_of_string filter String.length];
    intro H; [reflexivity|].
  inversion H as [|? ? Hc Hs]; subst. rewrite Hc. cbn [List.length].
  now rewrite (IH Hs).
Qed.

Lemma length_of_uint d :
  String.length (NilEmpty.string_of_uint d) = Decimal.nb_digits d.
Proof.
  induction d; cbn [NilEmpty.string_of_uint String.length Decimal.nb_digits];
    congruence.
Qed.

Lemma magnitude_of_uint d :
  d <> Decimal.Nil -> (Decimal.nb_digits d <= MAX_STR_DIGITS)%nat ->
  magnitude (NilEmpty.string_of_uint d) = Some (Z.of_uint d).
Proof.
  intros Hd Hn. unfold magnitude.
  rewrite ungroup_digits.
  - rewrite length_of_uint.
    replace (MAX_STR_DIGITS <? Decimal.nb_digits d)%nat with false
      by (symmetry; apply Nat.ltb_ge; exact Hn).
    now rewrite NilEmpty.usu.
  - apply digits_of_uint.
  - right. now destruct d.
Qed.

Lemma digit_not_sign c :
  is_digit c = true -> Ascii.eqb c "-" = false /\ Ascii.eqb c "+" = false.
Proof.
  intro H. split; apply Ascii.eqb_neq; intros ->; discriminate H.
Qed.

Lemma int_of_digits d :
  d <> Decimal.Nil -> (Decimal.nb_digits d <= MAX_STR_DIGITS)%nat ->
  int (NilEmpty.string_of_uint d) = Some (Z.of_uint d).
Proof.
  intros Hd Hn. pose proof (magnitude_of_uint d Hd Hn) as Hm.
  pose proof (digits_of_uint d) as Hg.
  destruct (NilEmpty.string_of_uint d) as [|c s] eqn:E.
  - now destruct d.
  - unfold int. rewrite (strip_digits c s Hg).
    inversion Hg as [|? ? Hc Hs]; subst.
    destruct (digit_not_sign c Hc) as [-> ->]. exact Hm.
Qed.

Lemma int_of_minus_digits d :
  d <> Decimal.Nil -> (Decimal.nb_digits d <= MAX_STR_DIGITS)%nat ->
  int (String "-" (NilEmpty.string_of_uint d)) = Some (- Z.of_uint d).
Proof.
  intros Hd Hn. unfold int, strip. cbn [lstrip].
  change (is_space "-") with false. cbv iota.
  assert (R : rstrip (String "-" (NilEmpty.string_of_uint d)) =
              String "-" (NilEmpty.string_of_uint d)).
  { cbn [rstrip]. rewrite (rstrip_digits _ (digits_of_uint d)).
    destruct (NilEmpty.string_of_uint d) eqn:E; [now destruct d|reflexivity]. }
  rewrite R. change (Ascii.eqb "-" "-") with true. cbv iota.
  now rewrite magnitude_of_uint.
Qed.

(** The numeral of [n] and its number of digits. *)
Lemma numeral_cases n :
  exists d, d <> Decimal.Nil /\ Z.of_uint d = Z.abs n /\
    count_digits (NilZero.string_of_int (Z.to_int n)) = Decimal.nb_digits d /\
    NilZero.string_of_int (Z.to_int n) =
      (if (n <? 0)%Z then String "-" (NilEmpty.string_of_uint d)
       else NilEmpty.string_of_uint d) /\
    d = N.to_uint (Z.to_N (Z.abs n)).
Proof.
  assert (C : forall d, d <> Decimal.Nil ->
            NilZero.string_of_uint d = NilEmpty.string_of_uint d)
    by (now destruct d).
  assert (L : forall d, count_digits (NilEmpty.string_of_uint d) =
                        Decimal.nb_digits d).
  { intro d. rewrite count_digits_digits by apply digits_of_uint.
    apply length_of_uint. }
  destruct n as [|p|p]; cbn [Z.to_int NilZero.string_of_int Z.ltb Z.compare].
  - exists (Decimal.D0 Decimal.Nil). repeat split; discriminate.
  - exists (Pos.to_uint p). pose proof (Unsigned.to_uint_nonnil p) as Hn.
    rewrite (C _ Hn). repeat split; auto.
    exact (DecimalZ.of_to (Z.pos p)).
  - exists (Pos.to_uint p). pose proof (Unsigned.to_uint_nonnil p) as Hn.
    rewrite (C _ Hn). repeat split; auto.
    + change (Z.abs (Z.neg p)) with (Z.pos p). exact (DecimalZ.of_to (Z.pos p)).
    + unfold count_digits. cbn [list_ascii_of_string filter].
      change (is_digit "-") with false. cbv iota. apply L.
Qed.

(** [int(str(n)) == n] whenever [str(n)] is defined. *)
Lemma int_str n s : str n = Some s -> int s = Some n.
Proof.
  unfold str. destruct (numeral_cases n) as (d & Hd & V & C & S & _).
  rewrite C. destruct (_ <? _)%nat eqn:E; [discriminate|].
  apply Nat.ltb_ge in E. intro H. injection H as <-. rewrite S.
  destruct (n <? 0)%Z eqn:Neg.
  - rewrite int_of_minus_digits by assumption. f_equal.
    apply Z.ltb_lt in Neg. lia.
  - rewrite int_of_digits by assumption. f_equal.
    apply Z.ltb_ge in Neg. lia.
Qed.

(** The text of [str(n)] is all ASCII. *)
Lemma to_ascii_text_of s :
  forallb (fun c => c <? 128)%N (text_of s) = true ->
  to_ascii (text_of s) = s.
Proof.
  intro H. unfold to_ascii. rewrite H. unfold text_of.
  rewrite map_map.
  rewrite (map_ext _ (fun c => c)) by (intro c; apply ascii_N_embedding).
  rewrite map_id. apply string_of_list_ascii_of_string.
Qed.

Lemma text_of_ascii s :
  Forall (fun c => (nat_of_ascii c < 128)%nat) (list_ascii_of_string s) ->
  forallb (fun c => c <? 128)%N (text_of s) = true.
Proof.
  unfold text_of. induction (list_ascii_of_string s) as [|c l IH];
    intro H; [reflexivity|].
  inversion H as [|? ? Hc Hl]; subst. cbn [map forallb].
  rewrite (IH Hl), andb_true_r. apply N.ltb_lt.
  unfold nat_of_ascii in Hc. lia.
Qed.

Lemma str_ascii n s :
  str n = Some s ->
  Forall (fun c => (nat_of_ascii c < 128)%nat) (list_ascii_of_string s).
Proof.
  unfold str. destruct (numeral_cases n) as (d & _ & _ & _ & S & _).
  destruct (_ <? _)%nat; [discriminate|]. intro H. injection H as <-.
  rewrite S.
  assert (D : Forall (fun c => (nat_of_ascii c < 128)%nat)
                     (list_ascii_of_string (NilEmpty.string_of_uint d))).
  { pose proof (digits_of_uint d) as G. unfold digits in G.
    eapply Forall_impl; [|exact G]. intros c Hc. unfold is_digit in Hc.
    apply andb_true_iff in Hc as [_ Hc]. apply Nat.leb_le in Hc. lia. }
  destruct (n <? 0)%Z; [|exact D].
  cbn [list_ascii_of_string]. constructor; [|exact D]. cbn. lia.
Qed.

(** The round trip through the text of a file. *)
Lemma int_text_str n s : str n = Some s -> int_text (text_of s) = Some n.
Proof.
  intro H. unfold int_text.
  rewrite to_ascii_text_of by (apply text_of_ascii; now apply (str_ascii n)).
  now apply int_str.
Qed.

End PyIntFacts.

(** ** The limit on the digits, as a bound on the number *)

Module LimitFacts.

Import PyInt.

Lemma acc_bounds d :
  forall acc,
    (Npos acc * 10 ^ N.of_nat (Decimal.nb_digits d)
     <= Npos (Pos.of_uint_acc d acc)
     < (Npos acc + 1) * 10 ^ N.of_nat (Decimal.nb_digits d))%N.
Proof.
  induction d as [|d IH|d IH|d IH|d IH|d IH|d IH|d IH|d IH|d IH|d IH];
    intro acc; cbn [Decimal.nb_digits Pos.of_uint_acc];
    [cbn; lia| | | | | | | | | |];
    rewrite Nat2N.inj_succ, N.pow_succ_r';
    match goal with
    | |- context [Pos.of_uint_acc d ?a] => specialize (IH a)
    end;
    set (P := (10 ^ N.of_nat (Decimal.nb_digits d))%N) in *;
    set (v := Npos (Pos.of_uint_acc d _)) in *; clearbody v P; nia.
Qed.

Lemma to_uint_head p :
  exists acc d,
    (1 <= Npos acc <= 9)%N /\ Npos p = Npos (Pos.of_uint_acc d acc) /\
    Decimal.nb_digits (Pos.to_uint p) = S (Decimal.nb_digits d).
Proof.
  pose proof (Unsigned.of_to p) as V.
  pose proof (Unsigned.to_uint_nonzero p) as Z0.
  pose proof (Unsigned.to_of (Pos.to_uint p)) as U.
  rewrite V in U. change (N.to_uint (Npos p)) with (Pos.to_uint p) in U.
  destruct (Pos.to_uint p) as [|d|d|d|d|d|d|d|d|d|d] eqn:E;
    cbn [Pos.of_uint] in V;
    try (eexists _, d; split; [|split; [symmetry; exact V|reflexivity]];
         cbn; lia).
  - discriminate V.
  - exfalso. rewrite DecimalFacts.unorm_D0 in U. unfold Decimal.unorm in U.
    destruct (Decimal.nzhead d) eqn:Hz; try discriminate U.
    + apply Z0. exact U.
    + apply (DecimalFacts.nzhead_nonzero d d). congruence.
Qed.

(** A positive number has at most [k] digits exactly when it is below
    the [k]-th power of ten. *)
Lemma nb_digits_to_uint p k :
  (Decimal.nb_digits (Pos.to_uint p) <= k)%nat <->
  (Npos p < 10 ^ N.of_nat k)%N.
Proof.
  destruct (to_uint_head p) as (acc & d & A & -> & ->).
  pose proof (acc_bounds d acc) as B.
  set (m := Decimal.nb_digits d) in *.
  set (v := Npos (Pos.of_uint_acc d acc)) in *. clearbody v m.
  split; intro H.
  - apply N.lt_le_trans with (10 ^ N.of_nat (S m))%N.
    + rewrite Nat2N.inj_succ, N.pow_succ_r'. nia.
    + apply N.pow_le_mono_r; lia.
  - apply Nat.nlt_ge. intro C.
    assert (L : (10 ^ N.of_nat k <= 10 ^ N.of_nat m)%N)
      by (apply N.pow_le_mono_r; lia).
    nia.
Qed.

(** [str(n)] fails exactly from ten to the power 4300 on. *)
Lemma str_None n :
  str n = None <-> 10 ^ Z.of_nat MAX_STR_DIGITS <= Z.abs n.
Proof.
  unfold str.
  destruct (PyIntFacts.numeral_cases n) as (d & _ & _ & C & _ & D).
  rewrite C, D. clear C D d.
  assert (P : 10 ^ Z.of_nat MAX_STR_DIGITS =
              Z.of_N (10 ^ N.of_nat MAX_STR_DIGITS)).
  { rewrite N2Z.inj_pow, nat_N_Z. reflexivity. }
  rewrite P.
  destruct (Z.abs n) as [|p|p] eqn:E; [| |lia].
  - cbn [Z.to_N N.to_uint]. split; [discriminate|].
    intro H. exfalso.
    assert (0 < 10 ^ N.of_nat MAX_STR_DIGITS)%N
      by (apply N.neq_0_lt_0, N.pow_nonzero; discriminate).
    lia.
  - cbn [Z.to_N N.to_uint].
    pose proof (nb_digits_to_uint p MAX_STR_DIGITS) as B.
    destruct (_ <? _)%nat eqn:L.
    + apply Nat.ltb_lt in L. split; [intros _|reflexivity].
      assert (~ (N.pos p < 10 ^ N.of_nat MAX_STR_DIGITS)%N)
        by (intro X; apply B in X; lia).
      lia.
    + apply Nat.ltb_ge in L. apply B in L. split; [discriminate|]. lia.
Qed.

Lemma str_Some n :
  Z.abs n < 10 ^ Z.of_nat MAX_STR_DIGITS -> exists s, str n = Some s.
Proof.
  intro H. destruct (str n) as [s|] eqn:E; [eauto|].
  apply str_None in E. lia.
Qed.

End LimitFacts.

(** ** Frame conditions of the game steps *)

Module GameFacts.

Import Game.

Lemma bind_eq {A B} (m : M A) (k : A -> M B) e a e' :
  m e = (a, e') -> bind m k e = k a e'.
Proof. intro H. unfold bind. now rewrite H. Qed.

Lemma set_player_same g : set_player g (player g) = g.
Proof. now destruct g. Qed.

Lemma updateLanes_shape g e :
  exists ls e', updateLanes g e = (set_lanes g ls, e').
Proof.
  unfold updateLanes, bind, ret.
  destruct (mapM Lane.update (lanes g) e) as [ls e']. eauto.
Qed.

Lemma generateNewLanes_shape g e :
  exists ls e', generateNewLanes g e = (set_lanes g ls, e').
Proof.
  unfold generateNewLanes, bind, ret.
  destruct (generate_loop _ _ _ _ _ e) as [ls e']. eauto.
Qed.

Lemma createDeathParticles_shape g e :
  exists ps e', createDeathParticles g e = (set_particles g ps, e').
Proof.
  unfold createDeathParticles, bind, ret.
  destruct (repeatM 20 _ e) as [ps e']. eauto.
Qed.

Lemma kill_shape g e :
  exists ps e',
    kill g e = (set_particles (set_player g (Player.die (player g))) ps, e').
Proof.
  unfold kill.
  exact (createDeathParticles_shape (set_player g (Player.die (player g))) e).
Qed.

Lemma checkCollisions_session g e :
  session (fst (checkCollisions g e)) = session g
  /\ lanes (fst (checkCollisions g e)) = lanes g.
Proof.
  unfold checkCollisions.
  destruct (Player.dead (player g)); [easy|].
  destruct (getLaneAtY g _) as [l|]; [|easy].
  unfold resolve. destruct (Lane.type l).
  - easy.
  - destruct (existsb _ _); [|easy].
    destruct (kill_shape g e) as (ps & e' & ->). easy.
  - destruct (find _ _) as [lg|].
    + set (g' := set_player g _).
      destruct (off_edge _).
      * destruct (kill_shape g' e) as (ps & e' & ->). easy.
      * easy.
    + destruct (kill_shape g e) as (ps & e' & ->). easy.
Qed.

Lemma updateProgress_session g g' :
  session g = session g' ->
  Player.gridY (player g) = Player.gridY (player g') ->
  session (updateProgress g) = session (updateProgress g').
Proof.
  intros H Hy. unfold session in H.
  injection H as H1 H2 H3 H4 H5 H6 H7 H8 H9 H10.
  unfold updateProgress. rewrite Hy, H6.
  destruct (_ <? _); unfold session; cbn;
    rewrite ?H1, ?H2, ?H3, ?H4, ?H5, ?H6, ?H7, ?H8, ?H9, ?H10; reflexivity.
Qed.

(** The state that [update] hands to its last step, the death handling,
    has the session fields that [updateCamera] and [updateProgress] compute
    from the updated player; the steps in between leave them alone. *)
Lemma update_playing g e :
  playing g = true -> gameOver g = false ->
  exists g9 e',
    update g e = handleDeath g9 e' /\
    session g9 =
    session (updateProgress
               (updateCamera (set_player g (Player.update (player g))))).
Proof.
  intros Hp Ho. unfold update. rewrite Hp, Ho. cbn [negb orb].
  set (g2 := updateCamera _).
  destruct (updateLanes_shape g2 e) as (ls1 & e1 & H1).
  rewrite (bind_eq _ _ _ _ _ H1).
  set (g4 := updateProgress _).
  destruct (generateNewLanes_shape g4 e1) as (ls2 & e2 & H2).
  rewrite (bind_eq _ _ _ _ _ H2).
  set (g6 := cleanupOldLanes _).
  destruct (checkCollisions_session g6 e2) as [H3 _].
  unfold bind. destruct (checkCollisions g6 e2) as [g7 e3]. cbn [fst] in H3.
  exists (checkDeathZone (updateParticles g7)), e3. split; [reflexivity|].
  transitivity (session g4).
  - transitivity (session g7).
    + unfold checkDeathZone. now destruct (Qltb _ _).
    + rewrite H3. reflexivity.
  - subst g4. now apply updateProgress_session.
Qed.

Lemma endGame_fields g e :
  let g' := fst (endGame g e) in
  startScreen g' = startScreen g /\ playing g' = false /\
  gameOver g' = true /\ score g' = score g /\
  bestProgress g' = bestProgress g /\ cameraY g' = cameraY g /\
  player g' = player g /\ lanes g' = lanes g /\
  particles g' = particles g /\
  difficultyMultiplier g' = difficultyMultiplier g /\
  deathAnimationTimer g' = deathAnimationTimer g /\
  flashTimer g' = flashTimer g /\
  highScore g' = Z.max (highScore g) (score g).
Proof.
  unfold endGame. cbn [score highScore].
  destruct (score g >? highScore g) eqn:E.
  - apply Z.gtb_lt in E.
    unfold bind, ret, saveHighScore. destruct (write_ok (disk e));
      cbn [fst startScreen playing gameOver score highScore bestProgress
           cameraY player lanes particles difficultyMultiplier
           deathAnimationTimer flashTimer];
      repeat split; lia.
  - rewrite Z.gtb_ltb, Z.ltb_ge in E.
    cbn [fst ret startScreen playing gameOver score highScore bestProgress
         cameraY player lanes particles difficultyMultiplier
         deathAnimationTimer flashTimer].
    repeat split; lia.
Qed.


Lemma handleDeath_fields g e :
  let g' := fst (handleDeath g e) in
  startScreen g' = startScreen g /\ score g' = score g /\
  bestProgress g' = bestProgress g /\ cameraY g' = cameraY g /\
  player g' = player g /\ lanes g' = lanes g /\
  particles g' = particles g /\
  difficultyMultiplier g' = difficultyMultiplier g /\
  flashTimer g' = flashTimer g /\
  (highScore g' = highScore g \/
   gameOver g' = true /\ highScore g < score g /\ highScore g' = score g).
Proof.
  unfold handleDeath.
  destruct (Player.dead (player g)); [|cbn; tauto].
  set (g1 := set_deathAnimationTimer g _).
  destruct (deathAnimationTimer g1 >? 60); [|cbn; tauto].
  destruct (endGame_fields g1 e)
    as (H1 & H2 & H3 & H4 & H5 & H6 & H7 & H8 & H9 & H10 & H11 & H12 & H13).
  cbv zeta. rewrite H1, H4, H5, H6, H7, H8, H9, H10, H12, H13, H3.
  change (score g1) with (score g). change (highScore g1) with (highScore g).
  repeat (split; [reflexivity|]).
  destruct (Z.max_spec (highScore g) (score g)) as [[L ->]|[L ->]].
  - right. auto.
  - left. reflexivity.
Qed.

Lemma update_idle g e :
  playing g = false \/ gameOver g = true -> update g e = (g, e).
Proof.
  intros [H|H]; unfold update; rewrite H; [reflexivity|].
  now rewrite orb_true_r.
Qed.

Lemma updateCamera_cameraY g :
  (cameraY (updateCamera g) <= cameraY g)%Q.
Proof.
  unfold updateCamera. destruct (Qltb _ _) eqn:E.
  - apply Qltb_lt in E. cbn [set_cameraY cameraY]. now apply Qlt_le_weak.
  - apply Qle_refl.
Qed.

Lemma updateProgress_fields g :
  bestProgress (updateProgress g) =
    Z.min (Player.gridY (player g)) (bestProgress g) /\
  score (updateProgress g) =
    (if Player.gridY (player g) <? bestProgress g
     then Z.abs (Player.gridY (player g)) * 10 else score g) /\
  cameraY (updateProgress g) = cameraY g /\
  highScore (updateProgress g) = highScore g.
Proof.
  unfold updateProgress.
  destruct (_ <? _) eqn:E; cbn [bestProgress score cameraY highScore].
  - apply Z.ltb_lt in E. repeat split; lia.
  - apply Z.ltb_ge in E. repeat split; lia.
Qed.

(** What one call of [update] does to the camera, the best progress, the
    score and the high score of a game in play. *)
Lemma update_fields g e :
  playing g = true -> gameOver g = false ->
  let g' := fst (update g e) in
  let p := Player.update (player g) in
  cameraY g' = cameraY (updateCamera (set_player g p)) /\
  bestProgress g' = Z.min (Player.gridY (player g)) (bestProgress g) /\
  score g' =
    (if Player.gridY (player g) <? bestProgress g
     then Z.abs (Player.gridY (player g)) * 10 else score g) /\
  (highScore g' = highScore g \/
   gameOver g' = true /\ highScore g < score g' /\ highScore g' = score g').
Proof.
  intros Hp Ho g' p. subst g'.
  destruct (update_playing g e Hp Ho) as (g9 & e' & -> & S).
  destruct (handleDeath_fields g9 e')
    as (_ & H2 & H3 & H4 & _ & _ & _ & _ & _ & H10).
  fold p in S. set (g2 := updateCamera (set_player g p)) in *.
  destruct (updateProgress_fields g2) as (B & Sc & C & Hs).
  unfold session in S. injection S as _ _ _ S4 S5 S6 S7 _ _ _.
  assert (Gy : Player.gridY (player g2) = Player.gridY (player g)).
  { subst g2. unfold updateCamera. destruct (Qltb _ _); cbn [player set_cameraY set_player];
      apply PlayerFacts.update_gridY. }
  assert (G2 : bestProgress g2 = bestProgress g /\ score g2 = score g /\
               highScore g2 = highScore g).
  { subst g2. unfold updateCamera. destruct (Qltb _ _); cbn; tauto. }
  destruct G2 as (G2b & G2s & G2h).
  rewrite Gy, G2b, G2s in *. rewrite G2h in Hs.
  rewrite H2, H3, H4, S4, S6, S7, Sc, B, C.
  repeat (split; [reflexivity|]).
  rewrite S5, Hs, S4, Sc in H10. exact H10.
Qed.

Lemma update_highScore_idle g e :
  playing g = false \/ gameOver g = true ->
  highScore (fst (update g e)) = highScore g.
Proof. intro H. now rewrite update_idle. Qed.


(** *** Input *)

Lemma restart_fields g e :
  let g' := fst (restart g e) in
  highScore g' = highScore g /\ score g' = 0 /\ bestProgress g' = 0 /\
  cameraY g' = 0%Q /\ difficultyMultiplier g' = 1%Q /\
  player g' = Player.init (SCREEN_WIDTH / 2) (SCREEN_HEIGHT - GRID_SIZE * 2) /\
  particles g' = [] /\ deathAnimationTimer g' = 0 /\
  lanes g' = fst (initializeLanes 1 e) /\
  playing g' = true /\ gameOver g' = false /\ startScreen g' = false /\
  flashTimer g' = flashTimer g.
Proof.
  unfold restart, bind, ret.
  destruct (initializeLanes 1 e) as [ls e']. cbn. tauto.
Qed.

(** A key either restarts the game or leaves the session fields, the lanes
    and the particles alone. *)
Lemma keydown_cases g key e :
  (is_space key = true /\ (startScreen g = true \/ gameOver g = true) /\
   keydown g key e = restart g e) \/
  (session (fst (keydown g key e)) = session g /\
   (is_space key = true -> startScreen g = false /\ gameOver g = false)).
Proof.
  unfold keydown.
  destruct (startScreen g) eqn:Hs.
  { destruct key; cbn; auto; right; split; auto; discriminate. }
  destruct (gameOver g) eqn:Ho.
  { destruct key; cbn; auto; right; split; auto; discriminate. }
  right. split; [|auto].
  destruct (playing g); [|reflexivity].
  destruct key; reflexivity.
Qed.

Lemma keydown_highScore g key e :
  highScore (fst (keydown g key e)) = highScore g.
Proof.
  destruct (keydown_cases g key e) as [(_ & _ & ->)|[S _]].
  - apply restart_fields.
  - unfold session in S. now injection S.
Qed.

Lemma keydown_in_play g key e :
  startScreen g = false -> gameOver g = false ->
  session (fst (keydown g key e)) = session g.
Proof.
  intros Hs Ho.
  destruct (keydown_cases g key e) as [(_ & [H|H] & _)|[S _]];
    congruence.
Qed.

(** *** Event queues and frames *)

Lemma handleEvents_session g evs :
  forall e,
    no_restart evs = true \/ (startScreen g = false /\ gameOver g = false) ->
    session (snd (fst (handleEvents g evs e))) = session g.
Proof.
  revert g. induction evs as [|ev evs IH]; intros g e H; [reflexivity|].
  destruct ev as [|key|]; cbn [handleEvents].
  - reflexivity.
  - unfold bind. destruct (keydown g key e) as [g1 e1] eqn:K.
    assert (S : session g1 = session g).
    { change g1 with (fst (g1, e1)). rewrite <- K.
      destruct (keydown_cases g key e) as [(Sp & Sr & _)|[S _]]; [|exact S].
      destruct H as [H|[H1 H2]].
      - cbn [no_restart forallb] in H. rewrite Sp in H. discriminate.
      - destruct Sr; congruence. }
    destruct (is_escape key); [exact S|].
    rewrite IH; [exact S|].
    destruct H as [H|[H1 H2]].
    + left. cbn [no_restart forallb] in H. apply andb_true_iff in H. apply H.
    + right. unfold session in S. injection S as -> _ -> _ _ _ _ _ _ _. auto.
  - apply IH. destruct H as [H|H]; [left|right; exact H]. exact H.
Qed.

Lemma update_cameraY_le g e :
  (cameraY (fst (update g e)) <= cameraY g)%Q.
Proof.
  destruct (playing g) eqn:Hp; [destruct (gameOver g) eqn:Ho|].
  - rewrite update_idle by auto. apply Qle_refl.
  - destruct (update_fields g e Hp Ho) as (-> & _).
    apply (updateCamera_cameraY (set_player g _)).
  - rewrite update_idle by auto. apply Qle_refl.
Qed.

Lemma frame_cameraY_le g evs e :
  no_restart evs = true ->
  (cameraY (snd (fst (frame g evs e))) <= cameraY g)%Q.
Proof.
  intro H. unfold frame, bind.
  pose proof (handleEvents_session g evs e (or_introl H)) as S.
  destruct (handleEvents g evs e) as [[b g1] e1]. cbn [fst snd] in *.
  pose proof (update_cameraY_le g1 e1) as L.
  destruct (update g1 e1) as [g2 e2]. cbn [fst snd ret] in *.
  unfold session in S. injection S as _ _ _ _ _ _ S _ _ _.
  now rewrite <- S.
Qed.

Lemma run_cameraY_le frames :
  forall g e,
    forallb no_restart frames = true ->
    (cameraY (fst (run g frames e)) <= cameraY g)%Q.
Proof.
  induction frames as [|evs frames IH]; intros g e H; cbn [run].
  - apply Qle_refl.
  - cbn [forallb] in H. apply andb_true_iff in H as [H1 H2].
    unfold bind. pose proof (frame_cameraY_le g evs e H1) as L.
    destruct (frame g evs e) as [[b g1] e1]. cbn [fst snd] in *.
    destruct b.
    + eapply Qle_trans; [apply IH; exact H2|exact L].
    + exact L.
Qed.

(** *** The score invariant *)

Lemma init_inv e : progress_inv (fst (init e)).
Proof.
  unfold init, bind, ret.
  destruct (loadHighScore e) as [hs e1].
  destruct (initializeLanes 1 e1) as [ls e2].
  cbn. unfold progress_inv. cbn. lia.
Qed.

Lemma session_inv g g' :
  session g' = session g -> progress_inv g -> progress_inv g'.
Proof.
  unfold session, progress_inv. intros S.
  injection S as _ _ _ -> _ -> _ _ _ _. auto.
Qed.

Lemma keydown_inv g key e :
  progress_inv g -> progress_inv (fst (keydown g key e)).
Proof.
  intro I. destruct (keydown_cases g key e) as [(_ & _ & ->)|[S _]].
  - destruct (restart_fields g e) as (_ & Hs & Hb & _).
    unfold progress_inv. rewrite Hs, Hb. lia.
  - eapply session_inv; eauto.
Qed.

Lemma handleEvents_inv g evs :
  forall e, progress_inv g -> progress_inv (snd (fst (handleEvents g evs e))).
Proof.
  revert g. induction evs as [|ev evs IH]; intros g e I; [exact I|].
  destruct ev as [|key|]; cbn [handleEvents]; [exact I| |now apply IH].
  unfold bind. pose proof (keydown_inv g key e I) as I1.
  destruct (keydown g key e) as [g1 e1]. cbn [fst] in I1.
  destruct (is_escape key); [exact I1|now apply IH].
Qed.

(** One [update] never loses progress nor score. *)
Lemma update_progress g e :
  progress_inv g ->
  let g' := fst (update g e) in
  progress_inv g' /\ bestProgress g' <= bestProgress g /\ score g <= score g'.
Proof.
  intros [Is Ib] g'. subst g'.
  destruct (playing g) eqn:Hp; [destruct (gameOver g) eqn:Ho|].
  - rewrite update_idle by auto. cbn [fst]. unfold progress_inv. lia.
  - destruct (update_fields g e Hp Ho) as (_ & B & Sc & _).
    unfold progress_inv. rewrite B, Sc.
    destruct (Player.gridY (player g) <? bestProgress g) eqn:E.
    + apply Z.ltb_lt in E. lia.
    + apply Z.ltb_ge in E. lia.
  - rewrite update_idle by auto. cbn [fst]. unfold progress_inv. lia.
Qed.

Lemma frame_inv g evs e :
  progress_inv g -> progress_inv (snd (fst (frame g evs e))).
Proof.
  intro I. unfold frame, bind.
  pose proof (handleEvents_inv g evs e I) as I1.
  destruct (handleEvents g evs e) as [[b g1] e1]. cbn [fst snd] in *.
  pose proof (update_progress g1 e1 I1) as [I2 _].
  destruct (update g1 e1) as [g2 e2]. exact I2.
Qed.

Lemma run_inv frames :
  forall g e, progress_inv g -> progress_inv (fst (run g frames e)).
Proof.
  induction frames as [|evs frames IH]; intros g e I; cbn [run]; [exact I|].
  unfold bind. pose proof (frame_inv g evs e I) as I1.
  destruct (frame g evs e) as [[b g1] e1]. cbn [fst snd] in *.
  destruct b; [now apply IH|exact I1].
Qed.

Lemma reached_inv e frames : progress_inv (reached e frames).
Proof.
  unfold reached. pose proof (init_inv e) as I.
  destruct (init e) as [g e0]. now apply run_inv.
Qed.

(** A frame of a game in play never loses progress nor score. *)
Lemma frame_progress g evs e :
  progress_inv g -> startScreen g = false -> gameOver g = false ->
  let g' := snd (fst (frame g evs e)) in
  bestProgress g' <= bestProgress g /\ score g <= score g'.
Proof.
  intros I Hs Ho. unfold frame, bind.
  pose proof (handleEvents_session g evs e (or_intror (conj Hs Ho))) as S.
  pose proof (handleEvents_inv g evs e I) as I1.
  destruct (handleEvents g evs e) as [[b g1] e1]. cbn [fst snd] in *.
  pose proof (update_progress g1 e1 I1) as (_ & B & Sc).
  destruct (update g1 e1) as [g2 e2]. cbn [fst snd ret] in *.
  unfold session in S. injection S as _ _ _ S4 _ S6 _ _ _ _.
  rewrite <- S4, <- S6. auto.
Qed.

End GameFacts.

(** ** Collision engine *)

Module CollisionFacts.

Import Game GameFacts.

(** The lane that [getLaneAtY] returns is the first of the list, both ends
    of whose row belong to it, that has the coordinate. *)
Lemma getLaneAtY_closed g y l :
  getLaneAtY g y = Some l ->
  In l (lanes g) /\
  (inject_Z (Lane.y l) <= y)%Q /\ (y <= inject_Z (Lane.y l + GRID_SIZE))%Q.
Proof.
  unfold getLaneAtY. intro H. apply find_some in H as [I C].
  unfold in_lane in C. apply andb_true_iff in C as [C1 C2].
  apply Qleb_le in C1. apply Qleb_le in C2. auto.
Qed.

(** Off the lower line of a lane, the test of [getLaneAtY] is the test of
    the half-open row. *)
Lemma in_lane_in_row y l :
  ~ (y == inject_Z (Lane.y l + GRID_SIZE))%Q ->
  in_lane y l = Spec.in_row y l.
Proof.
  intro N. unfold in_lane, Spec.in_row, ofZ. f_equal.
  destruct (Qltb y _) eqn:L.
  - apply Qltb_lt in L. apply Qleb_le. now apply Qlt_le_weak.
  - apply Qltb_ge in L. destruct (Qleb y _) eqn:R; [|reflexivity].
    apply Qleb_le in R. exfalso. apply N. now apply Qle_antisym.
Qed.

Lemma getLaneAtY_off_lines g y :
  Forall (fun l => ~ (y == inject_Z (Lane.y l + GRID_SIZE))%Q) (lanes g) ->
  getLaneAtY g y = find (Spec.in_row y) (lanes g).
Proof.
  unfold getLaneAtY. induction 1 as [|l ls N _ IH]; [reflexivity|].
  cbn [find]. rewrite (in_lane_in_row y l N). now rewrite IH.
Qed.

Lemma checkCollisions_no_lane g e :
  getLaneAtY g (Player.y (player g)) = None -> checkCollisions g e = (g, e).
Proof.
  intro H. unfold checkCollisions. rewrite H. now destruct (Player.dead _).
Qed.

Lemma kill_set_lanes g ls e :
  kill (set_lanes g ls) e =
  (set_lanes (fst (kill g e)) ls, snd (kill g e)).
Proof.
  unfold kill, createDeathParticles, bind, ret.
  cbn [set_lanes set_player player particles].
  destruct (repeatM 20 _ e) as [ps e']. reflexivity.
Qed.

Lemma resolve_set_lanes g ls l e :
  resolve (set_lanes g ls) l e =
  (set_lanes (fst (resolve g l e)) ls, snd (resolve g l e)).
Proof.
  unfold resolve. destruct (Lane.type l).
  - reflexivity.
  - change (checkVehicleCollision (set_lanes g ls))
      with (checkVehicleCollision g).
    destruct (existsb _ _); [apply kill_set_lanes|reflexivity].
  - change (checkLogCollision (set_lanes g ls)) with (checkLogCollision g).
    destruct (find _ _) as [lg|]; [|apply kill_set_lanes].
    change (set_player (set_lanes g ls)
              (Player.carried (player (set_lanes g ls)) (Obstacle.speed lg)))
      with (set_lanes (set_player g (Player.carried (player g)
                                       (Obstacle.speed lg))) ls).
    set (g' := set_player g _).
    change (player (set_lanes g' ls)) with (player g').
    destruct (off_edge _); [apply kill_set_lanes|reflexivity].
Qed.

(** Only the lane found under the player is looked at: a lane field that
    yields the same lane there gives the same outcome, whatever its other
    lanes and their obstacles are. *)
Lemma checkCollisions_current_lane_only g ls e :
  getLaneAtY (set_lanes g ls) (Player.y (player g)) =
  getLaneAtY g (Player.y (player g)) ->
  checkCollisions (set_lanes g ls) e =
  (set_lanes (fst (checkCollisions g e)) ls, snd (checkCollisions g e)).
Proof.
  intro H. unfold checkCollisions.
  change (player (set_lanes g ls)) with (player g). rewrite H.
  destruct (Player.dead (player g)); [reflexivity|].
  destruct (getLaneAtY g _) as [l|]; [apply resolve_set_lanes|reflexivity].
Qed.

Lemma kill_dead g e : Player.dead (player (fst (kill g e))) = true.
Proof. destruct (kill_shape g e) as (ps & e' & ->). reflexivity. Qed.

(** [checkCollisions] does not read the [moving] flag: the player's fate is
    the same in the middle of a hop and at rest. *)
Lemma checkCollisions_ignores_moving g e b :
  let g' := set_player g (Player.set_moving (player g) b) in
  Player.dead (player (fst (checkCollisions g' e))) =
  Player.dead (player (fst (checkCollisions g e))).
Proof.
  intro g'. unfold checkCollisions.
  change (Player.dead (player g')) with (Player.dead (player g)).
  destruct (Player.dead (player g)) eqn:D; [reflexivity|].
  change (getLaneAtY g' (Player.y (player g')))
    with (getLaneAtY g (Player.y (player g))).
  destruct (getLaneAtY g _) as [l|]; [|reflexivity].
  unfold resolve. destruct (Lane.type l).
  - reflexivity.
  - change (checkVehicleCollision g') with (checkVehicleCollision g).
    destruct (existsb _ _); [now rewrite !kill_dead|reflexivity].
  - change (checkLogCollision g') with (checkLogCollision g).
    destruct (find _ _) as [lg|]; [|now rewrite !kill_dead].
    change (Player.x (player (set_player g'
              (Player.carried (player g') (Obstacle.speed lg)))))
      with (Player.x (player (set_player g
              (Player.carried (player g) (Obstacle.speed lg))))).
    destruct (off_edge _); [now rewrite !kill_dead|reflexivity].
Qed.

End CollisionFacts.

(** ** Lane field *)

Module LaneFieldFacts.

Import Game.

Lemma make_type ty y0 mult e : Lane.type (fst (Lane.make ty y0 mult e)) = ty.
Proof.
  destruct ty; cbn [Lane.make].
  - unfold Lane.GrassLane, bind, ret.
    destruct (Random.randint 0 3 e) as [n e1].
    destruct (repeatM (Z.to_nat n) Lane.flower e1) as [fl e2]. reflexivity.
  - unfold Lane.RoadLane, bind, ret.
    destruct (Random.choice (-1) [-1; 1] e) as [d e1].
    destruct (Random.randint 40 80 e1) as [si e2]. reflexivity.
  - unfold Lane.WaterLane, bind, ret.
    destruct (Random.choice (-1) [-1; 1] e) as [d e1].
    destruct (Random.randint 60 100 e1) as [si e2]. reflexivity.
Qed.

(** The adjusted weights: road is 3 or 1, water is 2 or 1, grass is 2. *)
Lemma laneWeights_cases ls :
  exists wr ww,
    laneWeights ls = [2; wr; ww] /\
    (wr = 1 /\ 2 <= count road (recentLanes ls) \/
     wr = 3 /\ count road (recentLanes ls) < 2) /\
    (ww = 1 /\ 2 <= count water (recentLanes ls) \/
     ww = 2 /\ count water (recentLanes ls) < 2).
Proof.
  unfold laneWeights.
  eexists; eexists; split; [reflexivity|]. split.
  - destruct (2 <=? count road _) eqn:R.
    + left. apply Z.leb_le in R. auto.
    + right. apply Z.leb_gt in R. auto.
  - destruct (2 <=? count water _) eqn:W.
    + left. apply Z.leb_le in W. auto.
    + right. apply Z.leb_gt in W. auto.
Qed.

Lemma draw_for_pick ls ty :
  let u := Scenario.draw_for (laneWeights ls) ty in
  Random.unit_interval u = u /\
  Random.pick grass lane_types (laneWeights ls) u = ty.
Proof.
  destruct (laneWeights_cases ls) as (wr & ww & -> & [[-> _]|[-> _]] & [[-> _]|[-> _]]);
    destruct ty; vm_compute; auto.
Qed.

Lemma generate_step ls ty cam mult h e :
  Qltb (sub cam (ofZ (GRID_SIZE * 5))) (ofZ h) = true ->
  rsrc e (rpos e) = Scenario.draw_for (laneWeights ls) ty ->
  exists l, Lane.type l = ty /\ Lane.y l = h - GRID_SIZE /\
            fst (generate_loop 1 cam mult h ls e) = ls ++ [l].
Proof.
  intros C U. cbn [generate_loop]. rewrite C.
  unfold bind at 1. unfold Random.choices, bind at 1. unfold Random.random.
  rewrite U. destruct (draw_for_pick ls ty) as [-> ->]. cbn [ret].
  unfold bind.
  pose proof (make_type ty (h - GRID_SIZE) mult
                (mkEnv (rsrc e) (S (rpos e)) (disk e))) as T.
  destruct (Lane.make ty (h - GRID_SIZE) mult _) as [l e1] eqn:Mk.
  cbn [fst ret] in *. exists l. repeat split; auto.
  clear T. destruct ty; cbn [Lane.make] in Mk.
  - unfold Lane.GrassLane, bind, ret in Mk.
    destruct (Random.randint 0 3 _) as [n e2].
    destruct (repeatM _ _ e2) as [fl e3]. now injection Mk as <- _.
  - unfold Lane.RoadLane, bind, ret in Mk.
    destruct (Random.choice _ _ _) as [d e2].
    destruct (Random.randint 40 80 e2) as [si e3]. now injection Mk as <- _.
  - unfold Lane.WaterLane, bind, ret in Mk.
    destruct (Random.choice _ _ _) as [d e2].
    destruct (Random.randint 60 100 e2) as [si e3]. now injection Mk as <- _.
Qed.

(** *** Termination of the generation loop *)

Lemma generate_loop_more fuel :
  forall k cam mult h ls e,
    Qltb (sub cam (ofZ (GRID_SIZE * 5)))
         (ofZ (h - GRID_SIZE * Z.of_nat fuel)) = false ->
    generate_loop (fuel + k) cam mult h ls e = generate_loop fuel cam mult h ls e.
Proof.
  induction fuel as [|fuel IH]; intros k cam mult h ls e H.
  - change (Z.of_nat 0) with 0 in H. rewrite Z.mul_0_r, Z.sub_0_r in H.
    destruct k; cbn [Nat.add generate_loop]; [reflexivity|]. now rewrite H.
  - cbn [Nat.add generate_loop].
    destruct (Qltb _ (ofZ h)); [|reflexivity].
    unfold bind.
    destruct (Random.choices grass lane_types (laneWeights ls) e) as [ty e1].
    destruct (Lane.make ty (h - GRID_SIZE) mult e1) as [l e2].
    apply IH.
    replace (h - GRID_SIZE - GRID_SIZE * Z.of_nat fuel)
      with (h - GRID_SIZE * Z.of_nat (S fuel)) by lia.
    exact H.
Qed.

(** The fuel that [generateNewLanes] gives its loop is never what stops it:
    after that many rounds the test of the [while] is false. *)
Lemma generate_fuel_enough cam h :
  Qltb (sub cam (ofZ (GRID_SIZE * 5)))
       (ofZ (h - GRID_SIZE * Z.of_nat (generate_fuel cam h))) = false.
Proof.
  apply Qltb_ge. rewrite sub_eq. unfold generate_fuel, ofZ.
  set (x := ((inject_Z h - (cam - inject_Z (GRID_SIZE * 5))) / inject_Z GRID_SIZE)%Q).
  pose proof (Qle_ceiling x) as C.
  assert (N : (inject_Z (Qceiling x) <= inject_Z (Z.of_nat (Z.to_nat (Qceiling x))))%Q).
  { rewrite <- Zle_Qle. lia. }
  assert (X : (inject_Z h - (cam - inject_Z (GRID_SIZE * 5)) == x * 50)%Q).
  { subst x. change (inject_Z GRID_SIZE) with 50%Q. field. }
  unfold Z.sub. rewrite inject_Z_plus, inject_Z_opp, inject_Z_mult.
  change (inject_Z GRID_SIZE) with 50%Q.
  change (inject_Z (GRID_SIZE * 5)) with 250%Q in *.
  set (n := inject_Z (Z.of_nat (Z.to_nat (Qceiling x)))) in *.
  set (c := inject_Z (Qceiling x)) in *.
  lra.
Qed.


Lemma generateNewLanes_more_fuel g e k :
  let h := highest (lanes g) in
  generate_loop (generate_fuel (cameraY g) h + k) (cameraY g)
                (difficultyMultiplier g) h (lanes g) e =
  generate_loop (generate_fuel (cameraY g) h) (cameraY g)
                (difficultyMultiplier g) h (lanes g) e.
Proof.
  intro h. apply generate_loop_more. apply generate_fuel_enough.
Qed.

End LaneFieldFacts.

(** ** Invariants of the run loop *)

Module RunFacts.

Import Game GameFacts.

(** What a pressed key does: it restarts the game, or it is ignored, or,
    in play, it acts on the player alone. *)
Lemma keydown_effect g key e :
  ((startScreen g = true \/ gameOver g = true) /\ is_space key = true /\
   keydown g key e = restart g e) \/
  keydown g key e = (g, e) \/
  (startScreen g = false /\ gameOver g = false /\ playing g = true /\
   exists f,
     keydown g key e = (on_player g f, e) /\
     ((exists dx dy, f = fun p => Player.move p dx dy) \/
      f = Player.die \/ f = Player.skip)).
Proof.
  unfold keydown.
  destruct (startScreen g) eqn:Hs.
  { destruct key; try (right; left; reflexivity); left; auto. }
  destruct (gameOver g) eqn:Ho.
  { destruct key; try (right; left; reflexivity); left; auto. }
  destruct (playing g) eqn:Hp; [|auto].
  destruct key; auto; right; right; repeat (split; [reflexivity|]);
    eexists; (split; [reflexivity|]); eauto.
Qed.

(** A property of the game that the start of a session establishes and
    that keys in play and [update] keep holds after any events. *)
Lemma handleEvents_preserves (P : t -> Prop) :
  (forall g key e, P g -> P (fst (keydown g key e))) ->
  forall evs g e, P g -> P (snd (fst (handleEvents g evs e))).
Proof.
  intros K evs. induction evs as [|ev evs IH]; intros g e H; [exact H|].
  destruct ev as [|key|]; cbn [handleEvents]; [exact H| |now apply IH].
  unfold bind. pose proof (K g key e H) as H1.
  destruct (keydown g key e) as [g1 e1]. cbn [fst] in H1.
  destruct (is_escape key); [exact H1|now apply IH].
Qed.

Lemma run_preserves (P : t -> Prop) :
  (forall g key e, P g -> P (fst (keydown g key e))) ->
  (forall g e, P g -> P (fst (update g e))) ->
  forall frames g e, P g -> P (fst (run g frames e)).
Proof.
  intros K U frames.
  induction frames as [|evs frames IH]; intros g e H; cbn [run]; [exact H|].
  unfold bind, frame, bind.
  pose proof (handleEvents_preserves P K evs g e H) as H1.
  destruct (handleEvents g evs e) as [[b g1] e1]. cbn [fst snd] in *.
  pose proof (U g1 e1 H1) as H2.
  destruct (update g1 e1) as [g2 e2]. cbn [fst snd ret] in *.
  destruct b; [now apply IH|exact H2].
Qed.

Lemma reached_preserves (P : t -> Prop) :
  (forall e, P (fst (init e))) ->
  (forall g key e, P g -> P (fst (keydown g key e))) ->
  (forall g e, P g -> P (fst (update g e))) ->
  forall e frames, P (reached e frames).
Proof.
  intros I K U e frames. unfold reached.
  pose proof (I e) as H. destruct (init e) as [g e0].
  now apply run_preserves.
Qed.

(** [update] keeps what each of its steps keeps. *)
Lemma update_preserves (P : t -> Prop) :
  (forall g, P g -> P (set_player g (Player.update (player g)))) ->
  (forall g, P g -> P (updateCamera g)) ->
  (forall g e, P g -> P (fst (updateLanes g e))) ->
  (forall g, P g -> P (updateProgress g)) ->
  (forall g e, P g -> P (fst (generateNewLanes g e))) ->
  (forall g, P g -> P (cleanupOldLanes g)) ->
  (forall g e, P g -> P (fst (checkCollisions g e))) ->
  (forall g, P g -> P (updateParticles g)) ->
  (forall g, P g -> P (checkDeathZone g)) ->
  (forall g e, P g -> P (fst (handleDeath g e))) ->
  forall g e, P g -> P (fst (update g e)).
Proof.
  intros H1 H2 H3 H4 H5 H6 H7 H8 H9 H10 g e H. unfold update.
  destruct (negb (playing g) || gameOver g); [exact H|].
  unfold bind.
  pose proof (H3 _ e (H2 _ (H1 _ H))) as A3.
  destruct (updateLanes _ e) as [g3 e3]. cbn [fst] in A3.
  pose proof (H5 _ e3 (H4 _ A3)) as A5.
  destruct (generateNewLanes _ e3) as [g5 e5]. cbn [fst] in A5.
  pose proof (H7 _ e5 (H6 _ A5)) as A7.
  destruct (checkCollisions _ e5) as [g7 e7]. cbn [fst] in A7.
  apply H10, H9, H8, A7.
Qed.

End RunFacts.

(** ** Frame conditions, step by step *)

Module StepFacts.

Import Game GameFacts RunFacts.

Lemma checkCollisions_shape g e :
  exists p ps,
    fst (checkCollisions g e) = set_particles (set_player g p) ps.
Proof.
  assert (Same : exists p ps, g = set_particles (set_player g p) ps).
  { exists (player g), (particles g). now destruct g. }
  unfold checkCollisions.
  destruct (Player.dead (player g)); [exact Same|].
  destruct (getLaneAtY g _) as [l|]; [|exact Same].
  unfold resolve. destruct (Lane.type l).
  - exact Same.
  - destruct (existsb _ _); [|exact Same].
    destruct (kill_shape g e) as (ps & e' & ->).
    exists (Player.die (player g)), ps. reflexivity.
  - destruct (find _ _) as [lg|].
    + set (g' := set_player g _).
      destruct (off_edge _).
      * destruct (kill_shape g' e) as (ps & e' & ->).
        exists (Player.die (player g')), ps. now destruct g.
      * exists (player g'), (particles g'). now destruct g.
    + destruct (kill_shape g e) as (ps & e' & ->).
      exists (Player.die (player g)), ps. reflexivity.
Qed.

Lemma checkCollisions_dead g e :
  Player.dead (player g) = true -> checkCollisions g e = (g, e).
Proof. intro D. unfold checkCollisions. now rewrite D. Qed.

Lemma updateProgress_set_lanes g ls :
  updateProgress (set_lanes g ls) = set_lanes (updateProgress g) ls.
Proof.
  unfold updateProgress. cbn [set_lanes player bestProgress].
  now destruct (_ <? _).
Qed.

Lemma updateProgress_player g : player (updateProgress g) = player g.
Proof. unfold updateProgress. now destruct (_ <? _). Qed.

Lemma updateProgress_cameraY g : cameraY (updateProgress g) = cameraY g.
Proof. unfold updateProgress. now destruct (_ <? _). Qed.

Lemma updateProgress_particles g : particles (updateProgress g) = particles g.
Proof. unfold updateProgress. now destruct (_ <? _). Qed.

Lemma updateProgress_flags g :
  startScreen (updateProgress g) = startScreen g /\
  playing (updateProgress g) = playing g /\
  gameOver (updateProgress g) = gameOver g /\
  deathAnimationTimer (updateProgress g) = deathAnimationTimer g.
Proof. unfold updateProgress. now destruct (_ <? _). Qed.

Lemma updateCamera_player g : player (updateCamera g) = player g.
Proof. unfold updateCamera. now destruct (Qltb _ _). Qed.

Lemma updateCamera_particles g : particles (updateCamera g) = particles g.
Proof. unfold updateCamera. now destruct (Qltb _ _). Qed.

Lemma updateCamera_lanes g : lanes (updateCamera g) = lanes g.
Proof. unfold updateCamera. now destruct (Qltb _ _). Qed.

Lemma updateCamera_flags g :
  startScreen (updateCamera g) = startScreen g /\
  playing (updateCamera g) = playing g /\
  gameOver (updateCamera g) = gameOver g /\
  deathAnimationTimer (updateCamera g) = deathAnimationTimer g.
Proof. unfold updateCamera. now destruct (Qltb _ _). Qed.

(** The stages of one [update] of a game in play: the world steps end in
    a game [g6] that differs from the one after the camera and progress
    steps by its lanes only; collisions are resolved on [g6]; particles,
    death zone and death handling follow. *)
Lemma update_stages g e :
  playing g = true -> gameOver g = false ->
  exists ls e6,
    let g2 := updateCamera (set_player g (Player.update (player g))) in
    let g6 := set_lanes (updateProgress g2) ls in
    update g e =
    handleDeath
      (checkDeathZone (updateParticles (fst (checkCollisions g6 e6))))
      (snd (checkCollisions g6 e6)).
Proof.
  intros Hp Ho. unfold update. rewrite Hp, Ho. cbn [negb orb].
  set (g2 := updateCamera _).
  destruct (updateLanes_shape g2 e) as (ls1 & e1 & H1).
  rewrite (bind_eq _ _ _ _ _ H1). rewrite updateProgress_set_lanes.
  destruct (generateNewLanes_shape (set_lanes (updateProgress g2) ls1) e1)
    as (ls2 & e2 & H2).
  rewrite (bind_eq _ _ _ _ _ H2).
  cbv beta zeta. unfold cleanupOldLanes.
  exists (filter
            (fun l => Qltb (ofZ (Lane.y l))
                           (add (cameraY (updateProgress g2))
                                (ofZ (SCREEN_HEIGHT + GRID_SIZE * 3))))
            ls2), e2.
  cbv zeta. unfold bind.
  change (set_lanes (set_lanes (set_lanes (updateProgress g2) ls1) ls2))
    with (set_lanes (updateProgress g2)).
  change (cameraY (set_lanes (set_lanes (updateProgress g2) ls1) ls2))
    with (cameraY (updateProgress g2)).
  change (lanes (set_lanes (set_lanes (updateProgress g2) ls1) ls2)) with ls2.
  destruct (checkCollisions _ e2) as [g7 e7]. reflexivity.
Qed.

End StepFacts.

(** ** Session state machine *)

Module SessionFacts.

Import Game GameFacts RunFacts StepFacts.

Lemma keydown_not_playing g key e :
  playing g = false -> is_space key = false -> keydown g key e = (g, e).
Proof.
  intros Hp Hk. unfold keydown. rewrite Hp.
  destruct (startScreen g); [now destruct key|].
  destruct (gameOver g); now destruct key.
Qed.

Lemma handleEvents_not_playing evs :
  forall g e,
    playing g = false -> no_restart evs = true ->
    handleEvents g evs e = (negb (existsb Shape.is_quit evs), g, e).
Proof.
  induction evs as [|ev evs IH]; intros g e Hp Hn; [reflexivity|].
  cbn [no_restart forallb] in Hn. apply andb_true_iff in Hn as [Hk Hn].
  destruct ev as [|key|]; cbn [handleEvents existsb Shape.is_quit orb negb].
  - reflexivity.
  - apply negb_true_iff in Hk.
    rewrite (bind_eq _ _ _ _ _ (keydown_not_playing g key e Hp Hk)).
    destruct (is_escape key); [reflexivity|]. now apply IH.
  - now apply IH.
Qed.

Lemma handleEvents_returns evs :
  forall g e,
    fst (fst (handleEvents g evs e)) = negb (existsb Shape.is_quit evs).
Proof.
  induction evs as [|ev evs IH]; intros g e; [reflexivity|].
  destruct ev as [|key|]; cbn [handleEvents existsb Shape.is_quit orb negb].
  - reflexivity.
  - unfold bind. destruct (keydown g key e) as [g1 e1].
    destruct (is_escape key); [reflexivity|]. apply IH.
  - apply IH.
Qed.

Lemma handleEvents_stops_at_quit evs1 :
  forall q evs2 g e,
    Shape.is_quit q = true ->
    handleEvents g (evs1 ++ q :: evs2) e = handleEvents g (evs1 ++ [q]) e.
Proof.
  induction evs1 as [|ev evs1 IH]; intros q evs2 g e Hq.
  - cbn [app]. destruct q as [|key|]; cbn [handleEvents].
    + reflexivity.
    + cbn [Shape.is_quit] in Hq. unfold bind.
      destruct (keydown g key e) as [g1 e1]. now rewrite Hq.
    + discriminate Hq.
  - cbn [app]. destruct ev as [|key|]; cbn [handleEvents].
    + reflexivity.
    + unfold bind. destruct (keydown g key e) as [g1 e1].
      destruct (is_escape key); [reflexivity|]. now apply IH.
    + now apply IH.
Qed.

Lemma run_not_playing frames :
  forall g e,
    playing g = false -> forallb no_restart frames = true ->
    run g frames e = (g, e).
Proof.
  induction frames as [|evs frames IH]; intros g e Hp Hn; [reflexivity|].
  cbn [forallb] in Hn. apply andb_true_iff in Hn as [H1 H2].
  cbn [run]. unfold bind at 1. unfold frame.
  rewrite (bind_eq _ _ _ _ _ (handleEvents_not_playing evs g e Hp H1)).
  cbn [snd fst]. rewrite (bind_eq _ _ _ _ _ (update_idle g e (or_introl Hp))).
  cbn [ret fst snd]. destruct (negb _); [now apply IH|reflexivity].
Qed.

(** *** State tags *)

Lemma update_one_state g e :
  Shape.one_state g -> Shape.one_state (fst (update g e)).
Proof.
  intro H.
  destruct (playing g) eqn:Hp; [destruct (gameOver g) eqn:Ho|];
    try (rewrite update_idle by auto; exact H).
  assert (S : Shape.in_session g).
  { unfold Shape.in_session. destruct H as [(?&?&?)|[(?&?&?)|(?&?&?)]];
      try congruence. auto. }
  assert (S' : Shape.in_session (fst (update g e))).
  { revert S. apply (update_preserves Shape.in_session); unfold Shape.in_session;
      clear; intros g.
    - auto.
    - destruct (updateCamera_flags g) as (-> & -> & -> & _). auto.
    - intros e. destruct (updateLanes_shape g e) as (ls & e' & ->). auto.
    - destruct (updateProgress_flags g) as (-> & -> & -> & _). auto.
    - intros e. destruct (generateNewLanes_shape g e) as (ls & e' & ->). auto.
    - auto.
    - intros e. destruct (checkCollisions_shape g e) as (p & ps & ->). auto.
    - auto.
    - unfold checkDeathZone. destruct (Qltb _ _); auto.
    - intros e [Hs Hf]. unfold handleDeath.
      destruct (Player.dead (player g)); [|auto].
      destruct (_ >? 60); [|auto].
      destruct (endGame_fields (set_deathAnimationTimer g
                                  (deathAnimationTimer g + 1)) e)
        as (H1 & H2 & H3 & _).
      cbv zeta in *. rewrite H1, H2, H3. auto. }
  unfold Shape.one_state. destruct S' as [Hs [[A B]|[A B]]]; auto.
Qed.

Lemma keydown_one_state g key e :
  Shape.one_state g -> Shape.one_state (fst (keydown g key e)).
Proof.
  intro H.
  destruct (keydown_effect g key e)
    as [(_ & _ & ->)|[->|(_ & _ & _ & f & -> & _)]].
  - destruct (restart_fields g e)
      as (_ & _ & _ & _ & _ & _ & _ & _ & _ & Hp & Ho & Hs & _).
    right. left. auto.
  - exact H.
  - exact H.
Qed.

Lemma init_one_state e : Shape.one_state (fst (init e)).
Proof.
  unfold init, bind, ret.
  destruct (loadHighScore e) as [hs e1].
  destruct (initializeLanes 1 e1) as [ls e2]. left. cbn. auto.
Qed.

End SessionFacts.

(** ** Death *)

Module DeathFacts.

Import Game GameFacts RunFacts StepFacts SessionFacts.

Lemma die_idem p : Player.dead p = true -> Player.die p = p.
Proof. intro D. destruct p. cbn in *. now subst. Qed.

Lemma update_dead_stays g e :
  Player.dead (player g) = true ->
  Player.dead (player (fst (update g e))) = true.
Proof.
  apply (update_preserves (fun g => Player.dead (player g) = true));
    clear; intros g.
  - cbn [player set_player]. now rewrite PlayerFacts.update_dead.
  - now rewrite updateCamera_player.
  - intros e. now destruct (updateLanes_shape g e) as (ls & e' & ->).
  - now rewrite updateProgress_player.
  - intros e. now destruct (generateNewLanes_shape g e) as (ls & e' & ->).
  - auto.
  - intros e D. now rewrite checkCollisions_dead.
  - auto.
  - unfold checkDeathZone. now destruct (Qltb _ _).
  - intros e D. destruct (handleDeath_fields g e) as (_&_&_&_& -> &_). exact D.
Qed.

Lemma keydown_dead_stays g key e :
  is_space key = false ->
  Player.dead (player g) = true ->
  Player.dead (player (fst (keydown g key e))) = true.
Proof.
  intros Hk D.
  destruct (keydown_effect g key e)
    as [(_ & Sp & _)|[->|(_ & _ & _ & f & -> & [(dx & dy & ->)|[->| ->]])]];
    try congruence; cbn [fst on_player player set_player];
    try exact D; try reflexivity.
  now rewrite PlayerFacts.move_dead.
Qed.

(** A property kept by the keys other than the restart key and by
    [update] is kept by frames in which the restart key is not pressed. *)
Lemma handleEvents_keeps (P : t -> Prop) :
  (forall g key e, is_space key = false -> P g -> P (fst (keydown g key e))) ->
  forall evs g e,
    no_restart evs = true -> P g -> P (snd (fst (handleEvents g evs e))).
Proof.
  intros K evs. induction evs as [|ev evs IH]; intros g e Hn H; [exact H|].
  cbn [no_restart forallb] in Hn. apply andb_true_iff in Hn as [Hk Hn].
  destruct ev as [|key|]; cbn [handleEvents]; [exact H| |now apply IH].
  apply negb_true_iff in Hk.
  unfold bind. pose proof (K g key e Hk H) as H1.
  destruct (keydown g key e) as [g1 e1]. cbn [fst] in H1.
  destruct (is_escape key); [exact H1|now apply IH].
Qed.

Lemma run_keeps (P : t -> Prop) :
  (forall g key e, is_space key = false -> P g -> P (fst (keydown g key e))) ->
  (forall g e, P g -> P (fst (update g e))) ->
  forall frames g e,
    forallb no_restart frames = true -> P g -> P (fst (run g frames e)).
Proof.
  intros K U frames.
  induction frames as [|evs frames IH]; intros g e Hn H; cbn [run]; [exact H|].
  cbn [forallb] in Hn. apply andb_true_iff in Hn as [H1 H2].
  unfold bind, frame, bind.
  pose proof (handleEvents_keeps P K evs g e H1 H) as A.
  destruct (handleEvents g evs e) as [[b g1] e1]. cbn [fst snd] in *.
  pose proof (U g1 e1 A) as B.
  destruct (update g1 e1) as [g2 e2]. cbn [fst snd ret] in *.
  destruct b; [now apply IH|exact B].
Qed.

(** One [update] of a game in play whose player is dead: the death timer
    advances by one frame and the game ends when it passes 60. *)
Lemma update_dead_timer g e :
  playing g = true -> gameOver g = false ->
  Player.dead (player g) = true ->
  let g' := fst (update g e) in
  deathAnimationTimer g' = deathAnimationTimer g + 1 /\
  startScreen g' = startScreen g /\
  (if deathAnimationTimer g + 1 >? 60
   then playing g' = false /\ gameOver g' = true /\ score g' <= highScore g'
   else playing g' = true /\ gameOver g' = false).
Proof.
  intros Hp Ho D g'. subst g'.
  destruct (update_stages g e Hp Ho) as (ls & e6 & ->). cbv zeta.
  set (g2 := updateCamera _).
  set (g6 := set_lanes (updateProgress g2) ls).
  assert (D6 : Player.dead (player g6) = true).
  { subst g6 g2. cbn [player set_lanes].
    rewrite updateProgress_player, updateCamera_player.
    cbn [player set_player]. now rewrite PlayerFacts.update_dead. }
  rewrite checkCollisions_dead by exact D6. cbn [fst snd].
  assert (F6 : startScreen g6 = startScreen g /\ playing g6 = true /\
               gameOver g6 = false /\
               deathAnimationTimer g6 = deathAnimationTimer g).
  { subst g6. cbn [startScreen playing gameOver deathAnimationTimer set_lanes].
    destruct (updateProgress_flags g2) as (-> & -> & -> & ->).
    subst g2. destruct (updateCamera_flags (set_player g (Player.update (player g))))
      as (-> & -> & -> & ->). cbn. auto. }
  destruct F6 as (Fs & Fp & Fo & Ft).
  set (g9 := checkDeathZone (updateParticles g6)).
  assert (F9 : startScreen g9 = startScreen g /\ playing g9 = true /\
               gameOver g9 = false /\
               deathAnimationTimer g9 = deathAnimationTimer g /\
               Player.dead (player g9) = true).
  { subst g9. unfold checkDeathZone. destruct (Qltb _ _); cbn; auto. }
  destruct F9 as (Gs & Gp & Go & Gt & Gd).
  unfold handleDeath. rewrite Gd.
  cbn [deathAnimationTimer set_deathAnimationTimer]. rewrite Gt.
  destruct (deathAnimationTimer g + 1 >? 60).
  - destruct (endGame_fields
                (set_deathAnimationTimer g9 (deathAnimationTimer g + 1)) e6)
      as (H1 & H2 & H3 & H4 & _ & _ & _ & _ & _ & _ & H11 & _ & H13).
    cbv zeta in *. rewrite H1, H2, H3, H4, H11, H13. cbn. repeat split; auto. lia.
  - cbn. auto.
Qed.

Lemma handleEvents_calm g evs e :
  Shape.calm evs = true ->
  fst (fst (handleEvents g evs e)) = true /\
  session (snd (fst (handleEvents g evs e))) = session g.
Proof.
  intro C. apply andb_true_iff in C as [Hn Hq]. split.
  - now rewrite handleEvents_returns.
  - apply handleEvents_session. now left.
Qed.

(** The death timer counts the frames of a dead player: the game goes on
    while it is at 60 or below and ends in the frame that takes it to 61. *)
Lemma run_dead_countdown frames :
  forall g e,
    forallb Shape.calm frames = true ->
    playing g = true -> gameOver g = false ->
    Player.dead (player g) = true ->
    deathAnimationTimer g <= 60 ->
    deathAnimationTimer g + Z.of_nat (List.length frames) <= 61 ->
    let g' := fst (run g frames e) in
    deathAnimationTimer g' =
      deathAnimationTimer g + Z.of_nat (List.length frames) /\
    (if deathAnimationTimer g' >? 60
     then playing g' = false /\ gameOver g' = true /\ score g' <= highScore g'
     else playing g' = true /\ gameOver g' = false).
Proof.
  induction frames as [|evs frames IH]; intros g e C Hp Ho D T0 T.
  - cbn [run ret fst List.length Z.of_nat] in *. rewrite Z.add_0_r in *.
    split; [reflexivity|].
    destruct (_ >? 60) eqn:E; [apply Z.gtb_lt in E; lia|auto].
  - cbn [forallb] in C. apply andb_true_iff in C as [C1 C2].
    cbn [List.length] in *. rewrite Nat2Z.inj_succ in *.
    cbn [run]. unfold bind at 1. unfold frame, bind.
    destruct (handleEvents_calm g evs e C1) as [B S].
    assert (D1 : Player.dead (player (snd (fst (handleEvents g evs e)))) = true).
    { apply (handleEvents_keeps (fun g => Player.dead (player g) = true));
        auto using keydown_dead_stays.
      apply andb_true_iff in C1. tauto. }
    destruct (handleEvents g evs e) as [[b g1] e1]. cbn [fst snd] in *.
    subst b. unfold session in S. injection S as _ S2 S3 _ _ _ _ _ S9 _.
    assert (Hp1 : playing g1 = true) by congruence.
    assert (Ho1 : gameOver g1 = false) by congruence.
    destruct (update_dead_timer g1 e1 Hp1 Ho1 D1) as (T2 & _ & F).
    pose proof (update_dead_stays g1 e1 D1) as D2.
    destruct (update g1 e1) as [g2 e2]. cbn [fst snd ret] in *.
    destruct (deathAnimationTimer g1 + 1 >? 60) eqn:E.
    + apply Z.gtb_lt in E.
      assert (N : frames = []) by (destruct frames; [reflexivity|cbn in T; lia]).
      subst frames. cbn [run ret fst List.length Z.of_nat].
      split; [lia|].
      replace (deathAnimationTimer g2 >? 60) with true
        by (symmetry; apply Z.gtb_lt; lia).
      exact F.
    + destruct F as [Hp2 Ho2].
      rewrite Z.gtb_ltb, Z.ltb_ge in E.
      destruct (IH g2 e2 C2 Hp2 Ho2 D2) as (A1 & A2); [lia|lia|].
      cbv zeta. split; [lia|]. exact A2.
Qed.

End DeathFacts.

(** ** The hop animation *)

Module HopFacts.

Import Player.
Import Shape.

Lemma update_same_cell p : same_cell p (update p).
Proof.
  unfold update, same_cell.
  destruct (moving p); [destruct (_ && _)|]; cbn; auto.
Qed.

Lemma update_on_target p : on_target p -> on_target (update p).
Proof.
  unfold on_target, update. intros (M & X & Y). rewrite M. cbn. auto.
Qed.

Lemma Qabs_lt_2 a : Qltb (Qabs a) 2 = false -> (2 <= Qabs a)%Q.
Proof. intro H. now apply Qltb_ge in H. Qed.

(** One frame of the animation: the player lands on the target, or stays
    in motion with seven tenths of the distance left. *)
Lemma update_contracts p B :
  moving p = true -> within B p ->
  on_target (update p) \/
  (moving (update p) = true /\ within (B * (7 # 10)) (update p) /\ (2 <= B)%Q).
Proof.
  intros M [HX HY]. unfold update. rewrite M.
  destruct (Qltb (Qabs (sub (ofZ (targetX p)) (x p))) 2
            && Qltb (Qabs (sub (ofZ (targetY p)) (y p))) 2) eqn:E.
  - left. unfold on_target. cbn. auto.
  - right. cbn [moving x y targetX targetY]. split; [reflexivity|].
    apply Qabs_Qle_condition in HX. apply Qabs_Qle_condition in HY.
    unfold within. cbn [moving x y targetX targetY].
    unfold ofZ in *.
    assert (EX : (inject_Z (targetX p)
                  - add (x p) (mul (sub (inject_Z (targetX p)) (x p)) (3 # 10))
                  == (inject_Z (targetX p) - x p) * (7 # 10))%Q).
    { rewrite add_eq, mul_eq, sub_eq. field. }
    assert (EY : (inject_Z (targetY p)
                  - add (y p) (mul (sub (inject_Z (targetY p)) (y p)) (3 # 10))
                  == (inject_Z (targetY p) - y p) * (7 # 10))%Q).
    { rewrite add_eq, mul_eq, sub_eq. field. }
    rewrite EX, EY.
    repeat split.
    + apply Qabs_Qle_condition. lra.
    + apply Qabs_Qle_condition. lra.
    + apply andb_false_iff in E as [E|E]; apply Qabs_lt_2 in E;
        rewrite sub_eq in E.
      * eapply Qle_trans; [exact E|]. apply Qabs_Qle_condition. lra.
      * eapply Qle_trans; [exact E|]. apply Qabs_Qle_condition. lra.
Qed.

Lemma updates_S n p : updates (S n) p = update (updates n p).
Proof. reflexivity. Qed.

Lemma iter_same_cell n p : same_cell p (updates n p).
Proof.
  induction n as [|n IH]; [unfold same_cell; cbn; auto|].
  rewrite updates_S.
  destruct IH as (A1 & A2 & A3 & A4 & A5).
  destruct (update_same_cell (updates n p)) as (B1 & B2 & B3 & B4 & B5).
  unfold same_cell. repeat split; congruence.
Qed.

Lemma iter_contracts n :
  forall p B,
    moving p = true -> within B p ->
    on_target (updates n p) \/
    (moving (updates n p) = true /\
     within (shrink n B) (updates n p)).
Proof.
  induction n as [|n IH]; intros p B M W.
  - right. auto.
  - rewrite updates_S.
    cbn [shrink]. destruct (IH p B M W) as [T|[M' W']].
    + left. now apply update_on_target.
    + destruct (update_contracts _ _ M' W') as [T|(M2 & W2 & _)]; auto.
Qed.

Lemma iter_cooldown n :
  forall p, moveCooldown (updates n p)
            <= Z.max 0 (moveCooldown p - Z.of_nat n).
Proof.
  induction n as [|n IH]; intro p.
  - cbn. lia.
  - rewrite updates_S.
    specialize (IH p). rewrite Nat2Z.inj_succ.
    set (q := updates n p) in *.
    assert (C : moveCooldown (update q) =
                if 0 <? moveCooldown q then moveCooldown q - 1
                else moveCooldown q).
    { unfold update. destruct (moving q); [destruct (_ && _)|]; reflexivity. }
    rewrite C. destruct (0 <? moveCooldown q) eqn:E.
    + apply Z.ltb_lt in E. lia.
    + apply Z.ltb_ge in E. lia.
Qed.

(** A hop of at most one cell is over after eleven frames. *)
Lemma hop_lands p :
  moving p = true -> within 50 p ->
  on_target (updates 11 p).
Proof.
  intros M W.
  destruct (iter_contracts 10 p 50 M W) as [T|[M' W']].
  - rewrite (updates_S 10 p).
    now apply update_on_target.
  - rewrite (updates_S 10 p).
    destruct (update_contracts _ _ M' W') as [T|(_ & _ & L)]; [exact T|].
    exfalso. revert L. apply Qlt_not_le. vm_compute. reflexivity.
Qed.

Lemma hop_ends p :
  moving p = true -> within 50 p -> moveCooldown p <= 11 ->
  let q := updates 11 p in
  moving q = false /\
  x q = ofZ (targetX p) /\ y q = ofZ (targetY p) /\
  gridX q = gridX p /\ gridY q = gridY p /\
  dead q = dead p /\ moveCooldown q <= 0.
Proof.
  intros M W C q.
  destruct (hop_lands p M W) as (M' & X & Y). fold q in M', X, Y.
  destruct (iter_same_cell 11 p) as (G1 & G2 & T1 & T2 & D).
  fold q in G1, G2, T1, T2, D.
  pose proof (iter_cooldown 11 p) as CD. fold q in CD.
  rewrite T1 in X. rewrite T2 in Y.
  repeat split; auto. change (Z.of_nat 11) with 11 in CD. lia.
Qed.

End HopFacts.

(** ** The random source *)

Module RandomFacts.

Import Random.

Lemma unit_interval_range q : (0 <= unit_interval q < 1)%Q.
Proof.
  unfold unit_interval. rewrite Qred_correct.
  pose proof (Qfloor_le q) as L. pose proof (Qlt_floor q) as U.
  rewrite inject_Z_plus in U. change (inject_Z 1) with 1%Q in U.
  split; lra.
Qed.

Lemma random_range e : (0 <= fst (random e) < 1)%Q.
Proof. apply unit_interval_range. Qed.

Lemma floor_scaled n u :
  0 < n -> (0 <= u < 1)%Q -> 0 <= Qfloor (mul (ofZ n) u) < n.
Proof.
  intros Hn [U0 U1]. unfold ofZ.
  assert (N : (0 < inject_Z n)%Q) by (now rewrite (Zlt_Qlt 0 n) in Hn).
  assert (P : (0 <= mul (inject_Z n) u)%Q).
  { rewrite mul_eq. apply Qmult_le_0_compat; [now apply Qlt_le_weak|exact U0]. }
  assert (L : (mul (inject_Z n) u < inject_Z n)%Q).
  { rewrite mul_eq. setoid_replace (inject_Z n) with (inject_Z n * 1)%Q at 2 by ring.
    apply Qmult_lt_l; assumption. }
  split.
  - change 0 with (Qfloor 0). now apply Qfloor_resp_le.
  - rewrite Zlt_Qlt. eapply Qle_lt_trans; [apply Qfloor_le|exact L].
Qed.

Lemma randint_range a b e :
  a <= b -> a <= fst (randint a b e) <= b.
Proof.
  intro H. unfold randint, bind, ret. cbn [fst random].
  pose proof (floor_scaled (b - a + 1) (unit_interval (rsrc e (rpos e)))
                ltac:(lia) (unit_interval_range _)).
  lia.
Qed.

Lemma choice_in {A} (d : A) (l : list A) e :
  l <> [] -> In (fst (choice d l e)) l.
Proof.
  intro H. unfold choice, bind, ret. cbn [fst random].
  apply nth_In.
  assert (0 < Z.of_nat (List.length l)) by (destruct l; [congruence|cbn; lia]).
  pose proof (floor_scaled _ (unit_interval (rsrc e (rpos e)))
                H0 (unit_interval_range _)).
  lia.
Qed.

Lemma uniform_range a b e :
  a <= b -> (inject_Z a <= fst (uniform a b e) <= inject_Z b)%Q.
Proof.
  intro H. unfold uniform, bind, ret. cbn [fst random].
  destruct (unit_interval_range (rsrc e (rpos e))) as [U0 U1].
  set (u := unit_interval _) in *.
  rewrite add_eq, mul_eq. unfold ofZ.
  unfold Z.sub. rewrite inject_Z_plus, inject_Z_opp.
  assert (D : (0 <= inject_Z b - inject_Z a)%Q).
  { rewrite Zle_Qle in H. lra. }
  split; nra.
Qed.

End RandomFacts.

(** ** Lanes and their traffic *)

Module LaneFacts.

Import Shape RandomFacts.

Lemma mapM_Forall {A B} (f : A -> M B) (P : A -> Prop) (R : B -> Prop) :
  (forall a e, P a -> R (fst (f a e))) ->
  forall l e, Forall P l -> Forall R (fst (mapM f l e)).
Proof.
  intros H l. induction l as [|a l IH]; intros e F; cbn [mapM].
  - constructor.
  - inversion F as [|? ? Pa Fl]; subst. unfold bind, ret.
    pose proof (H a e Pa) as Ra. destruct (f a e) as [b e1].
    pose proof (IH e1 Fl) as Rl. destruct (mapM f l e1) as [bs e2].
    constructor; assumption.
Qed.

Lemma sq_direction d :
  d = 1 \/ d = -1 -> (inject_Z d * inject_Z d == 1)%Q.
Proof. intros [-> | ->]; reflexivity. Qed.

(** Moving the obstacles and dropping those out of range. *)
Lemma advance_ok l k obs :
  Forall (fun o => obstacle_shape l k o /\ obstacle_speed l k o) obs ->
  Forall (fun o => obstacle_shape l k o /\ obstacle_speed l k o /\
                   obstacle_in_range k o)
         (Lane.advance (t_margin k) obs).
Proof.
  intro F. unfold Lane.advance. apply Forall_forall. intros o Ho.
  apply filter_In in Ho as [Hi Hr]. apply in_map_iff in Hi as (o0 & <- & Hi).
  rewrite Forall_forall in F. destruct (F o0 Hi) as [S V].
  split; [exact S|]. split; [exact V|].
  apply negb_true_iff, orb_false_iff in Hr as [R1 R2].
  apply Qltb_ge in R1. apply Qltb_ge in R2.
  unfold obstacle_in_range. split; assumption.
Qed.

Lemma in_range_forget l k obs :
  Forall (fun o => obstacle_shape l k o /\ obstacle_speed l k o /\
                   obstacle_in_range k o) obs ->
  Forall (fun o => obstacle_shape l k o /\ obstacle_speed l k o) obs.
Proof. apply Forall_impl. tauto. Qed.

(** The speed that a lane gives to a new obstacle. *)
Lemma spawn_speed (l : Lane.t) vmin vmax e :
  vmin <= vmax ->
  Lane.direction l = 1 \/ Lane.direction l = -1 ->
  (1 <= Lane.difficultyMultiplier l)%Q ->
  let u := fst (Random.uniform vmin vmax e) in
  let s := mul (mul u (Lane.difficultyMultiplier l)) (ofZ (Lane.direction l)) in
  (inject_Z vmin * Lane.difficultyMultiplier l
   <= s * inject_Z (Lane.direction l)
   <= inject_Z vmax * Lane.difficultyMultiplier l)%Q.
Proof.
  intros H D M u s. subst s. unfold ofZ.
  destruct (uniform_range vmin vmax e H) as [U1 U2]. fold u in U1, U2.
  pose proof (sq_direction _ D) as Sq.
  rewrite !mul_eq.
  setoid_replace (u * Lane.difficultyMultiplier l * inject_Z (Lane.direction l)
                  * inject_Z (Lane.direction l))%Q
    with (u * Lane.difficultyMultiplier l
          * (inject_Z (Lane.direction l) * inject_Z (Lane.direction l)))%Q
    by ring.
  rewrite Sq. split; nra.
Qed.

Lemma update_road_ok l e :
  traffic_ok l vehicles -> traffic_ok (fst (Lane.update_road l e)) vehicles.
Proof.
  intros ((D & I & T) & M & F). unfold Lane.update_road.
  cbn [t_imin t_imax vehicles] in I.
  destruct (Lane.spawnInterval l <=? Lane.spawnTimer l + 1) eqn:E.
  - unfold bind, ret.
    pose proof (spawn_speed l VEHICLE_MIN_SPEED VEHICLE_MAX_SPEED e
                  ltac:(discriminate) D M) as V.
    destruct (Random.uniform VEHICLE_MIN_SPEED VEHICLE_MAX_SPEED e) as [u e1].
    cbn [fst] in V. unfold Obstacle.vehicle, bind, ret.
    pose proof (randint_range 60 100 e1 ltac:(lia)) as W.
    destruct (Random.randint 60 100 e1) as [w e2]. cbn [fst] in W.
    destruct (Random.choice RED _ e2) as [c e3]. cbn [fst].
    split; [|split].
    + repeat split; cbn; try tauto; lia.
    + exact M.
    + apply (advance_ok l vehicles). apply Forall_app. split.
      * now apply in_range_forget.
      * constructor; [|constructor]. split.
        -- repeat split; cbn; lia.
        -- exact V.
  - apply Z.leb_gt in E. unfold ret. cbn [fst].
    split; [|split].
    + repeat split; cbn; try tauto; lia.
    + exact M.
    + apply (advance_ok l vehicles). now apply in_range_forget.
Qed.

Lemma update_water_ok l e :
  traffic_ok l logs -> traffic_ok (fst (Lane.update_water l e)) logs.
Proof.
  intros ((D & I & T) & M & F). unfold Lane.update_water.
  cbn [t_imin t_imax logs] in I.
  destruct (Lane.spawnInterval l <=? Lane.spawnTimer l + 1) eqn:E.
  - unfold bind, ret.
    pose proof (spawn_speed l LOG_MIN_SPEED LOG_MAX_SPEED e
                  ltac:(discriminate) D M) as V.
    destruct (Random.uniform LOG_MIN_SPEED LOG_MAX_SPEED e) as [u e1].
    cbn [fst] in V. unfold Obstacle.log, bind, ret.
    pose proof (randint_range 100 180 e1 ltac:(lia)) as W.
    destruct (Random.randint 100 180 e1) as [w e2]. cbn [fst] in W. cbn [fst].
    split; [|split].
    + repeat split; cbn; try tauto; lia.
    + exact M.
    + apply (advance_ok l logs). apply Forall_app. split.
      * now apply in_range_forget.
      * constructor; [|constructor]. split.
        -- repeat split; cbn; lia.
        -- exact V.
  - apply Z.leb_gt in E. unfold ret. cbn [fst].
    split; [|split].
    + repeat split; cbn; try tauto; lia.
    + exact M.
    + apply (advance_ok l logs). now apply in_range_forget.
Qed.

Lemma update_ok l e : lane_ok l -> lane_ok (fst (Lane.update l e)).
Proof.
  unfold lane_ok, Lane.update. destruct (Lane.type l) eqn:T.
  - intro H. cbn [fst ret]. now rewrite T.
  - intro H. pose proof (update_road_ok l e H) as H'.
    replace (Lane.type (fst (Lane.update_road l e))) with road; [exact H'|].
    unfold Lane.update_road. destruct (_ <=? _).
    + unfold bind, ret.
      destruct (Random.uniform _ _ e) as [u e1].
      destruct (Obstacle.vehicle _ _ _ e1) as [v e2]. cbn. now rewrite T.
    + cbn. now rewrite T.
  - intro H. pose proof (update_water_ok l e H) as H'.
    replace (Lane.type (fst (Lane.update_water l e))) with water; [exact H'|].
    unfold Lane.update_water. destruct (_ <=? _).
    + unfold bind, ret.
      destruct (Random.uniform _ _ e) as [u e1].
      destruct (Obstacle.log _ _ _ e1) as [v e2]. cbn. now rewrite T.
    + cbn. now rewrite T.
Qed.

Lemma direction_choice e :
  let d := fst (Random.choice (-1) [-1; 1] e) in d = 1 \/ d = -1.
Proof.
  cbv zeta.
  pose proof (choice_in (-1) [-1; 1] e ltac:(discriminate)) as H.
  cbn [In] in H. lia.
Qed.

Lemma make_ok ty y0 mult e :
  (1 <= mult)%Q -> lane_ok (fst (Lane.make ty y0 mult e)).
Proof.
  intro M. destruct ty; cbn [Lane.make].
  - unfold Lane.GrassLane, bind, ret.
    destruct (Random.randint 0 3 e) as [n e1].
    destruct (repeatM _ _ e1) as [fl e2]. reflexivity.
  - unfold Lane.RoadLane, bind, ret.
    pose proof (direction_choice e) as D.
    destruct (Random.choice (-1) [-1; 1] e) as [d e1]. cbn [fst] in D.
    pose proof (randint_range 40 80 e1 ltac:(lia)) as I.
    destruct (Random.randint 40 80 e1) as [si e2]. cbn [fst] in *.
    unfold lane_ok, traffic_ok, lane_timing. cbn. repeat split; auto; lia.
  - unfold Lane.WaterLane, bind, ret.
    pose proof (direction_choice e) as D.
    destruct (Random.choice (-1) [-1; 1] e) as [d e1]. cbn [fst] in D.
    pose proof (randint_range 60 100 e1 ltac:(lia)) as I.
    destruct (Random.randint 60 100 e1) as [si e2]. cbn [fst] in *.
    unfold lane_ok, traffic_ok, lane_timing. cbn. repeat split; auto; lia.
Qed.

End LaneFacts.

(** ** The lane field of the game *)

Module FieldFacts.

Import Game GameFacts RunFacts StepFacts Shape LaneFacts.

Lemma initializeLanes_ok mult e :
  (1 <= mult)%Q -> Forall lane_ok (fst (initializeLanes mult e)).
Proof.
  intro M. unfold initializeLanes, bind, ret.
  pose proof (mapM_Forall
                (fun i => Lane.GrassLane (SCREEN_HEIGHT - i * GRID_SIZE))
                (fun _ => True) lane_ok
                (fun i e' _ => make_ok grass _ mult e' M)
                (range 3) e) as S.
  destruct (mapM _ (range 3) e) as [safe e1]. cbn [fst] in S.
  assert (Mk : forall i e', True ->
             lane_ok (fst ((ty <- Random.choices grass lane_types [2; 3; 2] ;;
                            Lane.make ty (SCREEN_HEIGHT - (i + 3) * GRID_SIZE)
                                      mult) e'))).
  { intros i e' _. unfold bind.
    destruct (Random.choices grass lane_types [2; 3; 2] e') as [ty e2].
    now apply make_ok. }
  pose proof (mapM_Forall _ (fun _ => True) lane_ok Mk (range 20) e1) as R.
  destruct (mapM _ (range 20) e1) as [more e2]. cbn [fst] in *.
  apply Forall_app. split; [apply S|apply R]; apply Forall_forall; auto.
Qed.

Lemma generate_loop_ok fuel :
  forall cam mult h ls e,
    (1 <= mult)%Q -> Forall lane_ok ls ->
    Forall lane_ok (fst (generate_loop fuel cam mult h ls e)).
Proof.
  induction fuel as [|fuel IH]; intros cam mult h ls e M F;
    cbn [generate_loop]; [exact F|].
  destruct (Qltb _ _); [|exact F]. unfold bind.
  destruct (Random.choices grass lane_types (laneWeights ls) e) as [ty e1].
  pose proof (make_ok ty (h - GRID_SIZE) mult e1 M) as K.
  destruct (Lane.make ty (h - GRID_SIZE) mult e1) as [l e2]. cbn [fst] in K.
  apply IH; [exact M|]. apply Forall_app. split; [exact F|].
  constructor; [exact K|constructor].
Qed.

Lemma init_field_ok e : field_ok (fst (init e)).
Proof.
  unfold init, bind, ret. destruct (loadHighScore e) as [hs e1].
  pose proof (initializeLanes_ok 1 e1 ltac:(discriminate)) as L.
  destruct (initializeLanes 1 e1) as [ls e2]. split; [discriminate|exact L].
Qed.

Lemma restart_field_ok g e : field_ok (fst (restart g e)).
Proof.
  unfold restart, bind, ret.
  pose proof (initializeLanes_ok 1 e ltac:(discriminate)) as L.
  destruct (initializeLanes 1 e) as [ls e2]. split; [discriminate|exact L].
Qed.

Lemma keydown_field_ok g key e :
  field_ok g -> field_ok (fst (keydown g key e)).
Proof.
  intro H.
  destruct (keydown_effect g key e)
    as [(_ & _ & ->)|[->|(_ & _ & _ & f & -> & _)]].
  - apply restart_field_ok.
  - exact H.
  - exact H.
Qed.

Lemma update_field_ok g e : field_ok g -> field_ok (fst (update g e)).
Proof.
  apply (update_preserves field_ok); clear; intros g.
  - auto.
  - unfold field_ok, updateCamera. now destruct (Qltb _ _).
  - intros e [M F]. unfold updateLanes, bind, ret.
    pose proof (mapM_Forall Lane.update lane_ok lane_ok
                  (fun l e' => update_ok l e') (lanes g) e F) as F'.
    destruct (mapM Lane.update (lanes g) e) as [ls e']. split; assumption.
  - intros [M F]. unfold updateProgress.
    destruct (_ <? _); [|split; assumption].
    split; [|exact F]. cbn [difficultyMultiplier].
    destruct (_ =? 0); [|exact M]. rewrite add_eq. lra.
  - intros e [M F]. unfold generateNewLanes, bind, ret.
    pose proof (generate_loop_ok
                  (generate_fuel (cameraY g) (highest (lanes g))) (cameraY g)
                  (difficultyMultiplier g) (highest (lanes g)) (lanes g) e M F)
      as F'.
    destruct (generate_loop _ _ _ _ _ e) as [ls e']. split; assumption.
  - intros [M F]. split; [exact M|]. unfold cleanupOldLanes. cbn [lanes set_lanes].
    apply Forall_forall. intros l Hl. apply filter_In in Hl as [Hl _].
    rewrite Forall_forall in F. now apply F.
  - intros e H. destruct (checkCollisions_shape g e) as (p & ps & ->). exact H.
  - auto.
  - unfold checkDeathZone. now destruct (Qltb _ _).
  - intros e [M F].
    destruct (handleDeath_fields g e) as (_&_&_&_&_& L &_& Dm &_).
    unfold field_ok. now rewrite L, Dm.
Qed.

Lemma reached_field_ok e frames : field_ok (reached e frames).
Proof.
  apply (reached_preserves field_ok).
  - apply init_field_ok.
  - intros g key e'. apply keydown_field_ok.
  - intros g e'. apply update_field_ok.
Qed.

End FieldFacts.

(** ** The rows of the lane field *)

Module RowFacts.

Import Game GameFacts RunFacts StepFacts Shape.

Lemma make_y ty y0 mult e : Lane.y (fst (Lane.make ty y0 mult e)) = y0.
Proof.
  destruct ty; cbn [Lane.make].
  - unfold Lane.GrassLane, bind, ret.
    destruct (Random.randint 0 3 e) as [n e1].
    destruct (repeatM _ _ e1) as [fl e2]. reflexivity.
  - unfold Lane.RoadLane, bind, ret.
    destruct (Random.choice _ _ e) as [d e1].
    destruct (Random.randint 40 80 e1) as [si e2]. reflexivity.
  - unfold Lane.WaterLane, bind, ret.
    destruct (Random.choice _ _ e) as [d e1].
    destruct (Random.randint 60 100 e1) as [si e2]. reflexivity.
Qed.

Lemma update_y l e : Lane.y (fst (Lane.update l e)) = Lane.y l.
Proof.
  unfold Lane.update. destruct (Lane.type l); [reflexivity| |].
  - unfold Lane.update_road. destruct (_ <=? _); [|reflexivity].
    unfold bind, ret. destruct (Random.uniform _ _ e) as [u e1].
    destruct (Obstacle.vehicle _ _ _ e1) as [v e2]. reflexivity.
  - unfold Lane.update_water. destruct (_ <=? _); [|reflexivity].
    unfold bind, ret. destruct (Random.uniform _ _ e) as [u e1].
    destruct (Obstacle.log _ _ _ e1) as [v e2]. reflexivity.
Qed.

Lemma mapM_map {A B C} (f : A -> M B) (p : B -> C) (q : A -> C) :
  (forall a e, p (fst (f a e)) = q a) ->
  forall l e, map p (fst (mapM f l e)) = map q l.
Proof.
  intros H l. induction l as [|a l IH]; intro e; cbn [mapM map]; [reflexivity|].
  unfold bind, ret. pose proof (H a e) as Ha. destruct (f a e) as [b e1].
  pose proof (IH e1) as Hl. destruct (mapM f l e1) as [bs e2].
  cbn [fst map] in *. now rewrite Ha, Hl.
Qed.

Lemma initializeLanes_rows mult e :
  map Lane.y (fst (initializeLanes mult e)) =
  map (fun i => SCREEN_HEIGHT - i * GRID_SIZE) (range 23).
Proof.
  unfold initializeLanes, bind, ret.
  pose proof (mapM_map
                (fun i => Lane.GrassLane (SCREEN_HEIGHT - i * GRID_SIZE))
                Lane.y (fun i => SCREEN_HEIGHT - i * GRID_SIZE)
                (fun i e' => make_y grass _ mult e') (range 3) e) as S.
  destruct (mapM _ (range 3) e) as [safe e1]. cbn [fst] in S.
  assert (Mk : forall i e',
             Lane.y (fst ((ty <- Random.choices grass lane_types [2; 3; 2] ;;
                           Lane.make ty (SCREEN_HEIGHT - (i + 3) * GRID_SIZE)
                                     mult) e'))
             = SCREEN_HEIGHT - (i + 3) * GRID_SIZE).
  { intros i e'. unfold bind.
    destruct (Random.choices grass lane_types [2; 3; 2] e') as [ty e2].
    apply make_y. }
  pose proof (mapM_map _ Lane.y _ Mk (range 20) e1) as R.
  destruct (mapM _ (range 20) e1) as [more e2]. cbn [fst] in *.
  rewrite map_app, S, R. reflexivity.
Qed.

(** *** Lists of rows that step up *)

Lemma stepping_up_tail a l : stepping_up (a :: l) -> stepping_up l.
Proof. destruct l; cbn; tauto. Qed.

Lemma stepping_up_below a l :
  stepping_up (a :: l) -> Forall (fun b => b < a) l.
Proof.
  revert a. induction l as [|b l IH]; intros a H; constructor.
  - cbn in H. unfold GRID_SIZE in H. lia.
  - destruct H as [-> H]. specialize (IH _ H).
    eapply Forall_impl; [|exact IH]. cbn. unfold GRID_SIZE. lia.
Qed.

Lemma stepping_up_snoc l :
  forall d, stepping_up l -> stepping_up (l ++ [last l d - GRID_SIZE]) \/ l = [].
Proof.
  induction l as [|a l IH]; intros d H; [now right|left].
  destruct l as [|b l].
  - cbn. auto.
  - destruct H as [-> H]. destruct (IH d H) as [S|S]; [|discriminate].
    change (stepping_up (a :: (a - GRID_SIZE :: l)
                           ++ [last (a - GRID_SIZE :: l) d - GRID_SIZE])).
    cbn [app stepping_up] in *. split; [reflexivity|exact S].
Qed.

Lemma stepping_up_NoDup l : stepping_up l -> NoDup l.
Proof.
  induction l as [|a l IH]; intro H; constructor.
  - intro I. pose proof (stepping_up_below a l H) as B.
    rewrite Forall_forall in B. specialize (B a I). lia.
  - apply IH. now apply stepping_up_tail in H.
Qed.

(** The smallest row is the last one. *)
Lemma highest_last ls :
  stepping_up (map Lane.y ls) -> highest ls = last (map Lane.y ls) 0.
Proof.
  destruct ls as [|l ls]; [reflexivity|]. cbn [highest map].
  revert l. induction ls as [|b ls IH]; intros l H; [reflexivity|].
  cbn [map fold_left]. destruct H as [E H].
  replace (Z.min (Lane.y l) (Lane.y b)) with (Lane.y b)
    by (unfold GRID_SIZE in E; lia).
  rewrite (IH b H). reflexivity.
Qed.

(** A coordinate between the last row and the bottom of the first is in
    the half-open interval of exactly one row. *)
Lemma stepping_up_covers l (y : Q) :
  stepping_up l -> l <> [] ->
  (inject_Z (last l 0%Z) <= y < inject_Z (hd 0%Z l + GRID_SIZE))%Q ->
  exists r, In r l /\ (inject_Z r <= y < inject_Z (r + GRID_SIZE))%Q.
Proof.
  induction l as [|a l IH]; intros S N [L U]; [congruence|].
  destruct (Qlt_le_dec y (inject_Z a)) as [B|B].
  - destruct l as [|b l].
    + cbn in L. exfalso. exact (Qlt_not_le _ _ B L).
    + destruct S as [E S].
      destruct (IH S ltac:(discriminate)) as (r & I & R).
      * split; [exact L|]. cbn [hd]. rewrite E.
        replace (a - GRID_SIZE + GRID_SIZE) with a by lia. exact B.
      * exists r. split; [now right|exact R].
  - exists a. split; [now left|]. cbn [hd] in U. split; assumption.
Qed.

End RowFacts.

(** ** The span of the lane field *)

Module SpanFacts.

Import Game GameFacts RunFacts StepFacts Shape RowFacts.

Lemma last_snoc {A} (l : list A) (a d : A) : last (l ++ [a]) d = a.
Proof. apply last_last. Qed.

Lemma hd_app {A} (l l' : list A) (d : A) : l <> [] -> hd d (l ++ l') = hd d l.
Proof. destruct l; [congruence|reflexivity]. Qed.

(** The rows that the generation loop adds continue the field upwards, and
    when the loop is left on its test the last row is 250 pixels or more
    above the camera. *)
Lemma generate_loop_rows fuel :
  forall cam mult ls e,
    stepping_up (map Lane.y ls) -> ls <> [] ->
    let h := last (map Lane.y ls) 0 in
    let ls' := fst (generate_loop fuel cam mult h ls e) in
    stepping_up (map Lane.y ls') /\ ls' <> [] /\
    hd 0 (map Lane.y ls') = hd 0 (map Lane.y ls) /\
    (Qltb (sub cam (ofZ (GRID_SIZE * 5)))
          (ofZ (h - GRID_SIZE * Z.of_nat fuel)) = false ->
     (inject_Z (last (map Lane.y ls') 0%Z) <= cam - 250)%Q).
Proof.
  induction fuel as [|fuel IH]; intros cam mult ls e S N h ls'.
  - subst ls'. cbn [generate_loop ret fst]. repeat split; auto.
    change (Z.of_nat 0) with 0. rewrite Z.mul_0_r, Z.sub_0_r.
    intro C. apply Qltb_ge in C. rewrite sub_eq in C. exact C.
  - subst ls'. cbn [generate_loop].
    destruct (Qltb (sub cam (ofZ (GRID_SIZE * 5))) (ofZ h)) eqn:C.
    + unfold bind.
      destruct (Random.choices grass lane_types (laneWeights ls) e) as [ty e1].
      pose proof (make_y ty (h - GRID_SIZE) mult e1) as Y.
      destruct (Lane.make ty (h - GRID_SIZE) mult e1) as [l e2]. cbn [fst] in Y.
      assert (R : map Lane.y (ls ++ [l]) = map Lane.y ls ++ [h - GRID_SIZE]).
      { rewrite map_app. cbn [map]. now rewrite Y. }
      assert (S2 : stepping_up (map Lane.y (ls ++ [l]))).
      { rewrite R. destruct (stepping_up_snoc (map Lane.y ls) 0 S) as [A|A];
          [exact A|]. destruct ls; [congruence|discriminate]. }
      assert (N2 : ls ++ [l] <> []) by (destruct ls; discriminate).
      assert (L2 : last (map Lane.y (ls ++ [l])) 0 = h - GRID_SIZE).
      { rewrite R. apply last_snoc. }
      specialize (IH cam mult (ls ++ [l]) e2 S2 N2). cbv zeta in IH.
      rewrite L2 in IH. destruct IH as (A1 & A2 & A3 & A4).
      repeat split; auto.
      * rewrite A3, R. apply hd_app. destruct ls; [congruence|discriminate].
      * intro F. apply A4. rewrite <- F. f_equal. f_equal.
        rewrite Nat2Z.inj_succ. lia.
    + cbn [ret fst]. repeat split; auto.
      intros _. apply Qltb_ge in C. rewrite sub_eq in C. exact C.
Qed.

(** What the cleanup keeps of a field whose last row is kept. *)
Lemma cleanup_rows (c : Q) ls :
  stepping_up (map Lane.y ls) -> ls <> [] ->
  (inject_Z (last (map Lane.y ls) 0%Z) < c)%Q ->
  let ls' := filter (fun l => Qltb (ofZ (Lane.y l)) c) ls in
  stepping_up (map Lane.y ls') /\ ls' <> [] /\
  last (map Lane.y ls') 0 = last (map Lane.y ls) 0 /\
  (hd 0%Z (map Lane.y ls') = hd 0 (map Lane.y ls) \/
   (c <= inject_Z (hd 0%Z (map Lane.y ls') + GRID_SIZE))%Q).
Proof.
  induction ls as [|a ls IH]; intros S N L; [congruence|].
  cbv zeta. cbn [filter].
  destruct (Qltb (ofZ (Lane.y a)) c) eqn:P.
  - assert (All : filter (fun l => Qltb (ofZ (Lane.y l)) c) ls = ls).
    { pose proof (stepping_up_below _ _ S) as B.
      apply Qltb_lt in P. clear - B P.
      induction ls as [|b ls IH]; [reflexivity|]. cbn [filter map] in *.
      inversion B as [|? ? Hb Hl]; subst.
      replace (Qltb (ofZ (Lane.y b)) c) with true.
      - now rewrite IH.
      - symmetry. apply Qltb_lt. eapply Qlt_trans; [|exact P].
        unfold ofZ. rewrite <- Zlt_Qlt. exact Hb. }
    rewrite All. repeat split; auto; discriminate.
  - apply Qltb_ge in P. destruct ls as [|b ls].
    + cbn in L. exfalso. exact (Qlt_not_le _ _ L P).
    + destruct S as [E S]. cbn [map] in E.
      destruct (IH S ltac:(discriminate) L) as (A1 & A2 & A3 & A4).
      repeat split; auto. right.
      destruct A4 as [A4|A4]; [|exact A4].
      rewrite A4. cbn [map hd]. rewrite E.
      replace (Lane.y a - GRID_SIZE + GRID_SIZE) with (Lane.y a) by lia.
      exact P.
Qed.

(** The lanes and the camera that one [update] of a game in play leaves. *)
Lemma update_lanes g e :
  playing g = true -> gameOver g = false ->
  exists mult e1,
    let g2 := updateCamera (set_player g (Player.update (player g))) in
    let ls1 := fst (mapM Lane.update (lanes g) e) in
    let h := highest ls1 in
    lanes (fst (update g e)) =
    filter (fun l => Qltb (ofZ (Lane.y l))
                          (add (cameraY g2) (ofZ (SCREEN_HEIGHT + GRID_SIZE * 3))))
           (fst (generate_loop (generate_fuel (cameraY g2) h) (cameraY g2)
                               mult h ls1 e1)) /\
    cameraY (fst (update g e)) = cameraY g2.
Proof.
  intros Hp Ho.
  exists (difficultyMultiplier
            (updateProgress
               (updateCamera (set_player g (Player.update (player g)))))),
         (snd (mapM Lane.update (lanes g) e)).
  cbv zeta. split; [|apply (update_fields g e Hp Ho)].
  unfold update. rewrite Hp, Ho. cbn [negb orb].
  set (g2 := updateCamera _).
  assert (L2 : lanes g2 = lanes g)
    by (subst g2; rewrite updateCamera_lanes; reflexivity).
  unfold bind at 1. unfold updateLanes at 1. unfold bind at 1.
  rewrite L2.
  destruct (mapM Lane.update (lanes g) e) as [ls1 e1]. cbn [ret fst snd].
  rewrite updateProgress_set_lanes.
  unfold bind at 1. unfold generateNewLanes at 1. unfold bind at 1.
  cbn [lanes set_lanes cameraY difficultyMultiplier].
  rewrite updateProgress_cameraY.
  destruct (generate_loop _ _ _ _ _ e1) as [ls2 e2]. cbn [ret fst].
  unfold cleanupOldLanes. cbn [lanes set_lanes cameraY].
  rewrite updateProgress_cameraY.
  unfold bind.
  match goal with |- context [checkCollisions ?g6 e2] =>
    destruct (checkCollisions_shape g6 e2) as (p & ps & C);
    destruct (checkCollisions g6 e2) as [g7 e7] end.
  cbn [fst] in C. subst g7.
  match goal with |- context [handleDeath ?g9 e7] =>
    destruct (handleDeath_fields g9 e7) as (_&_&_&_&_& Hl &_) end.
  rewrite Hl. unfold checkDeathZone.
  destruct (Qltb _ _); reflexivity.
Qed.

Lemma init_spans e : field_spans (fst (init e)).
Proof.
  unfold init, bind, ret. destruct (loadHighScore e) as [hs e1].
  pose proof (initializeLanes_rows 1 e1) as R.
  destruct (initializeLanes 1 e1) as [ls e2]. cbn [fst] in *.
  unfold field_spans, rows. cbn [lanes cameraY]. rewrite R.
  repeat split; try discriminate; cbn; auto 30.
Qed.

Lemma restart_spans g e : field_spans (fst (restart g e)).
Proof.
  unfold restart, bind, ret.
  pose proof (initializeLanes_rows 1 e) as R.
  destruct (initializeLanes 1 e) as [ls e2]. cbn [fst] in *.
  unfold field_spans, rows. cbn [lanes cameraY]. rewrite R.
  repeat split; try discriminate; cbn; auto 30.
Qed.

Lemma keydown_spans g key e :
  field_spans g -> field_spans (fst (keydown g key e)).
Proof.
  intro H.
  destruct (keydown_effect g key e)
    as [(_ & _ & ->)|[->|(_ & _ & _ & f & -> & _)]].
  - apply restart_spans.
  - exact H.
  - exact H.
Qed.

Lemma update_spans g e : field_spans g -> field_spans (fst (update g e)).
Proof.
  intros (C0 & S & N & L & H).
  destruct (playing g) eqn:Hp; [destruct (gameOver g) eqn:Ho|];
    try (rewrite update_idle by auto; repeat split; assumption).
  destruct (update_lanes g e Hp Ho) as (mult & e1 & Ls & Cam). cbv zeta in *.
  set (g2 := updateCamera (set_player g (Player.update (player g)))) in *.
  assert (C2 : (cameraY g2 <= cameraY g)%Q)
    by apply (updateCamera_cameraY (set_player g _)).
  pose proof (mapM_map Lane.update Lane.y Lane.y update_y (lanes g) e) as R1.
  set (ls1 := fst (mapM Lane.update (lanes g) e)) in *.
  unfold rows in *.
  assert (N1 : ls1 <> []).
  { intro E. rewrite E in R1. cbn in R1. symmetry in R1. contradiction. }
  assert (S1 : stepping_up (map Lane.y ls1)) by (now rewrite R1).
  assert (E1 : ls1 <> []) by exact N1.
  pose proof (generate_loop_rows (generate_fuel (cameraY g2) (highest ls1))
                (cameraY g2) mult ls1 e1 S1
                ltac:(intro E; apply N1; exact E)) as G.
  cbv zeta in G. rewrite <- (highest_last ls1 S1) in G.
  destruct G as (G1 & G2 & G3 & G4).
  specialize (G4 (LaneFieldFacts.generate_fuel_enough _ _)).
  set (ls2 := fst (generate_loop _ _ _ _ _ e1)) in *.
  pose proof (cleanup_rows
                (add (cameraY g2) (ofZ (SCREEN_HEIGHT + GRID_SIZE * 3))) ls2
                G1 G2) as K.
  assert (Lt : (inject_Z (last (map Lane.y ls2) 0%Z)
                < add (cameraY g2) (ofZ (SCREEN_HEIGHT + GRID_SIZE * 3)))%Q).
  { rewrite add_eq. change (ofZ (SCREEN_HEIGHT + GRID_SIZE * 3)) with 750%Q. lra. }
  destruct (K Lt) as (K1 & K2 & K3 & K4). clear K.
  unfold field_spans, rows. rewrite Ls, Cam.
  split; [lra|]. split; [exact K1|]. split.
  { intro E. apply map_eq_nil in E. contradiction. }
  split; [rewrite K3; exact G4|].
  destruct K4 as [K4|K4].
  - rewrite K4, G3, R1. destruct H as [H|H]; [left; exact H|right; lra].
  - right. set (hd' := hd 0%Z (map Lane.y (filter _ ls2))) in *.
    rewrite add_eq in K4. change (ofZ (SCREEN_HEIGHT + GRID_SIZE * 3)) with 750%Q in K4.
    rewrite inject_Z_plus in K4.
    change (inject_Z GRID_SIZE) with 50%Q in K4. lra.
Qed.

Lemma reached_spans e frames : field_spans (reached e frames).
Proof.
  apply (reached_preserves field_spans).
  - apply init_spans.
  - intros g key e'. apply keydown_spans.
  - intros g e'. apply update_spans.
Qed.

End SpanFacts.

(** ** The lane under a coordinate *)

Module CoverFacts.

Import Game GameFacts Shape RowFacts SpanFacts.

(** In a field whose rows step up, the first lane that the closed test of
    [getLaneAtY] accepts is the lane whose half-open row has the
    coordinate, as long as the coordinate is not below the first row. *)
Lemma find_in_field ls (y : Q) :
  stepping_up (map Lane.y ls) -> ls <> [] ->
  (inject_Z (last (map Lane.y ls) 0%Z) <= y)%Q ->
  (y < inject_Z (hd 0%Z (map Lane.y ls) + GRID_SIZE))%Q ->
  exists l, find (in_lane y) ls = Some l /\ In l ls /\
            Spec.in_row y l = true.
Proof.
  induction ls as [|a ls IH]; intros S N L U; [congruence|].
  cbn [find]. cbn [map hd] in U.
  destruct (in_lane y a) eqn:E.
  - exists a. split; [reflexivity|]. split; [now left|].
    unfold in_lane in E. apply andb_true_iff in E as [E1 _].
    unfold Spec.in_row. rewrite E1. apply Qltb_lt. exact U.
  - assert (B : (y < inject_Z (Lane.y a))%Q).
    { unfold in_lane in E. apply andb_false_iff in E as [E|E].
      - unfold Qleb in E. apply Qnot_le_lt. intro C.
        apply Qle_bool_iff in C. unfold ofZ in E. congruence.
      - unfold Qleb in E. exfalso.
        assert (C : Qle_bool y (ofZ (Lane.y a + GRID_SIZE)) = true)
          by (apply Qle_bool_iff; now apply Qlt_le_weak).
        congruence. }
    destruct ls as [|b ls].
    + cbn in L. exfalso. exact (Qlt_not_le _ _ B L).
    + destruct S as [Eb S]. cbn [map] in Eb.
      destruct (IH S ltac:(discriminate) L) as (l & F & I & R).
      * cbn [map hd]. rewrite Eb.
        replace (Lane.y a - GRID_SIZE + GRID_SIZE) with (Lane.y a) by lia.
        exact B.
      * exists l. split; [exact F|]. split; [now right|exact R].
Qed.

(** At most one lane of such a field has the coordinate in its row. *)
Lemma in_row_unique ls (y : Q) l l' :
  stepping_up (map Lane.y ls) -> In l ls -> In l' ls ->
  Spec.in_row y l = true -> Spec.in_row y l' = true ->
  Lane.y l = Lane.y l'.
Proof.
  intros S I I' R R'.
  unfold Spec.in_row, ofZ in *.
  apply andb_true_iff in R as [R1 R2]. apply andb_true_iff in R' as [R1' R2'].
  apply Qleb_le in R1, R1'. apply Qltb_lt in R2, R2'.
  assert (A : Lane.y l < Lane.y l' + GRID_SIZE).
  { rewrite Zlt_Qlt. eapply Qle_lt_trans; eauto. }
  assert (A' : Lane.y l' < Lane.y l + GRID_SIZE).
  { rewrite Zlt_Qlt. eapply Qle_lt_trans; eauto. }
  assert (D : forall rs a b, stepping_up rs -> In a rs -> In b rs ->
                             a < b + GRID_SIZE -> b < a + GRID_SIZE -> a = b).
  { clear. induction rs as [|r rs IH]; intros a b S Ia Ib H1 H2; [easy|].
    pose proof (stepping_up_below r rs S) as B. rewrite Forall_forall in B.
    assert (T : forall c, In c rs -> c <= r - GRID_SIZE).
    { destruct rs as [|r' rs']; [easy|]. destruct S as [E S'].
      intros c [<-|Ic]; [lia|].
      pose proof (stepping_up_below _ _ S') as B'.
      rewrite Forall_forall in B'. specialize (B' c Ic). lia. }
    destruct Ia as [<-|Ia], Ib as [<-|Ib]; auto.
    - specialize (T b Ib). lia.
    - specialize (T a Ia). lia.
    - apply IH; auto. now apply stepping_up_tail in S. }
  apply (D (map Lane.y ls)); auto using in_map.
Qed.

End CoverFacts.

(** ** Particles *)

Module ParticleFacts.

Import Game GameFacts RunFacts StepFacts Shape.

Lemma init_lifetime x0 y0 c e :
  Particle.lifetime (fst (Particle.init x0 y0 c e)) = 30.
Proof.
  unfold Particle.init, bind, ret.
  destruct (Random.uniform (-5) 5 e) as [vx e1].
  destruct (Random.uniform (-8) (-2) e1) as [vy e2].
  now destruct (Random.randint 3 8 e2) as [sz e3].
Qed.

Lemma repeatM_init n x0 y0 c :
  forall e,
    let ps := fst (repeatM n (Particle.init x0 y0 c) e) in
    List.length ps = n /\ Forall (fun p => Particle.lifetime p = 30) ps.
Proof.
  induction n as [|n IH]; intro e; cbn [repeatM].
  - cbn. auto.
  - unfold bind, ret.
    pose proof (init_lifetime x0 y0 c e) as I.
    destruct (Particle.init x0 y0 c e) as [p e1].
    specialize (IH e1). destruct (repeatM n _ e1) as [ps e2].
    cbn [fst] in *. destruct IH as [L F]. split.
    + cbn. now rewrite L.
    + constructor; [exact I|exact F].
Qed.

Lemma kill_burst g e :
  let g' := fst (kill g e) in
  Player.dead (player g') = true /\
  exists ps, particles g' = particles g ++ ps /\ List.length ps = 20%nat /\
             Forall (fun p => Particle.lifetime p = 30) ps.
Proof.
  unfold kill, createDeathParticles, bind, ret.
  cbn [player set_player particles].
  pose proof (repeatM_init 20 (Player.x (Player.die (player g)))
                (Player.y (Player.die (player g))) RED e) as R.
  destruct (repeatM 20 _ e) as [ps e']. cbn [fst] in *.
  split; [reflexivity|]. exists ps. cbn. tauto.
Qed.

(** Collision resolution on a live player: no new particle, or death with
    a burst of twenty. *)
Lemma checkCollisions_burst g e :
  Player.dead (player g) = false ->
  let g' := fst (checkCollisions g e) in
  particles g' = particles g \/
  (Player.dead (player g') = true /\
   exists ps, particles g' = particles g ++ ps /\ List.length ps = 20%nat /\
              Forall (fun p => Particle.lifetime p = 30) ps).
Proof.
  intro D. unfold checkCollisions. rewrite D.
  destruct (getLaneAtY g _) as [l|]; [|now left].
  unfold resolve. destruct (Lane.type l).
  - now left.
  - destruct (existsb _ _); [|now left]. right. apply kill_burst.
  - destruct (find _ _) as [lg|]; [|right; apply kill_burst].
    set (g1 := set_player g _).
    destruct (off_edge _); [|now left]. right.
    destruct (kill_burst g1 e) as (K1 & ps & K2 & K3). cbv zeta.
    split; [exact K1|]. exists ps. exact (conj K2 K3).
Qed.

Lemma update_burst_ok g e : burst_ok g -> burst_ok (fst (update g e)).
Proof.
  apply (update_preserves burst_ok); clear; intros g.
  - unfold burst_ok. cbn [player particles set_player].
    now rewrite PlayerFacts.update_dead.
  - unfold burst_ok. now rewrite updateCamera_player, updateCamera_particles.
  - intros e. now destruct (updateLanes_shape g e) as (ls & e' & ->).
  - unfold burst_ok. now rewrite updateProgress_player, updateProgress_particles.
  - intros e. now destruct (generateNewLanes_shape g e) as (ls & e' & ->).
  - auto.
  - intros e (A & L & F).
    destruct (Player.dead (player g)) eqn:D.
    + rewrite checkCollisions_dead by exact D. cbn [fst].
      unfold burst_ok. rewrite D. auto.
    + specialize (A eq_refl).
      destruct (checkCollisions_burst g e D) as [P|(D' & ps & P & Lp & Fp)];
        cbv zeta in *; unfold burst_ok; rewrite P, A.
      * repeat split; auto. cbn. lia.
      * rewrite D'. cbn [app]. repeat split.
        -- discriminate.
        -- lia.
        -- eapply Forall_impl; [|exact Fp]. cbn. lia.
  - intros (A & L & F). unfold burst_ok, updateParticles.
    cbn [player particles set_particles]. repeat split.
    + intro D. now rewrite (A D).
    + eapply Nat.le_trans; [apply filter_length_le|]. now rewrite length_map.
    + apply Forall_forall. intros p Hp. apply filter_In in Hp as [Hp Hl].
      apply in_map_iff in Hp as (p0 & <- & Hp).
      rewrite Forall_forall in F. specialize (F p0 Hp).
      apply negb_true_iff, Z.leb_gt in Hl. cbn in *. lia.
  - intros (A & L & F). unfold checkDeathZone.
    destruct (Qltb _ _); [|repeat split; assumption].
    unfold burst_ok. cbn [player particles set_player]. repeat split; auto.
    discriminate.
  - intros e H. unfold burst_ok.
    destruct (handleDeath_fields g e) as (_&_&_&_& -> &_& -> &_). exact H.
Qed.

Lemma keydown_burst_ok g key e :
  burst_ok g -> burst_ok (fst (keydown g key e)).
Proof.
  intros (A & L & F).
  destruct (keydown_effect g key e)
    as [(_ & _ & ->)|[->|(_ & _ & _ & f & -> & [(dx & dy & ->)|[->| ->]])]].
  - destruct (restart_fields g e) as (_&_&_&_&_&_& P &_).
    unfold burst_ok. rewrite P. repeat split; auto. cbn. lia.
  - repeat split; assumption.
  - unfold burst_ok. cbn [fst on_player player particles set_player].
    rewrite PlayerFacts.move_dead. repeat split; assumption.
  - unfold burst_ok. cbn [fst on_player player particles set_player].
    repeat split; auto. discriminate.
  - repeat split; assumption.
Qed.

Lemma init_burst_ok e : burst_ok (fst (init e)).
Proof.
  unfold init, bind, ret. destruct (loadHighScore e) as [hs e1].
  destruct (initializeLanes 1 e1) as [ls e2].
  unfold burst_ok. cbn. repeat split; auto. lia.
Qed.

End ParticleFacts.

(** ** The player and the screen *)

Module ScreenFacts.

Import Game GameFacts RunFacts StepFacts Shape.

(** After the camera step the camera is not below its target. *)
Lemma updateCamera_above g :
  (cameraY (updateCamera g) <= camera_target (updateCamera g))%Q.
Proof.
  unfold camera_target. rewrite updateCamera_player.
  unfold updateCamera.
  destruct (Qltb _ (cameraY g)) eqn:E.
  - cbn [cameraY set_cameraY]. apply Qle_refl.
  - apply Qltb_ge in E. exact E.
Qed.

(** A step of the player towards its target stays between the two. *)
Lemma update_x p :
  (20 <= Player.x p <= 780)%Q -> 25 <= Player.targetX p <= 775 ->
  (20 <= Player.x (Player.update p) <= 780)%Q.
Proof.
  intros X [T1 T2]. rewrite Zle_Qle in T1, T2.
  change (inject_Z 25) with 25%Q in T1. change (inject_Z 775) with 775%Q in T2.
  unfold Player.update.
  destruct (Player.moving p); [|exact X].
  destruct (_ && _); cbn [Player.x].
  - unfold ofZ. lra.
  - rewrite add_eq, mul_eq, sub_eq. unfold ofZ. lra.
Qed.

Lemma update_targetX p : Player.targetX (Player.update p) = Player.targetX p.
Proof.
  unfold Player.update.
  destruct (Player.moving p); [destruct (_ && _)|]; reflexivity.
Qed.

(** A position that is not off the edge is in one of the sixteen columns. *)
Lemma off_edge_false x :
  off_edge x = false ->
  (20 <= x <= 780)%Q /\ 0 <= floordiv x GRID_SIZE <= 15.
Proof.
  unfold off_edge. intro H. apply orb_false_iff in H as [H1 H2].
  apply Qltb_ge in H1, H2.
  change (ofZ (PLAYER_SIZE / 2)) with 20%Q in H1.
  change (ofZ (SCREEN_WIDTH - PLAYER_SIZE / 2)) with 780%Q in H2.
  split; [split; assumption|].
  unfold floordiv. change (inject_Z GRID_SIZE) with 50%Q.
  split.
  - change 0 with (Qfloor 0). apply Qfloor_resp_le.
    unfold Qdiv. change (/ 50)%Q with (1 # 50)%Q. lra.
  - change 15 with (Qfloor (78 # 5)). apply Qfloor_resp_le.
    unfold Qdiv. change (/ 50)%Q with (1 # 50)%Q. lra.
Qed.

(** The player after collision resolution: dead, untouched, or carried by
    a log to a position that is not off the edge; its [y] and the camera
    are as before. *)
Lemma checkCollisions_player g e :
  let g' := fst (checkCollisions g e) in
  cameraY g' = cameraY g /\
  Player.y (player g') = Player.y (player g) /\
  (Player.dead (player g') = true \/ player g' = player g \/
   exists s, player g' = Player.carried (player g) s /\
             off_edge (Player.x (Player.carried (player g) s)) = false).
Proof.
  cbv zeta. split.
  { now destruct (checkCollisions_shape g e) as (p & ps & ->). }
  unfold checkCollisions.
  destruct (Player.dead (player g)); [split; [reflexivity|now right; left]|].
  destruct (getLaneAtY g _) as [l|]; [|split; [reflexivity|now right; left]].
  unfold resolve. destruct (Lane.type l).
  - split; [reflexivity|now right; left].
  - destruct (existsb _ _); [|split; [reflexivity|now right; left]].
    destruct (kill_shape g e) as (ps & e' & ->). split; [reflexivity|now left].
  - destruct (find _ _) as [lg|].
    + set (g1 := set_player g _).
      destruct (off_edge _) eqn:E.
      * destruct (kill_shape g1 e) as (ps & e' & ->).
        split; [reflexivity|now left].
      * split; [reflexivity|]. right; right.
        exists (Obstacle.speed lg). split; [reflexivity|exact E].
    + destruct (kill_shape g e) as (ps & e' & ->).
      split; [reflexivity|now left].
Qed.

(** The death-zone step: camera and [y] stay, and a player who is alive
    after it is not beyond the death zone. *)
Lemma checkDeathZone_player g :
  let g' := checkDeathZone g in
  cameraY g' = cameraY g /\ Player.y (player g') = Player.y (player g) /\
  (Player.dead (player g') = false ->
   player g' = player g /\ (Player.y (player g) <= death_zone g)%Q).
Proof.
  cbv zeta. unfold checkDeathZone.
  destruct (Qltb _ _) eqn:E; cbn [cameraY player set_player Player.y Player.die].
  - repeat split; discriminate.
  - apply Qltb_ge in E. repeat split. exact E.
Qed.

Lemma update_on_screen g e : on_screen g -> on_screen (fst (update g e)).
Proof.
  intro H.
  destruct (playing g) eqn:Hp;
    [|rewrite update_idle by (now left); exact H].
  destruct (gameOver g) eqn:Ho;
    [rewrite update_idle by (now right); exact H|].
  destruct (update_stages g e Hp Ho) as (ls & e6 & ->). cbv zeta.
  set (p1 := Player.update (player g)).
  set (g2 := updateCamera (set_player g p1)).
  set (g6 := set_lanes (updateProgress g2) ls).
  assert (P6 : player g6 = p1).
  { subst g6 g2. cbn [player set_lanes].
    now rewrite updateProgress_player, updateCamera_player. }
  assert (C6 : (cameraY g6 <= camera_target g6)%Q).
  { pose proof (updateCamera_above (set_player g p1)) as A. fold g2 in A.
    unfold camera_target in *. rewrite P6.
    replace (cameraY g6) with (cameraY g2)
      by (subst g6; cbn [cameraY set_lanes];
          now rewrite updateProgress_cameraY).
    replace (player g2) with p1 in A
      by (subst g2; now rewrite updateCamera_player).
    exact A. }
  destruct (checkCollisions_player g6 e6) as (C7 & Y7 & P7).
  cbv zeta in C7, Y7, P7.
  set (g7 := fst (checkCollisions g6 e6)) in *.
  set (e7 := snd (checkCollisions g6 e6)).
  destruct (checkDeathZone_player (updateParticles g7)) as (C9 & Y9 & P9).
  cbv zeta in C9, Y9, P9.
  set (g9 := checkDeathZone (updateParticles g7)) in *.
  cbn [cameraY player updateParticles set_particles] in C9, Y9, P9.
  unfold death_zone in P9. cbn [cameraY updateParticles set_particles] in P9.
  unfold on_screen, camera_target, death_zone in *.
  destruct (handleDeath_fields g9 e7) as (_&_&_& -> & -> &_).
  rewrite C9, Y9, C7, Y7. split; [exact C6|].
  intro D9. destruct (P9 D9) as (Q9 & Z9). rewrite Q9 in *.
  rewrite C7, Y7 in Z9. split; [exact Z9|].
  assert (D7 : Player.dead (player g7) = Player.dead p1 /\
               Player.targetX (player g7) = Player.targetX p1).
  { destruct P7 as [P7|[P7|(s & P7 & _)]]; [congruence| |];
      rewrite P7, ?P6; auto. }
  destruct D7 as (D7 & T7).
  assert (D : Player.dead (player g) = false).
  { rewrite <- (PlayerFacts.update_dead (player g)). fold p1. congruence. }
  destruct H as [_ H]. destruct (H D) as (_ & X & G & T).
  assert (T1 : 25 <= Player.targetX p1 <= 775).
  { subst p1. now rewrite update_targetX. }
  rewrite T7.
  destruct P7 as [P7|[P7|(s & P7 & E)]]; [congruence| |].
  - rewrite P7, P6. subst p1. rewrite PlayerFacts.update_gridX.
    split; [now apply update_x|]. split; assumption.
  - rewrite P7, P6 in *. apply off_edge_false in E as (E1 & E2).
    split; [exact E1|]. split; [exact E2|exact T1].
Qed.

Lemma move_on_screen p dx dy :
  0 <= Player.gridX p <= 15 /\ 25 <= Player.targetX p <= 775 ->
  0 <= Player.gridX (Player.move p dx dy) <= 15 /\
  25 <= Player.targetX (Player.move p dx dy) <= 775.
Proof.
  intro H. unfold Player.move.
  destruct (Player.busy p); [exact H|].
  cbn [Player.gridX Player.targetX].
  change (SCREEN_WIDTH / GRID_SIZE - 1) with 15.
  change (GRID_SIZE / 2) with 25.
  change (SCREEN_WIDTH - 25) with 775. lia.
Qed.

Lemma move_place p dx dy :
  Player.x (Player.move p dx dy) = Player.x p /\
  Player.y (Player.move p dx dy) = Player.y p.
Proof. unfold Player.move. now destruct (Player.busy p). Qed.

Lemma keydown_on_screen g key e :
  on_screen g -> on_screen (fst (keydown g key e)).
Proof.
  intros H.
  destruct (keydown_effect g key e)
    as [(_ & _ & ->)|[->|(_ & _ & _ & f & -> & [(dx & dy & ->)|[->| ->]])]].
  - destruct (restart_fields g e) as (_&_&_& C &_& P &_).
    unfold on_screen, camera_target, death_zone. rewrite C, P.
    split; [vm_compute; discriminate|]. intros _.
    repeat split; vm_compute; discriminate.
  - exact H.
  - unfold on_screen, camera_target, death_zone in *.
    cbn [fst on_player player cameraY set_player].
    rewrite PlayerFacts.move_dead.
    destruct (move_place (player g) dx dy) as [-> ->].
    destruct H as [C H]. split; [exact C|]. intro D.
    destruct (H D) as (Y & X & GT).
    apply (move_on_screen _ dx dy) in GT. tauto.
  - unfold on_screen, camera_target in *.
    cbn [fst on_player player cameraY set_player Player.y Player.die].
    split; [apply H|discriminate].
  - exact H.
Qed.

Lemma init_on_screen e : on_screen (fst (init e)).
Proof.
  unfold init, bind, ret. destruct (loadHighScore e) as [hs e1].
  destruct (initializeLanes 1 e1) as [ls e2].
  unfold on_screen, camera_target, death_zone. cbn [player cameraY fst].
  split; [vm_compute; discriminate|]. intros _.
  repeat split; vm_compute; discriminate.
Qed.

End ScreenFacts.

(** ** The high score across launches *)

Module RecordFacts.

Import Game GameFacts.


(** The text that [saveHighScore] leaves in the file for the high score
    [n]: empty when [str] raises. *)
Lemma saved_text n :
  (Z.abs n < 10 ^ Z.of_nat PyInt.MAX_STR_DIGITS ->
   PyInt.int_text (match PyInt.str n with
                   | Some s => PyInt.text_of s
                   | None => []
                   end) = Some n) /\
  (10 ^ Z.of_nat PyInt.MAX_STR_DIGITS <= Z.abs n ->
   match PyInt.str n with
   | Some s => PyInt.text_of s
   | None => []
   end = []).
Proof.
  split; intro H.
  - destruct (LimitFacts.str_Some n H) as (s & E). rewrite E.
    now apply PyIntFacts.int_text_str.
  - apply LimitFacts.str_None in H. now rewrite H.
Qed.


End RecordFacts.

(** ** The frame around collision resolution *)

Module FrameFacts.

Import Game GameFacts RunFacts StepFacts Frame.

(** [update] in play is its three parts in a row. *)
Lemma update_split g e :
  playing g = true -> gameOver g = false ->
  update g e =
  (g6 <- beforeCollisions g ;; g7 <- checkCollisions g6 ;; afterCollisions g7) e.
Proof.
  intros Hp Ho. unfold update, beforeCollisions, afterCollisions.
  rewrite Hp, Ho. cbn [negb orb]. unfold bind, ret.
  destruct (updateLanes _ e) as [g3 e3].
  destruct (generateNewLanes _ e3) as [g5 e5]. reflexivity.
Qed.

(** The state before collision resolution has the player and the camera
    of the first two steps, and the lanes and the camera that [update]
    leaves. *)
Lemma beforeCollisions_fields g e :
  playing g = true -> gameOver g = false ->
  let g6 := fst (beforeCollisions g e) in
  let g2 := updateCamera (set_player g (Player.update (player g))) in
  player g6 = Player.update (player g) /\
  cameraY g6 = cameraY g2 /\
  lanes (fst (update g e)) = lanes g6 /\
  cameraY (fst (update g e)) = cameraY g6.
Proof.
  intros Hp Ho. cbv zeta. rewrite (update_split g e Hp Ho).
  unfold beforeCollisions, afterCollisions, bind, ret.
  set (g2 := updateCamera _).
  destruct (updateLanes_shape g2 e) as (ls1 & e1 & ->).
  rewrite updateProgress_set_lanes.
  destruct (generateNewLanes_shape (set_lanes (updateProgress g2) ls1) e1)
    as (ls2 & e2 & ->).
  cbn [fst snd]. unfold cleanupOldLanes.
  cbn [player cameraY lanes set_lanes].
  rewrite updateProgress_player, updateProgress_cameraY.
  split; [subst g2; now rewrite updateCamera_player|].
  split; [reflexivity|].
  match goal with |- context [checkCollisions ?g6 e2] =>
    destruct (checkCollisions_shape g6 e2) as (p & ps & C);
    destruct (checkCollisions g6 e2) as [g7 e7] end.
  cbn [fst] in C. subst g7.
  match goal with |- context [handleDeath ?g9 e7] =>
    destruct (handleDeath_fields g9 e7) as (_&_&_& Hc &_& Hl &_) end.
  rewrite Hl, Hc. unfold checkDeathZone.
  destruct (Qltb _ _); cbn [lanes cameraY set_player set_particles set_lanes
                            updateParticles];
    rewrite ?updateProgress_cameraY; split; reflexivity.
Qed.

End FrameFacts.

(** ** Grass at the lower end of the field *)

Module GroundFacts.

Import Game GameFacts RunFacts StepFacts Shape RowFacts SpanFacts Frame.

Lemma update_type l e : Lane.type (fst (Lane.update l e)) = Lane.type l.
Proof.
  unfold Lane.update. destruct (Lane.type l) eqn:T; [now rewrite <- T| |].
  - unfold Lane.update_road. destruct (_ <=? _); [|exact T].
    unfold bind, ret. destruct (Random.uniform _ _ e) as [u e1].
    destruct (Obstacle.vehicle _ _ _ e1) as [v e2]. exact T.
  - unfold Lane.update_water. destruct (_ <=? _); [|exact T].
    unfold bind, ret. destruct (Random.uniform _ _ e) as [u e1].
    destruct (Obstacle.log _ _ _ e1) as [v e2]. exact T.
Qed.

Lemma update_low l e : low_grass l -> low_grass (fst (Lane.update l e)).
Proof. unfold low_grass. now rewrite update_y, update_type. Qed.

Lemma initializeLanes_low mult e :
  Forall low_grass (fst (initializeLanes mult e)).
Proof.
  unfold initializeLanes, bind, ret.
  pose proof (LaneFacts.mapM_Forall
                (fun i => Lane.GrassLane (SCREEN_HEIGHT - i * GRID_SIZE))
                (fun _ => True) low_grass) as S.
  specialize (S (fun i e' _ _ => LaneFieldFacts.make_type grass _ mult e')
                (range 3) e
                ltac:(apply Forall_forall; intros; exact I)).
  destruct (mapM _ (range 3) e) as [safe e1]. cbn [fst] in S.
  pose proof (LaneFacts.mapM_Forall
                (fun i => ty <- Random.choices grass lane_types [2; 3; 2] ;;
                          Lane.make ty (SCREEN_HEIGHT - (i + 3) * GRID_SIZE) mult)
                (fun i => 0 <= i) low_grass) as R.
  assert (Mk : forall i e', 0 <= i ->
             low_grass (fst ((ty <- Random.choices grass lane_types [2; 3; 2] ;;
                              Lane.make ty (SCREEN_HEIGHT - (i + 3) * GRID_SIZE)
                                        mult) e'))).
  { intros i e' Hi. unfold bind.
    destruct (Random.choices grass lane_types [2; 3; 2] e') as [ty e2].
    unfold low_grass. rewrite make_y. unfold SCREEN_HEIGHT, GRID_SIZE. lia. }
  specialize (R Mk (range 20) e1).
  destruct (mapM _ (range 20) e1) as [more e2]. cbn [fst] in *.
  apply Forall_app. split; [exact S|]. apply R.
  unfold range. apply Forall_forall. intros i Hi.
  apply in_map_iff in Hi as (n & <- & _). lia.
Qed.

Lemma generate_loop_low fuel :
  forall cam mult h ls e,
    h <= SCREEN_HEIGHT -> Forall low_grass ls ->
    Forall low_grass (fst (generate_loop fuel cam mult h ls e)).
Proof.
  induction fuel as [|fuel IH]; intros cam mult h ls e Hh F;
    cbn [generate_loop]; [exact F|].
  destruct (Qltb _ _); [|exact F]. unfold bind.
  destruct (Random.choices grass lane_types (laneWeights ls) e) as [ty e1].
  pose proof (make_y ty (h - GRID_SIZE) mult e1) as Y.
  destruct (Lane.make ty (h - GRID_SIZE) mult e1) as [l e2]. cbn [fst] in Y.
  apply IH; [unfold GRID_SIZE; lia|]. apply Forall_app. split; [exact F|].
  constructor; [|constructor]. unfold low_grass. rewrite Y.
  unfold GRID_SIZE. lia.
Qed.

Lemma init_grounded e : grounded (fst (init e)).
Proof.
  split; [apply init_spans|].
  unfold init, bind, ret. destruct (loadHighScore e) as [hs e1].
  pose proof (initializeLanes_low 1 e1) as L.
  now destruct (initializeLanes 1 e1) as [ls e2].
Qed.

Lemma restart_grounded g e : grounded (fst (restart g e)).
Proof.
  split; [apply restart_spans|].
  unfold restart, bind, ret.
  pose proof (initializeLanes_low 1 e) as L.
  now destruct (initializeLanes 1 e) as [ls e2].
Qed.

Lemma keydown_grounded g key e :
  grounded g -> grounded (fst (keydown g key e)).
Proof.
  intro H.
  destruct (keydown_effect g key e)
    as [(_ & _ & ->)|[->|(_ & _ & _ & f & -> & _)]].
  - apply restart_grounded.
  - exact H.
  - exact H.
Qed.

Lemma update_grounded g e : grounded g -> grounded (fst (update g e)).
Proof.
  intros [Sp F]. split; [now apply update_spans|].
  destruct (playing g) eqn:Hp; [destruct (gameOver g) eqn:Ho|];
    try (rewrite update_idle by auto; assumption).
  destruct (update_lanes g e Hp Ho) as (mult & e1 & -> & _). cbv zeta.
  destruct Sp as (C0 & S & N & L & _). unfold rows in *.
  pose proof (mapM_map Lane.update Lane.y Lane.y update_y (lanes g) e) as R1.
  pose proof (LaneFacts.mapM_Forall Lane.update low_grass low_grass
                (fun l e' H => update_low l e' H) (lanes g) e F) as F1.
  set (ls1 := fst (mapM Lane.update (lanes g) e)) in *.
  assert (S1 : stepping_up (map Lane.y ls1)) by (now rewrite R1).
  apply incl_Forall with (l1 := fst (generate_loop
          (generate_fuel (cameraY (updateCamera (set_player g (Player.update (player g)))))
                         (highest ls1))
          (cameraY (updateCamera (set_player g (Player.update (player g)))))
          mult (highest ls1) ls1 e1)).
  - intros l Hl. apply filter_In in Hl. tauto.
  - apply generate_loop_low; [|exact F1].
    rewrite (highest_last ls1 S1), R1.
    assert (Q : (inject_Z (last (map Lane.y (lanes g)) 0%Z) <= inject_Z (-250))%Q).
    { change (inject_Z (-250)) with (-250)%Q. lra. }
    rewrite <- Zle_Qle in Q. unfold SCREEN_HEIGHT. lia.
Qed.

Lemma handleEvents_grounded g evs e :
  grounded g -> grounded (snd (fst (handleEvents g evs e))).
Proof.
  apply (handleEvents_preserves grounded).
  intros g' key e'. apply keydown_grounded.
Qed.

Lemma reached_grounded e frames : grounded (reached e frames).
Proof.
  apply (reached_preserves grounded).
  - apply init_grounded.
  - intros g key e'. apply keydown_grounded.
  - intros g e'. apply update_grounded.
Qed.

End GroundFacts.

(** ** The player between two frames *)

Module PoiseFacts.

Import Game GameFacts RunFacts StepFacts Shape ScreenFacts Frame FrameFacts.

(** The keys that move the player ask for one row at most. *)
Lemma keydown_moves g key e :
  ((startScreen g = true \/ gameOver g = true) /\ is_space key = true /\
   keydown g key e = restart g e) \/
  keydown g key e = (g, e) \/
  (exists f,
     keydown g key e = (on_player g f, e) /\
     ((exists dx dy, -1 <= dy <= 1 /\ f = fun p => Player.move p dx dy) \/
      f = Player.die \/ f = Player.skip)).
Proof.
  unfold keydown.
  destruct (startScreen g) eqn:Hs.
  { destruct key; try (right; left; reflexivity); left; auto. }
  destruct (gameOver g) eqn:Ho.
  { destruct key; try (right; left; reflexivity); left; auto. }
  destruct (playing g) eqn:Hp; [|auto].
  destruct key; auto; right; right; eexists; (split; [reflexivity|]);
    first [left; do 2 eexists; split; [|reflexivity]; lia
          |right; left; reflexivity
          |right; right; reflexivity].
Qed.

(** One step of the player: its [y] stays, or goes towards the target
    without passing it. *)
Lemma update_y_cases p :
  let q := Player.update p in
  Player.y q = Player.y p \/
  (ofZ (Player.targetY p) <= Player.y q <= Player.y p)%Q \/
  (Player.y p <= Player.y q <= ofZ (Player.targetY p))%Q.
Proof.
  cbv zeta. unfold Player.update.
  destruct (Player.moving p); [|now left].
  destruct (_ && _); cbn [Player.y].
  - destruct (Qlt_le_dec (Player.y p) (ofZ (Player.targetY p))) as [C|C].
    + right; right. split; [now apply Qlt_le_weak|apply Qle_refl].
    + right; left. split; [apply Qle_refl|exact C].
  - destruct (Qlt_le_dec (Player.y p) (ofZ (Player.targetY p))) as [C|C].
    + right; right. rewrite add_eq, mul_eq, sub_eq. lra.
    + right; left. rewrite add_eq, mul_eq, sub_eq. lra.
Qed.

Lemma update_course p :
  let q := Player.update p in
  Player.targetY q = Player.targetY p /\ Player.gridY q = Player.gridY p /\
  Player.dead q = Player.dead p /\
  ((Player.moving p = false -> Player.y p = ofZ (Player.targetY p)) ->
   Player.moving q = false -> Player.y q = ofZ (Player.targetY q)).
Proof.
  cbv zeta. unfold Player.update.
  destruct (Player.moving p); [destruct (_ && _)|]; cbn; repeat split; auto.
  discriminate.
Qed.

(** Collision resolution leaves the course of the player as it is. *)
Lemma checkCollisions_course g e :
  let p := player g in
  let q := player (fst (checkCollisions g e)) in
  Player.y q = Player.y p /\ Player.targetY q = Player.targetY p /\
  Player.gridY q = Player.gridY p /\ Player.moving q = Player.moving p /\
  (Player.dead q = false -> Player.dead p = false).
Proof.
  cbv zeta. unfold checkCollisions.
  destruct (Player.dead (player g)) eqn:D; [cbn; rewrite D; auto|].
  destruct (getLaneAtY g _) as [l|]; [|cbn; auto].
  unfold resolve. destruct (Lane.type l).
  - cbn; auto.
  - destruct (existsb _ _); [|cbn; auto].
    destruct (kill_shape g e) as (ps & e' & ->). cbn. auto.
  - destruct (find _ _) as [lg|].
    + set (g1 := set_player g _).
      destruct (off_edge _).
      * destruct (kill_shape g1 e) as (ps & e' & ->). cbn. auto.
      * cbn. auto.
    + destruct (kill_shape g e) as (ps & e' & ->). cbn. auto.
Qed.

(** The player and the camera that one [update] of a game in play
    leaves. *)
Lemma update_course_of_play g e :
  playing g = true -> gameOver g = false ->
  let p1 := Player.update (player g) in
  let q := player (fst (update g e)) in
  Player.y q = Player.y p1 /\ Player.targetY q = Player.targetY p1 /\
  Player.gridY q = Player.gridY p1 /\ Player.moving q = Player.moving p1 /\
  (Player.dead q = false -> Player.dead p1 = false) /\
  cameraY (fst (update g e)) = cameraY (updateCamera (set_player g p1)).
Proof.
  intros Hp Ho. cbv zeta.
  split; [|split; [|split; [|split; [|split]]]];
    try apply (update_fields g e Hp Ho).
  all: destruct (update_stages g e Hp Ho) as (ls & e6 & ->); cbv zeta;
    set (g2 := updateCamera _);
    set (g6 := set_lanes (updateProgress g2) ls);
    assert (P6 : player g6 = Player.update (player g))
      by (subst g6 g2; cbn [player set_lanes];
          now rewrite updateProgress_player, updateCamera_player);
    destruct (checkCollisions_course g6 e6) as (A1 & A2 & A3 & A4 & A5);
    cbv zeta in *; rewrite P6 in *;
    set (g7 := fst (checkCollisions g6 e6)) in *;
    set (e7 := snd (checkCollisions g6 e6));
    destruct (handleDeath_fields (checkDeathZone (updateParticles g7)) e7)
      as (_&_&_&_& -> &_);
    unfold checkDeathZone;
    destruct (Qltb _ _);
    cbn [player set_player updateParticles set_particles Player.y
         Player.targetY Player.gridY Player.moving Player.dead Player.die];
    auto; discriminate.
Qed.

Lemma update_steady g e : steady g -> steady (fst (update g e)).
Proof.
  intros [Sc Po]. split; [now apply update_on_screen|].
  destruct (playing g) eqn:Hp; [destruct (gameOver g) eqn:Ho|];
    try (rewrite update_idle by auto; assumption).
  destruct (update_course_of_play g e Hp Ho) as (Y & T & G & M & D & C).
  cbv zeta in *.
  destruct (update_course (player g)) as (T1 & G1 & D1 & R1). cbv zeta in *.
  destruct Po as (P1 & P2 & P3). cbv zeta in *.
  unfold poised. cbv zeta. rewrite Y, T, G, M, C. split; [|split].
  - intro H. now apply R1.
  - now rewrite T1, G1.
  - intro A. specialize (D A). rewrite D1 in D. specialize (P3 D).
    rewrite T1.
    destruct Sc as [Sc _]. unfold camera_target in Sc.
    unfold updateCamera. cbn [player set_player cameraY].
    destruct (Qltb _ (cameraY g)) eqn:E; [|exact P3].
    apply Qltb_lt in E. cbn [cameraY set_cameraY].
    rewrite sub_eq in *.
    change (Qred (ofZ (SCREEN_HEIGHT * 2) / 3)) with 400%Q in *.
    destruct (update_y_cases (player g)) as [U|[U|U]]; cbv zeta in U.
    + rewrite U in E. lra.
    + lra.
    + lra.
Qed.

Lemma keydown_steady g key e : steady g -> steady (fst (keydown g key e)).
Proof.
  intros [Sc Po]. split; [now apply keydown_on_screen|].
  destruct (keydown_moves g key e)
    as [(_ & _ & ->)|[->|(f & -> & [(dx & dy & Hd & ->)|[->| ->]])]].
  - destruct (restart_fields g e) as (_&_&_& C &_& P &_).
    unfold poised. cbv zeta. rewrite C, P.
    split; [intros _; reflexivity|].
    split; [vm_compute; discriminate|intros _; vm_compute; discriminate].
  - exact Po.
  - destruct Po as (P1 & P2 & P3). cbv zeta in *.
    unfold poised. cbn [fst on_player player cameraY set_player].
    unfold Player.move.
    destruct (Player.busy (player g)) eqn:B; [repeat split; assumption|].
    cbn [Player.moving Player.y Player.targetY Player.gridY Player.dead].
    apply orb_false_iff in B as [B _]. apply orb_false_iff in B as [Bm Bd].
    split; [discriminate|]. split; [unfold GRID_SIZE in *; cbn; lia|].
    intros _. destruct Sc as [_ Sc]. destruct (Sc Bd) as (Yd & _).
    unfold death_zone in Yd. rewrite !add_eq in Yd.
    change (ofZ SCREEN_HEIGHT) with 600%Q in Yd.
    change (ofZ GRID_SIZE) with 50%Q in Yd.
    rewrite (P1 Bm) in Yd. unfold ofZ in *.
    set (t' := (Player.gridY (player g) + dy) * GRID_SIZE + GRID_SIZE / 2).
    assert (Le : t' <= Player.targetY (player g) + 75)
      by (subst t'; unfold GRID_SIZE in *; cbn; lia).
    clearbody t'. rewrite Zle_Qle, inject_Z_plus in Le.
    change (inject_Z 75) with 75%Q in Le. lra.
  - destruct Po as (P1 & P2 & P3). cbv zeta in *.
    unfold poised. cbn [fst on_player player cameraY set_player].
    cbn. split; [exact P1|]. split; [exact P2|discriminate].
  - destruct Po as (P1 & P2 & P3). cbv zeta in *.
    unfold poised. cbn [fst on_player player cameraY set_player].
    cbn. split; [exact P1|]. split; [unfold GRID_SIZE in *; lia|exact P3].
Qed.

Lemma init_steady e : steady (fst (init e)).
Proof.
  split; [apply init_on_screen|].
  unfold init, bind, ret. destruct (loadHighScore e) as [hs e1].
  destruct (initializeLanes 1 e1) as [ls e2].
  unfold poised. cbn [fst player cameraY].
  split; [intros _; reflexivity|].
  split; [vm_compute; discriminate|intros _; vm_compute; discriminate].
Qed.

Lemma reached_steady e frames : steady (reached e frames).
Proof.
  apply (reached_preserves steady).
  - apply init_steady.
  - intros g key e'. apply keydown_steady.
  - intros g e'. apply update_steady.
Qed.

(** Before collision resolution a live player is less than 750 pixels
    below the camera, and the camera is not below its target. *)
Lemma beforeCollisions_within g e :
  playing g = true -> gameOver g = false -> steady g ->
  let g6 := fst (beforeCollisions g e) in
  Player.dead (player g6) = false ->
  (cameraY g6 + 400 <= Player.y (player g6) < cameraY g6 + 750)%Q.
Proof.
  intros Hp Ho [Sc Po] g6 D6.
  destruct (beforeCollisions_fields g e Hp Ho) as (P & C & _). cbv zeta in P, C.
  fold g6 in P, C. rewrite P in D6. rewrite P, C.
  destruct (update_course (player g)) as (T1 & _ & D1 & _). cbv zeta in *.
  rewrite D1 in D6.
  destruct Po as (_ & _ & P3). cbv zeta in P3. specialize (P3 D6).
  destruct Sc as [Sc1 Sc2]. destruct (Sc2 D6) as (Yd & _).
  unfold death_zone in Yd. rewrite !add_eq in Yd.
  change (ofZ SCREEN_HEIGHT) with 600%Q in Yd.
  change (ofZ GRID_SIZE) with 50%Q in Yd.
  unfold camera_target in Sc1. rewrite sub_eq in Sc1.
  change (Qred (ofZ (SCREEN_HEIGHT * 2) / 3)) with 400%Q in Sc1.
  unfold updateCamera. cbn [player set_player cameraY].
  destruct (update_y_cases (player g)) as [U|[U|U]]; cbv zeta in U;
    destruct (Qltb _ (cameraY g)) eqn:E;
    [apply Qltb_lt in E|apply Qltb_ge in E
    |apply Qltb_lt in E|apply Qltb_ge in E
    |apply Qltb_lt in E|apply Qltb_ge in E];
    cbn [cameraY set_cameraY set_player]; rewrite ?sub_eq in *;
    change (Qred (ofZ (SCREEN_HEIGHT * 2) / 3)) with 400%Q in *;
    rewrite ?U in *; lra.
Qed.

End PoiseFacts.

(** ** The lane that collision resolution looks at *)

Module SelectFacts.

Import Game GameFacts Shape RowFacts CoverFacts CollisionFacts Frame.

Lemma filter_single {A B} (f : A -> B) (p : A -> bool) (ls : list A) (l : A) :
  NoDup (map f ls) -> In l ls -> p l = true ->
  (forall x, In x ls -> p x = true -> f x = f l) ->
  filter p ls = [l].
Proof.
  induction ls as [|a ls IH]; intros N I P U; [easy|].
  cbn [map] in N. inversion N as [|? ? Na Nl]; subst.
  assert (Rest : forall x, In x ls -> f x = f a -> False).
  { intros x Ix E. apply Na. rewrite <- E. now apply in_map. }
  cbn [filter]. destruct I as [->|I].
  - rewrite P. f_equal.
    destruct (filter p ls) as [|x xs] eqn:F; [reflexivity|].
    assert (Ix : In x (filter p ls)) by (rewrite F; now left).
    apply filter_In in Ix as [Ix Px]. exfalso.
    apply (Rest x Ix). apply U; [now right|exact Px].
  - destruct (p a) eqn:Pa.
    + exfalso. apply (Rest l I). symmetry. apply U; [now left|exact Pa].
    + apply IH; auto. intros x Ix. apply U. now right.
Qed.

(** Inside the field the closed test finds the one lane whose row has the
    coordinate. *)
Lemma lane_in_field ls (y : Q) :
  stepping_up (map Lane.y ls) -> ls <> [] ->
  (inject_Z (last (map Lane.y ls) 0%Z) <= y)%Q ->
  (y < inject_Z (hd 0%Z (map Lane.y ls) + GRID_SIZE))%Q ->
  exists l, find (in_lane y) ls = Some l /\
            filter (Spec.in_row y) ls = [l].
Proof.
  intros S N L U.
  destruct (find_in_field ls y S N L U) as (l & F & I & R).
  exists l. split; [exact F|].
  apply (filter_single Lane.y); auto.
  - now apply stepping_up_NoDup.
  - intros x Ix Rx. now apply (in_row_unique ls y x l).
Qed.

(** At or below the lower line of the first lane no row has the
    coordinate, and the closed test can only find the first lane, on its
    lower line. *)
Lemma lane_below_field a ls (y : Q) :
  stepping_up (map Lane.y (a :: ls)) ->
  (inject_Z (Lane.y a + GRID_SIZE) <= y)%Q ->
  filter (Spec.in_row y) (a :: ls) = [] /\
  (find (in_lane y) (a :: ls) = None \/
   find (in_lane y) (a :: ls) = Some a /\
   (y == inject_Z (Lane.y a + GRID_SIZE))%Q).
Proof.
  intros S U. cbn [map] in S.
  pose proof (stepping_up_below _ _ S) as B. rewrite Forall_forall in B.
  assert (Up : forall l, In l (a :: ls) -> Lane.y l <= Lane.y a).
  { intros l [<-|I]; [lia|]. specialize (B (Lane.y l) (in_map _ _ _ I)). lia. }
  split.
  - assert (F : Forall (fun l => Spec.in_row y l = false) (a :: ls)).
    { apply Forall_forall. intros l I. unfold Spec.in_row.
      apply andb_false_iff. right. apply Qltb_ge. unfold ofZ.
      eapply Qle_trans; [|exact U]. rewrite <- Zle_Qle.
      specialize (Up l I). lia. }
    clear - F. induction F as [|l ls' Hl _ IH]; [reflexivity|].
    cbn [filter]. now rewrite Hl.
  - assert (R : find (in_lane y) ls = None).
    { assert (F : Forall (fun l => in_lane y l = false) ls).
      { apply Forall_forall. intros l I. unfold in_lane.
        apply andb_false_iff. right. unfold Qleb.
        destruct (Qle_bool y _) eqn:E; [|reflexivity].
        apply Qle_bool_iff in E. exfalso.
        specialize (B (Lane.y l) (in_map _ _ _ I)).
        assert (Lt : (inject_Z (Lane.y l + GRID_SIZE)
                      < inject_Z (Lane.y a + GRID_SIZE))%Q)
          by (rewrite <- Zlt_Qlt; lia).
        unfold ofZ in E. lra. }
      clear - F. induction F as [|l ls' Hl _ IH]; [reflexivity|].
      cbn [find]. now rewrite Hl. }
    cbn [find]. destruct (in_lane y a) eqn:E; [right|left; exact R].
    split; [reflexivity|].
    unfold in_lane in E. apply andb_true_iff in E as [_ E].
    apply Qleb_le in E. unfold ofZ in E. now apply Qle_antisym.
Qed.

End SelectFacts.

(** ** The frames in which collision resolution runs *)

Module CollisionFrameFacts.

(** The state before collision resolution in a frame of a run: what the
    run keeps of the field, of the player and of the camera. *)
Lemma collision_frame_shape e frames evs g6 e6 :
  Frame.collision_frame e frames evs = Some (g6, e6) ->
  Shape.stepping_up (Shape.rows g6) /\ Game.lanes g6 <> [] /\
  (inject_Z (last (Shape.rows g6) 0%Z) <= Game.cameraY g6 - 250)%Q /\
  (hd 0 (Shape.rows g6) = SCREEN_HEIGHT \/
   (Game.cameraY g6 + 700 <= inject_Z (hd 0%Z (Shape.rows g6)))%Q) /\
  Forall Frame.low_grass (Game.lanes g6) /\
  (Player.dead (Game.player g6) = false ->
   (Game.cameraY g6 + 400 <= Player.y (Game.player g6)
    < Game.cameraY g6 + 750)%Q).
Proof.
  unfold Frame.collision_frame.
  pose proof (GroundFacts.reached_grounded e frames) as G.
  pose proof (PoiseFacts.reached_steady e frames) as K.
  unfold Game.reached in G, K.
  destruct (Game.init e) as [g0 e0].
  destruct (Game.run g0 frames e0) as [g e1]. cbn [fst] in G, K.
  pose proof (GroundFacts.handleEvents_grounded g evs e1 G) as G1.
  pose proof (RunFacts.handleEvents_preserves Frame.steady
                (fun g' key e' => PoiseFacts.keydown_steady g' key e')
                evs g e1 K) as K1.
  destruct (Game.handleEvents g evs e1) as [r e2]. cbn [fst snd] in G1, K1.
  set (g1 := snd r) in *.
  destruct (Game.playing g1) eqn:Hp; [|discriminate].
  destruct (Game.gameOver g1) eqn:Ho; [discriminate|].
  cbn [negb orb]. intro H. injection H as H.
  assert (E6 : g6 = fst (Frame.beforeCollisions g1 e2)) by (now rewrite H).
  clear H.
  destruct (FrameFacts.beforeCollisions_fields g1 e2 Hp Ho) as (_ & _ & L & C).
  cbv zeta in L, C. rewrite <- E6 in L, C.
  destruct (GroundFacts.update_grounded g1 e2 G1) as [(_ & S & N & La & H) F].
  unfold Shape.rows in *. rewrite L, C in *.
  split; [exact S|]. split.
  { intro E. apply N. now rewrite E. }
  split; [exact La|]. split; [exact H|]. split; [exact F|].
  rewrite E6. exact (PoiseFacts.beforeCollisions_within g1 e2 Hp Ho K1).
Qed.

End CollisionFrameFacts.

(** * Properties of the specification *)

(** C1. In every frame of a run in which collision resolution runs, the
    game in play and the player alive, exactly one lane, or none, has the
    player's [y] in its row interval [[y, y+CELL)].  With one,
    [checkCollisions] resolves the player against this lane, and the
    outcome is that of the player and this lane alone, whatever the lane
    field holds otherwise: so on grass, or on a road none of whose own
    vehicles touches the player, nothing happens, whatever is on the rows
    above and below.  With none, [checkCollisions] does nothing. *)
Theorem collisions_look_at_one_lane (e : Env) (frames : list (list Event))
        (evs : list Event) (g6 : Game.t) (e6 : Env) :
  Frame.collision_frame e frames evs = Some (g6, e6) ->
  Player.dead (Game.player g6) = false ->
  match filter (Spec.in_row (Player.y (Game.player g6))) (Game.lanes g6) with
  | [] => Game.checkCollisions g6 e6 = (g6, e6)
  | [l] =>
      Game.checkCollisions g6 e6 = Game.resolve g6 l e6 /\
      (forall ls,
         Game.resolve (Game.set_lanes g6 ls) l e6 =
         (Game.set_lanes (fst (Game.resolve g6 l e6)) ls,
          snd (Game.resolve g6 l e6))) /\
      (Lane.type l = grass \/
       Lane.type l = road /\
       existsb (Game.checkVehicleCollision g6) (Lane.obstacles l) = false ->
       Game.checkCollisions g6 e6 = (g6, e6))
  | _ :: _ :: _ => False
  end.
Proof.
  intros H D.
  destruct (CollisionFrameFacts.collision_frame_shape e frames evs g6 e6 H)
    as (S & N & La & Hd & F & W).
  specialize (W D). unfold Shape.rows in *.
  set (y := Player.y (Game.player g6)) in *.
  destruct (Qlt_le_dec y (inject_Z (hd 0%Z (map Lane.y (Game.lanes g6))
                                    + GRID_SIZE))) as [U|U].
  - destruct (SelectFacts.lane_in_field (Game.lanes g6) y S N) as (l & Fl & ->);
      [lra|exact U|].
    assert (C : Game.checkCollisions g6 e6 = Game.resolve g6 l e6).
    { unfold Game.checkCollisions, Game.getLaneAtY. fold y. now rewrite D, Fl. }
    split; [exact C|]. split.
    + intro ls. apply CollisionFacts.resolve_set_lanes.
    + rewrite C. unfold Game.resolve. intros [T|[T V]]; rewrite T.
      * reflexivity.
      * rewrite V. reflexivity.
  - destruct (Game.lanes g6) as [|a ls] eqn:E; [congruence|].
    cbn [map hd] in *.
    destruct (SelectFacts.lane_below_field a ls y S U) as (-> & [Fn|[Fa Y]]).
    + apply CollisionFacts.checkCollisions_no_lane.
      unfold Game.getLaneAtY. fold y. now rewrite E.
    + unfold Game.checkCollisions, Game.getLaneAtY. fold y.
      rewrite D, E, Fa. unfold Game.resolve.
      inversion F as [|? ? Ga _]; subst.
      destruct Hd as [Hd|Hd].
      * rewrite (Ga ltac:(lia)). reflexivity.
      * exfalso. rewrite inject_Z_plus in Y.
        change (inject_Z GRID_SIZE) with 50%Q in Y. lra.
Qed.

(** The first frame of a game in play: the player, at rest with [y]
    exactly on the line between two rows, is tested against one lane. *)
Lemma collisions_look_at_one_lane_witness :
  let c := Frame.collision_frame (Scenario.constant (1 # 2))
             [[KEYDOWN K_SPACE]] [] in
  exists g6 e6 l,
    c = Some (g6, e6) /\ Player.dead (Game.player g6) = false /\
    filter (Spec.in_row (Player.y (Game.player g6))) (Game.lanes g6) = [l] /\
    Game.checkCollisions g6 e6 = Game.resolve g6 l e6.
Proof.
  intro c.
  destruct c as [[g6 e6]|] eqn:C.
  - assert (D : option_map (fun p => Player.dead (Game.player (fst p))) c
                = Some false) by (vm_compute; reflexivity).
    assert (N : option_map
                  (fun p => List.length
                              (filter (Spec.in_row
                                         (Player.y (Game.player (fst p))))
                                      (Game.lanes (fst p)))) c
                = Some 1%nat) by (vm_compute; reflexivity).
    rewrite C in D, N. cbn [option_map fst] in D, N.
    injection D as D. injection N as N.
    pose proof (collisions_look_at_one_lane _ _ _ g6 e6 C D) as T.
    destruct (filter _ (Game.lanes g6)) as [|l [|l' ls]] eqn:Fe;
      try discriminate N.
    exists g6, e6, l. destruct T as (T & _). repeat split; auto.
  - exfalso.
    assert (S : match c with Some _ => true | None => false end = true)
      by (vm_compute; reflexivity).
    rewrite C in S. discriminate S.
Defined.

(** C2. From a launch with a random source that keeps returning one half:
    after the start key and 153 idle frames the player stands alive on the
    grass; the frame in which the up key is pressed starts the hop, and
    at its end the player is still animating ([moving] is true) and has
    been killed by [checkCollisions], with the burst of twenty particles,
    by a vehicle of the road lane the hop is entering. *)
Theorem killed_in_mid_hop :
  let e := Scenario.constant (1 # 2) in
  let before := Game.reached e ([KEYDOWN K_SPACE] :: repeat [] 153) in
  let after := Game.reached e (Scenario.wait_then_hop 153) in
  (Player.moving (Game.player before) = false /\
   Player.dead (Game.player before) = false /\
   Game.particles before = []) /\
  (Player.moving (Game.player after) = true /\
   Player.dead (Game.player after) = true /\
   List.length (Game.particles after) = 20%nat /\
   Player.y (Game.player after) = (985 # 2)%Q /\
   Game.cameraY after = 0%Q).
Proof. vm_compute. repeat split. Qed.

(** C3. A fresh session on an all-grass field: after the start key and
    five accepted hops up the player is alive on row 5 (the spawn row is
    row 10) and the score is still 0, not 50; the score reaches 50 after
    fifteen hops, when the player is on row -5. *)
Theorem five_hops_score_nothing :
  let e := Scenario.constant 0 in
  let g5 := Game.reached e (Scenario.hops_up 5) in
  let g15 := Game.reached e (Scenario.hops_up 15) in
  Player.gridY (Game.player (Game.reached e [[KEYDOWN K_SPACE]])) = 10 /\
  (Player.gridY (Game.player g5) = 5 /\ Player.dead (Game.player g5) = false /\
   Game.bestProgress g5 = 0 /\ Game.score g5 = 0) /\
  (Player.gridY (Game.player g15) = -5 /\ Game.score g15 = 50).
Proof. vm_compute. repeat split. Qed.

(** C4, as stated: no reachable lane field shows three road lanes or three
    water lanes in a row.  With a random source that keeps
    returning one half, the twenty drawn lanes of the initial population
    are all road lanes. *)
Lemma three_roads_in_a_row :
  ~ (forall e frames,
        Spec.runs_bounded
          (map Lane.type (Game.lanes (Game.reached e frames))) = true).
Proof.
  intro H. specialize (H (Scenario.constant (1 # 2)) []).
  vm_compute in H. discriminate H.
Qed.

(** Forward generation does the same: after ten hops over an all-grass
    initial field, the three lanes generated ahead are road lanes. *)
Lemma three_roads_generated :
  let g := Game.reached (Scenario.switching 86 0 (1 # 2)) (Scenario.hops_up 10) in
  skipn 18 (map Lane.type (Game.lanes g)) = [road; road; road] /\
  Player.dead (Game.player g) = false.
Proof. vm_compute. auto. Qed.

(** C4, amended. In forward generation the weight of grass is 2, that of
    road is 1 when at least two of the last three lanes of the list are
    road and 3 otherwise, that of water is 1 when at least two of them are
    water and 2 otherwise; no weight is 0, and a round of the loop appends a
    lane of any given type when the random source says so.  The initial
    population, drawn with the fixed weights, can be twenty lanes of any one
    type. *)
Theorem third_lane_in_a_row_stays_possible (ls : list Lane.t) (ty : LaneType)
        (cam mult : Q) (h : Z) (e : Env) :
  Qltb (sub cam (ofZ (GRID_SIZE * 5))) (ofZ h) = true ->
  rsrc e (rpos e) = Scenario.draw_for (Game.laneWeights ls) ty ->
  (exists wr ww,
      Game.laneWeights ls = [2; wr; ww] /\
      (wr = 1 /\ 2 <= Game.count road (Game.recentLanes ls) \/
       wr = 3 /\ Game.count road (Game.recentLanes ls) < 2) /\
      (ww = 1 /\ 2 <= Game.count water (Game.recentLanes ls) \/
       ww = 2 /\ Game.count water (Game.recentLanes ls) < 2)) /\
  (exists l, Lane.type l = ty /\ Lane.y l = h - GRID_SIZE /\
             fst (Game.generate_loop 1 cam mult h ls e) = ls ++ [l]) /\
  map Lane.type
      (fst (Game.initializeLanes 1
              (Scenario.constant (Scenario.draw_for [2; 3; 2] ty)))) =
  repeat grass 3 ++ repeat ty 20.
Proof.
  intros C U. split; [apply LaneFieldFacts.laneWeights_cases|]. split.
  - now apply LaneFieldFacts.generate_step.
  - destruct ty; vm_compute; reflexivity.
Qed.

(** After a grass lane and two road lanes, the draw 2/5 appends a third
    road lane. *)
Lemma third_lane_in_a_row_stays_possible_witness :
  let ls := [Scenario.grass_below; Lane.mk 0 road [] 0 60 ROAD_GRAY [] 1 1;
             Lane.mk (-50) road [] 0 60 ROAD_GRAY [] 1 1] in
  let e := Scenario.constant (2 # 5) in
  (Qltb (sub 0 (ofZ (GRID_SIZE * 5))) (ofZ (-50)) = true /\
   rsrc e (rpos e) = Scenario.draw_for (Game.laneWeights ls) road) /\
  exists l, Lane.type l = road /\ Lane.y l = -50 - GRID_SIZE /\
            fst (Game.generate_loop 1 0 1 (-50) ls e) = ls ++ [l].
Proof.
  intros ls e. split; [split; reflexivity|].
  apply (third_lane_in_a_row_stays_possible ls road 0 1 (-50) e);
    reflexivity.
Defined.

(** C5. In every state the game reaches, from any launch and after any
    frames, the score is ten times the absolute value of the best progress;
    and a frame of a game in play (events, then [update]) never raises the
    best progress nor lowers the score, whatever the player's position. *)
Theorem score_follows_best_progress (e : Env) (frames : list (list Event))
        (evs : list Event) (e' : Env) :
  let g := Game.reached e frames in
  Game.startScreen g = false -> Game.gameOver g = false ->
  let g' := snd (fst (Game.frame g evs e')) in
  Game.score g = 10 * Z.abs (Game.bestProgress g) /\
  Game.score g' = 10 * Z.abs (Game.bestProgress g') /\
  Game.bestProgress g' <= Game.bestProgress g /\
  Game.score g <= Game.score g'.
Proof.
  intros g Hs Ho g'.
  pose proof (GameFacts.reached_inv e frames) as I. fold g in I.
  pose proof (GameFacts.frame_inv g evs e' I) as I'. fold g' in I'.
  pose proof (GameFacts.frame_progress g evs e' I Hs Ho) as [B S].
  fold g' in B, S.
  destruct I as [I _], I' as [I' _]. auto.
Qed.

(** On an all-grass field, the twelfth hop of a player who has made eleven. *)
Lemma score_follows_best_progress_witness :
  let g := Game.reached (Scenario.constant 0) (Scenario.hops_up 11) in
  let g' := snd (fst (Game.frame g [KEYDOWN K_UP] (Scenario.constant 0))) in
  (Game.startScreen g = false /\ Game.gameOver g = false) /\
  Game.score g = 10 * Z.abs (Game.bestProgress g) /\
  Game.score g' = 10 * Z.abs (Game.bestProgress g') /\
  Game.bestProgress g' <= Game.bestProgress g /\
  Game.score g <= Game.score g'.
Proof.
  intros g g'.
  assert (H : Game.startScreen g = false /\ Game.gameOver g = false)
    by (vm_compute; auto).
  split; [exact H|].
  exact (score_follows_best_progress (Scenario.constant 0)
           (Scenario.hops_up 11) [KEYDOWN K_UP] (Scenario.constant 0)
           (proj1 H) (proj2 H)).
Defined.

(** C6. Over any sequence of frames in which the restart key is not
    pressed, [cameraY] never increases; and one [update] of a game in play
    sets it to the target, the updated player's [y] minus two thirds of
    the screen height (400), when the target is strictly smaller, and leaves
    it as it is otherwise. *)
Theorem camera_never_moves_down (g : Game.t) (e : Env)
        (frames : list (list Event)) :
  forallb Game.no_restart frames = true ->
  (Game.cameraY (fst (Game.run g frames e)) <= Game.cameraY g)%Q /\
  (Game.playing g = true -> Game.gameOver g = false ->
   let target := (Player.y (Player.update (Game.player g)) - 400)%Q in
   let c' := Game.cameraY (fst (Game.update g e)) in
   ((target < Game.cameraY g)%Q -> (c' == target)%Q) /\
   ((Game.cameraY g <= target)%Q -> c' = Game.cameraY g)).
Proof.
  intro H. split; [now apply GameFacts.run_cameraY_le|].
  intros Hp Ho target c'. subst c'.
  destruct (GameFacts.update_fields g e Hp Ho) as (-> & _).
  unfold Game.updateCamera.
  cbn [Game.player Game.set_player Game.cameraY].
  change (Qred (ofZ (SCREEN_HEIGHT * 2) / 3)) with 400%Q.
  assert (T : (sub (Player.y (Player.update (Game.player g))) 400 == target)%Q)
    by apply sub_eq.
  destruct (Qltb _ _) eqn:E.
  - split; [intros _; exact T|].
    intro L. apply Qltb_lt in E. rewrite T in E.
    exfalso. exact (Qlt_not_le _ _ E L).
  - split; [|reflexivity].
    intro L. apply Qltb_ge in E. rewrite T in E.
    exfalso. exact (Qlt_not_le _ _ L E).
Qed.

(** Two hops up after the start of a game. *)
Lemma camera_never_moves_down_witness :
  let e := Scenario.constant 0 in
  let g := Game.reached e [[KEYDOWN K_SPACE]] in
  let frames := Scenario.hop_up ++ Scenario.hop_up in
  forallb Game.no_restart frames = true /\
  (Game.cameraY (fst (Game.run g frames e)) <= Game.cameraY g)%Q.
Proof.
  intros e g frames. split; [reflexivity|].
  apply (camera_never_moves_down g e frames). reflexivity.
Defined.

(** C7. Column clamping: an accepted [move] leaves [gridX] within
    [0, SCREEN_WIDTH // GRID_SIZE - 1] = [0, 15] whatever it was before, and
    from a player within these columns every sequence of move requests and
    frame updates keeps [gridX] there after each step. *)
Theorem gridX_stays_in_columns (p : Player.t) (dx dy : Z)
        (acts : list Player.action) :
  Player.busy p = false ->
  0 <= Player.gridX (Player.move p dx dy) <= 15 /\
  Forall (fun q => 0 <= Player.gridX q <= 15)
         (Player.trace (Player.move p dx dy) acts).
Proof.
  intro H.
  pose proof (PlayerFacts.move_accepted_columns p dx dy H) as C.
  split; [exact C|].
  exact (PlayerFacts.trace_columns acts _ C).
Qed.

(** A player in the rightmost column who keeps asking to go right. *)
Lemma gridX_stays_in_columns_witness :
  let p := Player.mk 775 475 15 9 775 475 false false 0 in
  let acts := [Player.Tick; Player.Tick; Player.Tick; Player.Tick;
               Player.Tick; Player.Tick; Player.Tick; Player.Tick;
               Player.Tick; Player.Tick; Player.Tick; Player.Tick;
               Player.Move 1 0; Player.Tick; Player.Move (-1) 0] in
  Player.busy p = false /\
  0 <= Player.gridX (Player.move p 1 0) <= 15 /\
  Forall (fun q => 0 <= Player.gridX q <= 15)
         (Player.trace (Player.move p 1 0) acts).
Proof.
  intros p acts. split; [reflexivity|].
  apply (gridX_stays_in_columns p 1 0 acts). reflexivity.
Defined.

(** C8. A [move] request made while the player is animating, is dead, or is
    within the post-move cooldown is dropped: the player record that comes
    back is the one that went in, so each of its nine fields is unchanged;
    the game that receives the arrow key in play is unchanged as well. *)
Theorem move_rejected_is_noop (p : Player.t) (dx dy : Z) :
  Player.moving p = true \/ Player.dead p = true \/ 0 < Player.moveCooldown p ->
  Player.move p dx dy = p /\
  forall g, Game.player g = p ->
            Game.on_player g (fun q => Player.move q dx dy) = g.
Proof.
  intro H. apply PlayerFacts.busy_true_iff in H.
  split.
  - now apply PlayerFacts.move_busy.
  - intros g <-. unfold Game.on_player.
    rewrite PlayerFacts.move_busy by assumption.
    apply GameFacts.set_player_same.
Qed.

(** A request to go up in the middle of a hop. *)
Lemma move_rejected_is_noop_witness :
  let p := Player.mk 400 (985 # 2) 8 9 425 475 true false 4 in
  (Player.moving p = true \/ Player.dead p = true \/ 0 < Player.moveCooldown p)
  /\ Player.move p 0 (-1) = p.
Proof.
  intro p. split.
  - left. reflexivity.
  - apply (move_rejected_is_noop p 0 (-1)). left. reflexivity.
Defined.

(** The claim as it is written, the round trip for every integer, fails
    for a high score of 4301 digits: [str] raises once the file is emptied,
    and loading gives 0. *)
Lemma round_trip_fails_beyond_the_limit :
  ~ (forall (g : Game.t) (e : Env),
       write_ok (disk e) = true ->
       fst (Game.loadHighScore (snd (Game.saveHighScore g e))) =
       Game.highScore g).
Proof.
  intro H.
  specialize (H (Game.mk false false true 0 (10 ^ Z.of_nat PyInt.MAX_STR_DIGITS)
                         0 0 (Player.init 400 500) [] [] 1 61 0)
                (Scenario.with_file None) eq_refl).
  unfold Game.saveHighScore, Game.loadHighScore in H.
  cbn [Game.highScore Scenario.with_file disk write_ok snd file_text] in H.
  assert (P : 0 < 10 ^ Z.of_nat PyInt.MAX_STR_DIGITS)
    by (apply Z.pow_pos_nonneg; lia).
  destruct (RecordFacts.saved_text (10 ^ Z.of_nat PyInt.MAX_STR_DIGITS))
    as [_ E].
  set (B := 10 ^ Z.of_nat PyInt.MAX_STR_DIGITS) in *. clearbody B.
  rewrite E in H by lia. cbn in H. lia.
Qed.

(** C9. Saving a high score of at most 4300 decimal digits to a file that
    can be written and loading it back gives the same integer; for a high
    score of more digits, from ten to the power 4300 on, the file is left
    empty and loading gives 0.  Loading gives 0, and nothing else happens,
    when the file cannot be read or when its text is not an integer. *)
Theorem high_score_round_trip (g : Game.t) (e : Env) :
  (write_ok (disk e) = true ->
   let e' := snd (Game.saveHighScore g e) in
   (Z.abs (Game.highScore g) < 10 ^ Z.of_nat PyInt.MAX_STR_DIGITS ->
    fst (Game.loadHighScore e') = Game.highScore g) /\
   (10 ^ Z.of_nat PyInt.MAX_STR_DIGITS <= Z.abs (Game.highScore g) ->
    file_text (disk e') = Some [] /\ Game.loadHighScore e' = (0, e'))) /\
  (file_text (disk e) = None -> Game.loadHighScore e = (0, e)) /\
  (forall t, file_text (disk e) = Some t -> PyInt.int_text t = None ->
             Game.loadHighScore e = (0, e)).
Proof.
  split; [|split].
  - intros W e'. subst e'.
    destruct (RecordFacts.saved_text (Game.highScore g)) as [S1 S2].
    unfold Game.saveHighScore, Game.loadHighScore. rewrite W.
    cbn [snd disk file_text]. split; intro B.
    + now rewrite (S1 B).
    + rewrite (S2 B). split; reflexivity.
  - intro N. unfold Game.loadHighScore. now rewrite N.
  - intros t T P. unfold Game.loadHighScore. now rewrite T, P.
Qed.

(** A score of 1230 saved over a file whose text is not an integer. *)
Lemma high_score_round_trip_witness :
  let e := Scenario.with_file (Some (PyInt.text_of "12 points")) in
  let g := Game.mk false false true 1230 1230 (-123) 0
                   (Player.init 400 500) [] [] 1 61 0 in
  write_ok (disk e) = true /\
  fst (Game.loadHighScore (snd (Game.saveHighScore g e))) = 1230 /\
  Game.loadHighScore e = (0, e).
Proof.
  intros e g.
  destruct (high_score_round_trip g e) as (R & _ & C).
  split; [reflexivity|]. split.
  - apply (R eq_refl). apply Z.lt_le_trans with (10 ^ 4).
    + reflexivity.
    + apply Z.pow_le_mono_r; [lia|]. vm_compute. discriminate.
  - apply (C (PyInt.text_of "12 points")); reflexivity.
Defined.

(** C10. [restart] keeps the in-memory high score and sets every other
    session field anew: score, best progress and camera at 0, difficulty
    at 1, a fresh player at the spawn point, no particles, death timer at 0,
    a newly drawn lane field, state tags for play.  No key changes the high
    score; an [update] changes it only when it ends the game with a score
    above it, and then to that score. *)
Theorem restart_keeps_high_score (g : Game.t) (e : Env) :
  let g' := fst (Game.restart g e) in
  (Game.highScore g' = Game.highScore g /\
   Game.score g' = 0 /\ Game.bestProgress g' = 0 /\
   Game.cameraY g' = 0%Q /\ Game.difficultyMultiplier g' = 1%Q /\
   Game.player g' = Player.init 400 500 /\
   Game.particles g' = [] /\ Game.deathAnimationTimer g' = 0 /\
   Game.lanes g' = fst (Game.initializeLanes 1 e) /\
   Game.playing g' = true /\ Game.gameOver g' = false /\
   Game.startScreen g' = false) /\
  (forall key, Game.highScore (fst (Game.keydown g key e)) = Game.highScore g) /\
  (let g1 := fst (Game.update g e) in
   Game.highScore g1 = Game.highScore g \/
   Game.gameOver g = false /\ Game.gameOver g1 = true /\
   Game.highScore g < Game.score g1 /\ Game.highScore g1 = Game.score g1).
Proof.
  intro g'. subst g'. split; [|split].
  - pose proof (GameFacts.restart_fields g e) as H. cbv zeta in H.
    change (SCREEN_WIDTH / 2) with 400 in H.
    change (SCREEN_HEIGHT - GRID_SIZE * 2) with 500 in H. tauto.
  - intro key. apply GameFacts.keydown_highScore.
  - cbv zeta.
    destruct (Game.playing g) eqn:Hp; [destruct (Game.gameOver g) eqn:Ho|].
    + left. apply GameFacts.update_highScore_idle. auto.
    + destruct (GameFacts.update_fields g e Hp Ho) as (_ & _ & _ & [H|H]);
        [left; exact H|right; tauto].
    + left. apply GameFacts.update_highScore_idle. auto.
Qed.

(** * Further properties *)

(** X1. Death is final within a life: over frames in which the restart key
    is not pressed, a dead player stays dead, whatever keys are pressed and
    whatever the lanes do. *)
Theorem death_is_final (g : Game.t) (e : Env) (frames : list (list Event)) :
  forallb Game.no_restart frames = true ->
  Player.dead (Game.player g) = true ->
  Player.dead (Game.player (fst (Game.run g frames e))) = true.
Proof.
  intros Hn D.
  apply (DeathFacts.run_keeps (fun g => Player.dead (Game.player g) = true));
    auto using DeathFacts.keydown_dead_stays, DeathFacts.update_dead_stays.
Qed.

(** A player killed in mid-hop, then the up key, an idle frame and the
    kill key. *)
Lemma death_is_final_witness :
  let e := Scenario.constant (1 # 2) in
  let g := Game.reached e (Scenario.wait_then_hop 153) in
  let frames := [[KEYDOWN K_UP]; []; [KEYDOWN K_k]] in
  (forallb Game.no_restart frames = true /\
   Player.dead (Game.player g) = true) /\
  Player.dead (Game.player (fst (Game.run g frames e))) = true.
Proof.
  intros e g frames.
  assert (H : forallb Game.no_restart frames = true /\
              Player.dead (Game.player g) = true) by (vm_compute; auto).
  split; [exact H|].
  exact (death_is_final g e frames (proj1 H) (proj2 H)).
Defined.

(** X2. The game ends 61 frames after the death: for a dead player in a
    game in play, over frames without restart or quit event, the death
    timer grows by one per frame; the game is still in play while the
    timer is at most 60 and is over, with the high score at least the
    score, once the timer is 61. *)
Theorem game_over_follows_death (g : Game.t) (e : Env)
        (frames : list (list Event)) :
  forallb Shape.calm frames = true ->
  Game.playing g = true -> Game.gameOver g = false ->
  Player.dead (Game.player g) = true ->
  Game.deathAnimationTimer g <= 60 ->
  Game.deathAnimationTimer g + Z.of_nat (List.length frames) <= 61 ->
  let g' := fst (Game.run g frames e) in
  Game.deathAnimationTimer g' =
    Game.deathAnimationTimer g + Z.of_nat (List.length frames) /\
  (Game.deathAnimationTimer g' <= 60 ->
   Game.playing g' = true /\ Game.gameOver g' = false) /\
  (Game.deathAnimationTimer g' = 61 ->
   Game.playing g' = false /\ Game.gameOver g' = true /\
   Game.score g' <= Game.highScore g').
Proof.
  intros C Hp Ho D T0 T g'.
  destruct (DeathFacts.run_dead_countdown frames g e C Hp Ho D T0 T) as [A B].
  fold g' in A, B. split; [exact A|].
  destruct (Game.deathAnimationTimer g' >? 60) eqn:E.
  - apply Z.gtb_lt in E. split; [lia|auto].
  - rewrite Z.gtb_ltb, Z.ltb_ge in E. split; [auto|lia].
Qed.

(** The player killed in mid-hop (timer at 1) and sixty idle frames. *)
Lemma game_over_follows_death_witness :
  let e := Scenario.constant (1 # 2) in
  let g := Game.reached e (Scenario.wait_then_hop 153) in
  let frames := repeat [] 60 in
  (forallb Shape.calm frames = true /\
   Game.playing g = true /\ Game.gameOver g = false /\
   Player.dead (Game.player g) = true /\
   Game.deathAnimationTimer g <= 60 /\
   Game.deathAnimationTimer g + Z.of_nat (List.length frames) <= 61) /\
  Game.gameOver (fst (Game.run g frames e)) = true.
Proof.
  intros e g frames.
  assert (H : forallb Shape.calm frames = true /\
              Game.playing g = true /\ Game.gameOver g = false /\
              Player.dead (Game.player g) = true /\
              Game.deathAnimationTimer g = 1 /\
              Game.deathAnimationTimer g + Z.of_nat (List.length frames) = 61)
    by (vm_compute; auto 7).
  destruct H as (H1 & H2 & H3 & H4 & H0 & H5).
  split; [repeat split; auto; rewrite ?H0, ?H5; discriminate|].
  destruct (game_over_follows_death g e frames H1 H2 H3 H4) as (T & _ & O).
  - rewrite H0. discriminate.
  - rewrite H5. discriminate.
  - apply O. rewrite T. exact H5.
Defined.

(** X3. [handleEvents] returns [False] exactly when the queue holds a quit
    event or a press of the escape key, and the events that follow the
    first of these are never looked at. *)
Theorem quit_stops_the_queue (g : Game.t) (e : Env)
        (evs evs1 evs2 : list Event) (q : Event) :
  Shape.is_quit q = true ->
  fst (fst (Game.handleEvents g evs e)) = negb (existsb Shape.is_quit evs) /\
  Game.handleEvents g (evs1 ++ q :: evs2) e =
  Game.handleEvents g (evs1 ++ [q]) e.
Proof.
  intro Hq. split.
  - apply SessionFacts.handleEvents_returns.
  - now apply SessionFacts.handleEvents_stops_at_quit.
Qed.

(** In play: a hop to the right, the escape key, then keys that are not
    read: the kill key and a hop up. *)
Lemma quit_stops_the_queue_witness :
  let e := Scenario.constant 0 in
  let g := Game.reached e [[KEYDOWN K_SPACE]] in
  Shape.is_quit (KEYDOWN K_ESCAPE) = true /\
  Game.handleEvents g ([KEYDOWN K_RIGHT] ++ KEYDOWN K_ESCAPE
                         :: [KEYDOWN K_k; KEYDOWN K_UP]) e =
  Game.handleEvents g ([KEYDOWN K_RIGHT] ++ [KEYDOWN K_ESCAPE]) e.
Proof.
  intros e g. split; [reflexivity|].
  apply (quit_stops_the_queue g e [] [KEYDOWN K_RIGHT]
           [KEYDOWN K_k; KEYDOWN K_UP] (KEYDOWN K_ESCAPE)).
  reflexivity.
Defined.

(** X4. On the start screen and on the game-over screen nothing moves: as
    long as the space key is not pressed, frames leave a game that is not
    in play, and the environment, exactly as they are. *)
Theorem idle_screens_are_inert (g : Game.t) (e : Env)
        (frames : list (list Event)) :
  Game.playing g = false ->
  forallb Game.no_restart frames = true ->
  Game.run g frames e = (g, e).
Proof. intros Hp Hn. now apply SessionFacts.run_not_playing. Qed.

(** The start screen of a launch, arrow keys, the kill and skip keys. *)
Lemma idle_screens_are_inert_witness :
  let e := snd (Game.init (Scenario.constant (1 # 2))) in
  let g := fst (Game.init (Scenario.constant (1 # 2))) in
  let frames := [[KEYDOWN K_UP; KEYDOWN K_l]; []; [KEYDOWN K_k; OTHER]] in
  (Game.playing g = false /\ forallb Game.no_restart frames = true) /\
  Game.run g frames e = (g, e).
Proof.
  intros e g frames.
  split; [split; reflexivity|].
  apply (idle_screens_are_inert g e frames); reflexivity.
Defined.

(** X5. In every state the game reaches exactly one of the three state
    tags [startScreen], [playing], [gameOver] is set. *)
Theorem one_state_at_a_time (e : Env) (frames : list (list Event)) :
  Shape.one_state (Game.reached e frames).
Proof.
  apply (RunFacts.reached_preserves Shape.one_state).
  - apply SessionFacts.init_one_state.
  - intros g key e'. apply SessionFacts.keydown_one_state.
  - intros g e'. apply SessionFacts.update_one_state.
Qed.

(** X6. A hop of at most one cell ends within eleven frames: a player in
    motion whose target is at most 50 pixels away in each direction is,
    after eleven calls of [update], at rest exactly on the target, in the
    same cell and as alive as before, with the cooldown run out. *)
Theorem hop_ends_in_eleven_frames (p : Player.t) :
  Player.moving p = true -> Shape.within 50 p -> Player.moveCooldown p <= 11 ->
  let q := Shape.updates 11 p in
  Player.moving q = false /\
  Player.x q = ofZ (Player.targetX p) /\ Player.y q = ofZ (Player.targetY p) /\
  Player.gridX q = Player.gridX p /\ Player.gridY q = Player.gridY p /\
  Player.dead q = Player.dead p /\ Player.moveCooldown q <= 0.
Proof. exact (HopFacts.hop_ends p). Qed.

(** The first hop up from the spawn point. *)
Lemma hop_ends_in_eleven_frames_witness :
  let p := Player.move (Player.init 400 500) 0 (-1) in
  (Player.moving p = true /\ Shape.within 50 p /\ Player.moveCooldown p <= 11) /\
  Player.x (Shape.updates 11 p) = 425%Q /\
  Player.y (Shape.updates 11 p) = 475%Q.
Proof.
  intro p.
  assert (H : Player.moving p = true /\ Shape.within 50 p /\
              Player.moveCooldown p <= 11).
  { split; [reflexivity|]. split; [|discriminate].
    split; vm_compute; discriminate. }
  split; [exact H|].
  destruct H as (H1 & H2 & H3).
  destruct (hop_ends_in_eleven_frames p H1 H2 H3) as (_ & X & Y & _).
  split; [exact X|exact Y].
Defined.

(** X7. From cell centre to cell centre: a player at rest in the centre of
    its cell, able to move, who asks for a step of at most one cell in each
    direction is, eleven frames later, at rest in the centre of the cell it
    asked for (the column clamped to the screen) and able to move again. *)
Theorem step_between_cell_centres (p : Player.t) (dx dy : Z) :
  Player.busy p = false -> Shape.centred p ->
  0 <= Player.gridX p <= 15 -> -1 <= dx <= 1 -> -1 <= dy <= 1 ->
  let q := Shape.updates 11 (Player.move p dx dy) in
  Player.busy q = false /\ Shape.centred q /\
  Player.gridX q = Z.max 0 (Z.min 15 (Player.gridX p + dx)) /\
  Player.gridY q = Player.gridY p + dy.
Proof.
  intros B (M & X & Y) GX DX DY q.
  assert (Bd : Player.dead p = false /\ (Player.moveCooldown p <= 0)).
  { unfold Player.busy in B. apply orb_false_iff in B as [B C].
    apply orb_false_iff in B as [_ B]. apply Z.ltb_ge in C. auto. }
  set (m := Player.move p dx dy) in *.
  assert (E : m = Player.mk (Player.x p) (Player.y p)
                    (Z.max 0 (Z.min 15 (Player.gridX p + dx)))
                    (Player.gridY p + dy)
                    (Z.max 25 (Z.min 775 ((Player.gridX p + dx) * 50 + 25)))
                    ((Player.gridY p + dy) * 50 + 25) true (Player.dead p) 5).
  { subst m. unfold Player.move. rewrite B. reflexivity. }
  assert (TX : Player.targetX m = Player.gridX m * 50 + 25).
  { rewrite E. cbn [Player.targetX Player.gridX]. lia. }
  assert (TY : Player.targetY m = Player.gridY m * 50 + 25).
  { rewrite E. reflexivity. }
  assert (W : Shape.within 50 m).
  { unfold Shape.within. rewrite TX, TY.
    replace (Player.x m) with (Player.x p) by (rewrite E; reflexivity).
    replace (Player.y m) with (Player.y p) by (rewrite E; reflexivity).
    rewrite X, Y. unfold ofZ.
    change (GRID_SIZE / 2) with 25. change GRID_SIZE with 50.
    unfold Qminus. rewrite <- !inject_Z_opp, <- !inject_Z_plus.
    split; apply Qabs_Qle_condition; change (- (50))%Q with (inject_Z (-50));
      change 50%Q with (inject_Z 50); rewrite <- !Zle_Qle;
      rewrite E; cbn [Player.gridX Player.gridY]; lia. }
  assert (Mm : Player.moving m = true) by (rewrite E; reflexivity).
  assert (Cm : Player.moveCooldown m <= 11) by (rewrite E; cbn; lia).
  destruct (HopFacts.hop_ends m Mm W Cm)
    as (M' & X' & Y' & G1 & G2 & D' & C').
  fold q in M', X', Y', G1, G2, D', C'. clearbody q. clearbody m.
  unfold Shape.centred.
  repeat split.
  - unfold Player.busy. rewrite M', D'.
    replace (Player.dead m) with false
      by (rewrite E; cbn [Player.dead]; symmetry; apply Bd).
    cbn [orb]. apply Z.ltb_ge. exact C'.
  - exact M'.
  - rewrite X', G1, TX. reflexivity.
  - rewrite Y', G2, TY. reflexivity.
  - rewrite G1, E. reflexivity.
  - rewrite G2, E. reflexivity.
Qed.

(** A step to the right from the centre of the cell above the spawn
    point. *)
Lemma step_between_cell_centres_witness :
  let p := Player.mk 425 475 8 9 425 475 false false 0 in
  (Player.busy p = false /\ Shape.centred p) /\
  Player.gridX (Shape.updates 11 (Player.move p 1 0)) = 9.
Proof.
  intro p.
  assert (H : Player.busy p = false /\ Shape.centred p)
    by (split; [reflexivity|repeat split]).
  split; [exact H|].
  destruct (step_between_cell_centres p 1 0 (proj1 H) (proj2 H))
    as (_ & _ & G & _); [cbn; lia|lia|lia|].
  exact G.
Defined.


(** X9. The logs of a water lane have the lane's row as their top and are
    35 pixels high, and [checkLogCollision] wants the player's [y] between
    top and bottom of the log: a player whom [getLaneAtY] puts on the
    water lane with [y] more than 35 pixels below the lane's top is
    drowned by [checkCollisions], whatever logs are there. *)
Theorem low_in_the_water_drowns (g : Game.t) (e : Env) (l : Lane.t) :
  Player.dead (Game.player g) = false ->
  Game.getLaneAtY g (Player.y (Game.player g)) = Some l ->
  Lane.type l = water ->
  Forall (fun o => Obstacle.y o = Lane.y l /\ Obstacle.height o = 35)
         (Lane.obstacles l) ->
  (inject_Z (Lane.y l + 35) < Player.y (Game.player g))%Q ->
  Player.dead (Game.player (fst (Game.checkCollisions g e))) = true.
Proof.
  intros D L T F Y. unfold Game.checkCollisions. rewrite D, L.
  unfold Game.resolve. rewrite T.
  assert (N : find (Game.checkLogCollision g) (Lane.obstacles l) = None).
  { induction F as [|o os [Oy Oh] _ IH]; [reflexivity|].
    cbn [find]. rewrite IH.
    replace (Game.checkLogCollision g o) with false; [reflexivity|].
    symmetry. unfold Game.checkLogCollision. rewrite Oy, Oh.
    apply andb_false_iff. right. unfold Qleb.
    destruct (Qle_bool _ _) eqn:E; [|reflexivity].
    apply Qle_bool_iff in E. exfalso. exact (Qlt_not_le _ _ Y E). }
  rewrite N. apply CollisionFacts.kill_dead.
Qed.

(** The second frame of a hop up into a water lane with a log across the
    whole screen: [y] is 49.5 below the top of the lane. *)
Lemma low_in_the_water_drowns_witness :
  let log := Obstacle.mk Obstacle.Log 0 0 1 800 35 (139, 69, 19) in
  let l := Lane.mk 0 water [log] 0 60 WATER_BLUE [] 1 1 in
  let p := Player.mk 400 (99 # 2) 8 0 425 25 true false 3 in
  let g := Game.mk false true false 0 0 0 (-351) p
                   [Scenario.grass_below; l] [] 1 0 0 in
  let e := Scenario.constant 0 in
  (Player.dead (Game.player g) = false /\
   Game.getLaneAtY g (Player.y (Game.player g)) = Some l /\
   Lane.type l = water /\
   (inject_Z (Lane.y l + 35) < Player.y (Game.player g))%Q) /\
  Player.dead (Game.player (fst (Game.checkCollisions g e))) = true.
Proof.
  intros log l p g e.
  split; [repeat split|].
  apply (low_in_the_water_drowns g e l); try reflexivity.
  repeat constructor.
Defined.

(** X10. In every state the game reaches, a grass lane has no obstacle,
    the obstacles of a road lane are vehicles and those of a water lane are
    logs, each on the row of its lane, of the height of its class (30 and
    35), of a width in the bounds of its class (60 to 100, 100 to 180), and
    no further off screen than the margin at which [update] drops it (100
    and 200 pixels on either side). *)
Theorem traffic_fits_its_lane (e : Env) (frames : list (list Event)) :
  Forall
    (fun l =>
       match Lane.type l with
       | grass => Lane.obstacles l = []
       | road =>
           Forall (fun o => Shape.obstacle_shape l Shape.vehicles o /\
                            Shape.obstacle_in_range Shape.vehicles o)
                  (Lane.obstacles l)
       | water =>
           Forall (fun o => Shape.obstacle_shape l Shape.logs o /\
                            Shape.obstacle_in_range Shape.logs o)
                  (Lane.obstacles l)
       end)
    (Game.lanes (Game.reached e frames)).
Proof.
  destruct (FieldFacts.reached_field_ok e frames) as [_ F].
  eapply Forall_impl; [|exact F]. intros l H. unfold Shape.lane_ok in H.
  destruct (Lane.type l); [exact H| |];
    destruct H as (_ & _ & H); (eapply Forall_impl; [|exact H]); cbn; tauto.
Qed.

(** X11. In every state the game reaches, each road or water lane goes
    left or right (direction 1 or -1), has a spawn interval in the bounds
    of its class (40 to 80 frames, 60 to 100 frames), and a spawn timer
    that is non-negative and below the interval. *)
Theorem lanes_keep_time (e : Env) (frames : list (list Event)) :
  Forall
    (fun l =>
       match Lane.type l with
       | grass => True
       | road => Shape.lane_timing l Shape.vehicles
       | water => Shape.lane_timing l Shape.logs
       end)
    (Game.lanes (Game.reached e frames)).
Proof.
  destruct (FieldFacts.reached_field_ok e frames) as [_ F].
  eapply Forall_impl; [|exact F]. intros l H. unfold Shape.lane_ok in H.
  destruct (Lane.type l); [exact I| |]; apply H.
Qed.


(** X13. In every state the game reaches, each lane of the lane list is
    exactly one row (50 pixels) above the lane before it: the rows are in
    decreasing order without gap, and no two lanes share a row. *)
Theorem rows_step_up (e : Env) (frames : list (list Event)) :
  let g := Game.reached e frames in
  Shape.stepping_up (Shape.rows g) /\ NoDup (Shape.rows g).
Proof.
  intro g. destruct (SpanFacts.reached_spans e frames) as (_ & S & _).
  split; [exact S|]. now apply RowFacts.stepping_up_NoDup.
Qed.

(** X14. In every state the game reaches the camera is at or above its
    starting point, the lane list is not empty and its topmost lane is
    250 pixels or more above the camera: lanes are generated ahead of the
    screen before they come into view. *)
Theorem lanes_run_ahead_of_the_camera (e : Env) (frames : list (list Event)) :
  let g := Game.reached e frames in
  (Game.cameraY g <= 0)%Q /\ Game.lanes g <> [] /\
  (inject_Z (Game.highest (Game.lanes g)) <= Game.cameraY g - 250)%Q.
Proof.
  intro g. destruct (SpanFacts.reached_spans e frames) as (C & S & N & L & _).
  fold g in C, S, N, L. split; [exact C|]. split.
  - intro E. apply N. unfold Shape.rows. now rewrite E.
  - rewrite (RowFacts.highest_last _ S). exact L.
Qed.

(** X15. The screen is always covered: in every state the game reaches,
    for every coordinate from 250 pixels above the camera to the bottom of
    the screen, [getLaneAtY] returns a lane, this lane has the coordinate
    in its half-open row [[y, y+CELL)], and every lane that has it is on
    the same row. *)
Theorem screen_is_covered (e : Env) (frames : list (list Event)) (y : Q) :
  let g := Game.reached e frames in
  (Game.cameraY g - 250 <= y)%Q ->
  (y < Game.cameraY g + inject_Z SCREEN_HEIGHT)%Q ->
  exists l,
    Game.getLaneAtY g y = Some l /\ In l (Game.lanes g) /\
    Spec.in_row y l = true /\
    forall l', In l' (Game.lanes g) -> Spec.in_row y l' = true ->
               Lane.y l' = Lane.y l.
Proof.
  intros g Y1 Y2.
  destruct (SpanFacts.reached_spans e frames) as (C & S & N & L & H).
  fold g in C, S, N, L, H. unfold Shape.rows in *.
  change (inject_Z SCREEN_HEIGHT) with 600%Q in Y2.
  destruct (CoverFacts.find_in_field (Game.lanes g) y S) as (l & F & I & R).
  - intro E. apply N. now rewrite E.
  - lra.
  - rewrite inject_Z_plus. change (inject_Z GRID_SIZE) with 50%Q.
    destruct H as [H|H].
    + rewrite H. change (inject_Z SCREEN_HEIGHT) with 600%Q. lra.
    + lra.
  - exists l. repeat split; auto.
    intros l' I' R'. now apply (CoverFacts.in_row_unique (Game.lanes g) y l' l).
Qed.

(** The second frame of a game, a coordinate exactly on a line between two
    rows. *)
Lemma screen_is_covered_witness :
  let g := Game.reached (Scenario.constant (1 # 2)) [[KEYDOWN K_SPACE]; []] in
  ((Game.cameraY g - 250 <= 450)%Q /\
   (450 < Game.cameraY g + inject_Z SCREEN_HEIGHT)%Q) /\
  exists l, Game.getLaneAtY g 450 = Some l /\ Spec.in_row 450 l = true.
Proof.
  intro g.
  assert (H : (Game.cameraY g - 250 <= 450)%Q /\
              (450 < Game.cameraY g + inject_Z SCREEN_HEIGHT)%Q)
    by (split; vm_compute; [discriminate|reflexivity]).
  split; [exact H|].
  destruct (screen_is_covered (Scenario.constant (1 # 2))
              [[KEYDOWN K_SPACE]; []] 450 (proj1 H) (proj2 H))
    as (l & F & _ & R & _).
  exists l. split; assumption.
Defined.

(** X16. Particles are those of one death: in every state the game
    reaches there are at most twenty particles, each with a lifetime left
    of 1 to 30 frames, and none at all while the player is alive. *)
Theorem particles_of_one_death (e : Env) (frames : list (list Event)) :
  let g := Game.reached e frames in
  (Player.dead (Game.player g) = false -> Game.particles g = []) /\
  (List.length (Game.particles g) <= 20)%nat /\
  Forall (fun p => 0 < Particle.lifetime p <= 30) (Game.particles g).
Proof.
  intro g. subst g.
  apply (RunFacts.reached_preserves Shape.burst_ok).
  - exact ParticleFacts.init_burst_ok.
  - exact ParticleFacts.keydown_burst_ok.
  - exact ParticleFacts.update_burst_ok.
Qed.

(** X17. The camera keeps the player in view: in every state the game
    reaches the camera is not below its target, the player's [y] less two
    thirds of the screen height as [updateCamera] computes it; and a live
    player is not beyond the death zone as [update] computes it (camera
    plus screen height plus one cell), is horizontally between 20 and 780,
    in one of the columns 0 to 15, and heading for a target between 25 and
    775. *)
Theorem live_player_is_on_screen (e : Env) (frames : list (list Event)) :
  let g := Game.reached e frames in
  (Game.cameraY g <= Shape.camera_target g)%Q /\
  (Player.dead (Game.player g) = false ->
   (Player.y (Game.player g) <= Shape.death_zone g)%Q /\
   (20 <= Player.x (Game.player g) <= 780)%Q /\
   0 <= Player.gridX (Game.player g) <= 15 /\
   25 <= Player.targetX (Game.player g) <= 775).
Proof.
  intro g. subst g.
  apply (RunFacts.reached_preserves Shape.on_screen).
  - exact ScreenFacts.init_on_screen.
  - exact ScreenFacts.keydown_on_screen.
  - exact ScreenFacts.update_on_screen.
Qed.

(** A game started with the space key, a hop up and two more frames. *)
Lemma live_player_is_on_screen_witness :
  let g := Game.reached (Scenario.constant (1 # 2))
             [[KEYDOWN K_SPACE]; [KEYDOWN K_UP]; []; []] in
  Player.dead (Game.player g) = false /\
  (Player.y (Game.player g) <= Shape.death_zone g)%Q /\
  (20 <= Player.x (Game.player g) <= 780)%Q.
Proof.
  intro g.
  assert (D : Player.dead (Game.player g) = false) by (vm_compute; reflexivity).
  split; [exact D|].
  destruct (live_player_is_on_screen (Scenario.constant (1 # 2))
              [[KEYDOWN K_SPACE]; [KEYDOWN K_UP]; []; []]) as (_ & L).
  destruct (L D) as (Y & X & _). split; [exact Y|exact X].
Defined.


